(** * Accident detection and alert core of [app.py]

    A shallow embedding of the decision-and-dispatch core of the Flask
    application: [AccidentDetector.detect_accident], the alert cooldown of the
    [/detect] route, [send_alert] / [send_email_alert] and the history query
    [get_accidents]; then the accounts ([create_demo_users], [/login],
    [/signup]), [/update_location], the seeding at start-up
    ([seed_sample_data]) and the parsing of the recipients
    ([ALERT_EMAILS]).

    Conventions.
    - Python floats (scores, confidences, thresholds, clock readings) are
      modelled as exact rationals [Q]; Python ints as [Z].
    - External capabilities (OpenCV, the YOLO model, Twilio, MongoDB,
      Firestore, SMTP, the random module, the clock) are inputs of the model:
      a capability that may raise returns [option] or is driven by a [World]
      that says which calls fail.
    - Module-level globals of [app.py] are fields of explicit state records. *)

From Stdlib Require Import QArith Qabs ZArith List Ascii String Bool Lia Lqa.
From Stdlib Require Import Sorting.Sorted Sorting.Permutation OrdersEx.
Import ListNotations.

Open Scope Q_scope.

(* ================================================================== *)
(** * Part I: definitions                                               *)
(* ================================================================== *)

(** ** Python comparison and builtins on floats *)

(** [x < y] on floats. *)
Definition Qltb (x y : Q) : bool := negb (Qle_bool y x).

(** [x >= y] on floats. *)
Definition Qgeb (x y : Q) : bool := Qle_bool y x.

(** What [float(x)] can return: a finite value, an infinity or NaN. *)
Inductive PyFloat :=
| Finite (q : Q)
| PosInf
| NegInf
| NaN.

(** [a < b] on such values; every comparison with NaN is false. *)
Definition pf_ltb (a b : PyFloat) : bool :=
  match a, b with
  | NaN, _ => false
  | _, NaN => false
  | Finite x, Finite y => Qltb x y
  | Finite _, PosInf => true
  | Finite _, NegInf => false
  | PosInf, _ => false
  | NegInf, NegInf => false
  | NegInf, _ => true
  end.

(** [min(a, b)]: the first argument is kept unless the second is smaller. *)
Definition py_min (a b : PyFloat) : PyFloat := if pf_ltb b a then b else a.

(** [max(a, b)]: the first argument is kept unless the second is larger. *)
Definition py_max (a b : PyFloat) : PyFloat := if pf_ltb a b then b else a.

(** ** class AccidentDetector *)

Module Detector.

(** One entry of [result.boxes]: [box.cls[0]], [box.conf[0]] and
    [box.xyxy[0].tolist()], the latter [None] when unpacking it raises. *)
Record Box := mkBox {
  box_cls : Z;
  box_conf : Q;
  box_xyxy : option (Q * Q * Q * Q)
}.

(** One element of [results]; [boxes] may be [None]. *)
Record Result := mkResult { boxes : option (list Box) }.

(** The dict appended to [boxes_info]. *)
Record BoxInfo := mkBoxInfo {
  x1 : Q; y1 : Q; x2 : Q; y2 : Q;
  class_id : Z;
  confidence : Q
}.

(** The capabilities [detect_accident] consumes: the motion score
    [np.mean(cv2.absdiff(gray(frame), gray(previous))) / 255.0] and the
    detector call [model(cv2.cvtColor(frame, COLOR_BGR2RGB))].  [None]
    stands for a raised exception. *)
Class Vision (Frame : Type) := {
  motion_score : Frame -> Frame -> option Q;
  yolo : Frame -> option (list Result)
}.

(** The instance attributes set by [__init__]. *)
Record State (Frame : Type) := mkState {
  accident_threshold : Q;
  previous_frame : option Frame;
  accident_detected : bool
}.
Arguments mkState {Frame} _ _ _.
Arguments accident_threshold {Frame} _.
Arguments previous_frame {Frame} _.
Arguments accident_detected {Frame} _.

(** [AccidentDetector.__init__]. *)
Definition init {Frame : Type} : State Frame :=
  mkState 0.5 None false.

Definition set_previous_frame {Frame} (self : State Frame) (f : Frame) : State Frame :=
  mkState (accident_threshold self) (Some f) (accident_detected self).

Definition set_accident_detected {Frame} (self : State Frame) (b : bool) : State Frame :=
  mkState (accident_threshold self) (previous_frame self) b.

Definition set_accident_threshold {Frame} (self : State Frame) (t : Q) : State Frame :=
  mkState t (previous_frame self) (accident_detected self).

(** The returned tuple
    [(is_accident, accident_score, vehicles_detected, boxes_info)]. *)
Record Outcome := mkOutcome {
  is_accident : bool;
  accident_score : Q;
  vehicles_detected : Z;
  boxes_info : list BoxInfo
}.

(** The locals [accident_score], [vehicles_detected], [boxes_info]. *)
Record Acc := mkAcc {
  acc_score : Q;
  acc_vehicles : Z;
  acc_boxes : list BoxInfo
}.

Definition acc0 : Acc := mkAcc 0 0%Z [].

(** [class_id in [2, 3, 5, 7] and confidence > 0.3]. *)
Definition is_vehicle (b : Box) : bool :=
  existsb (Z.eqb (box_cls b)) [2; 3; 5; 7]%Z && Qltb 0.3 (box_conf b).

Definition box_info (b : Box) (c : Q * Q * Q * Q) : BoxInfo :=
  let '(a1, b1, a2, b2) := c in
  mkBoxInfo a1 b1 a2 b2 (box_cls b) (box_conf b).

(** Body of [for box in boxes]; [None] when the motion computation
    raises. *)
Definition box_step {Frame} `{Vision Frame}
    (self : State Frame) (frame : Frame) (acc : Acc) (b : Box) : option Acc :=
  if is_vehicle b then
    let vehicles := (acc_vehicles acc + 1)%Z in
    let infos :=
      match box_xyxy b with
      | Some c => acc_boxes acc ++ [box_info b c]
      | None => acc_boxes acc
      end in
    match previous_frame self with
    | Some prev =>
        match motion_score frame prev with
        | Some m =>
            if Qltb 0.15 m
            then Some (mkAcc (acc_score acc + box_conf b * m) vehicles infos)
            else Some (mkAcc (acc_score acc) vehicles infos)
        | None => None
        end
    | None => Some (mkAcc (acc_score acc) vehicles infos)
    end
  else Some acc.

Fixpoint boxes_loop {Frame} `{Vision Frame}
    (self : State Frame) (frame : Frame) (acc : Acc) (bs : list Box) : option Acc :=
  match bs with
  | [] => Some acc
  | b :: bs' =>
      match box_step self frame acc b with
      | Some acc' => boxes_loop self frame acc' bs'
      | None => None
      end
  end.

(** [boxes = result.boxes; if boxes is not None: for box in boxes: ...]. *)
Definition after_boxes {Frame} `{Vision Frame}
    (self : State Frame) (frame : Frame) (acc : Acc) (r : Result) : option Acc :=
  match boxes r with
  | Some bs => boxes_loop self frame acc bs
  | None => Some acc
  end.

(** [accident_score > self.accident_threshold and vehicles_detected > 0]. *)
Definition raw_condition (threshold score : Q) (vehicles : Z) : bool :=
  Qltb threshold score && (0 <? vehicles)%Z.

(** What the [except Exception] handler returns. *)
Definition error_outcome : Outcome := mkOutcome false 0 0%Z [].

(** [for result in results]: the inner loop over the boxes, the store of
    the current frame and the edge-triggered decision are all inside the
    loop body; the final [return False, ...] follows the loop. *)
Fixpoint results_loop {Frame} `{Vision Frame}
    (self : State Frame) (frame : Frame) (acc : Acc) (results : list Result)
    : Outcome * State Frame :=
  match results with
  | [] => (mkOutcome false (acc_score acc) (acc_vehicles acc) (acc_boxes acc), self)
  | r :: rest =>
      match after_boxes self frame acc r with
      | None => (error_outcome, self)
      | Some acc' =>
          let self1 := set_previous_frame self frame in
          if raw_condition (accident_threshold self1) (acc_score acc') (acc_vehicles acc')
          then
            if negb (accident_detected self1)
            then (mkOutcome true (acc_score acc') (acc_vehicles acc') (acc_boxes acc'),
                  set_accident_detected self1 true)
            else results_loop self1 frame acc' rest
          else results_loop (set_accident_detected self1 false) frame acc' rest
      end
  end.

(** The [try] branch of [detect_accident]: the model-backed path. *)
Definition detect_accident_model {Frame} `{Vision Frame}
    (self : State Frame) (frame : Frame) : Outcome * State Frame :=
  match yolo frame with
  | None => (error_outcome, self)
  | Some results => results_loop self frame acc0 results
  end.

(** The values drawn by [random.uniform(0.1, 0.9)] and
    [random.randint(0, 3)] in the mock branch. *)
Record MockDraws := mkMockDraws {
  draw_score : Q;
  draw_vehicles : Z
}.

(** The mock branch of [detect_accident]. *)
Definition detect_accident_mock {Frame}
    (self : State Frame) (d : MockDraws) : Outcome * State Frame :=
  (mkOutcome (raw_condition (accident_threshold self) (draw_score d) (draw_vehicles d))
             (draw_score d) (draw_vehicles d) [],
   self).

(** The module-level flags the method tests. *)
Record Env := mkEnv {
  COMPUTER_VISION_AVAILABLE : bool;
  YOLO_AVAILABLE : bool;
  model_is_none : bool
}.

(** [AccidentDetector.detect_accident]. *)
Definition detect_accident {Frame} `{Vision Frame}
    (env : Env) (d : MockDraws) (self : State Frame) (frame : Frame)
    : Outcome * State Frame :=
  if negb (COMPUTER_VISION_AVAILABLE env) || negb (YOLO_AVAILABLE env) || model_is_none env
  then detect_accident_mock self d
  else detect_accident_model self frame.

(** The score the accumulation rule assigns to a list of detections when
    the motion score is [m]: [confidence * m] summed, in list order, over
    the detections that pass the vehicle filter. *)
Definition accumulated_score (m : Q) (bs : list Box) : Q :=
  fold_left (fun s b => s + box_conf b * m) (filter is_vehicle bs) 0.

(** All boxes of a detector output, in iteration order. *)
Definition all_boxes (results : list Result) : list Box :=
  flat_map (fun r => match boxes r with Some bs => bs | None => [] end) results.

(** A sequence of calls on the model-backed path.  Each entry records
    [raw_condition] at the call, the returned [is_accident] and the flag
    after the call. *)
Record Call := mkCall {
  call_raw : bool;
  call_is_accident : bool;
  call_flag_after : bool
}.

Fixpoint run {Frame} `{Vision Frame}
    (self : State Frame) (frames : list Frame) : list Call * State Frame :=
  match frames with
  | [] => ([], self)
  | f :: fs =>
      let '(out, self') := detect_accident_model self f in
      let c := mkCall (raw_condition (accident_threshold self)
                                     (accident_score out) (vehicles_detected out))
                      (is_accident out) (accident_detected self') in
      let '(cs, self'') := run self' fs in
      (c :: cs, self'')
  end.

(** The motion computation does not raise on this call. *)
Definition motion_ok {Frame} `{Vision Frame}
    (self : State Frame) (frame : Frame) : Prop :=
  match previous_frame self with
  | Some prev => motion_score frame prev <> None
  | None => True
  end.

(** The call is an ordinary one: the detector answers with the single
    [Results] entry it produces for one image, and nothing raises. *)
Definition ordinary_call {Frame} `{Vision Frame}
    (self : State Frame) (frame : Frame) : Prop :=
  (exists r, yolo frame = Some [r]) /\ motion_ok self frame.

(** [raw_condition] at the call before call [n] of a run that started
    with the flag at [flag0]; for the first call there is none and the
    flag it started from stands in. *)
Definition raw_before (flag0 : bool) (cs : list Call) (n : nat) : bool :=
  match n with
  | O => flag0
  | S m => match nth_error cs m with
           | Some p => call_raw p
           | None => false
           end
  end.

(** The reading under which the flag itself is the rising edge: after
    call [n] it is set exactly when [raw_condition] held at call [n] and
    not at call [n-1]. *)
Definition flag_is_rising_edge {Frame} `{Vision Frame}
    (self : State Frame) (frames : list Frame) : Prop :=
  forall n c,
    nth_error (fst (run self frames)) n = Some c ->
    (call_flag_after c = true
     <-> call_raw c = true /\ raw_before false (fst (run self frames)) n = false).

(** [raw_condition] as a call evaluates it after the boxes of the first
    entry of the detector output; [None] when the call evaluates none:
    the detector or the motion computation raises and the call ends in
    the handler, or the output has no entry. *)
Definition evaluated {Frame} `{Vision Frame}
    (self : State Frame) (frame : Frame) : option bool :=
  match yolo frame with
  | Some (r :: _) =>
      match after_boxes self frame acc0 r with
      | Some acc' =>
          Some (raw_condition (accident_threshold self) (acc_score acc') (acc_vehicles acc'))
      | None => None
      end
  | Some [] => None
  | None => None
  end.

(** One call of a sequence, whether or not it reaches the decision:
    [raw_condition] if the call evaluated it, the returned [is_accident],
    and the flag before and after the call. *)
Record Step := mkStep {
  step_raw : option bool;
  step_is_accident : bool;
  step_flag_before : bool;
  step_flag_after : bool
}.

Fixpoint steps {Frame} `{Vision Frame}
    (self : State Frame) (frames : list Frame) : list Step :=
  match frames with
  | [] => []
  | f :: fs =>
      mkStep (evaluated self f)
             (is_accident (fst (detect_accident_model self f)))
             (accident_detected self)
             (accident_detected (snd (detect_accident_model self f)))
      :: steps (snd (detect_accident_model self f)) fs
  end.

(** The flag after call [n-1]; for the first call, the flag the sequence
    started from. *)
Definition flag_after_previous (flag0 : bool) (ss : list Step) (n : nat) : bool :=
  match n with
  | O => flag0
  | S m => match nth_error ss m with
           | Some p => step_flag_after p
           | None => false
           end
  end.

(** The detector answers one image with at most one [Results] entry,
    when it answers (for one image it returns one). *)
Definition at_most_one_entry {Frame} `{Vision Frame} : Prop :=
  forall (f : Frame) results,
    yolo f = Some results -> results = [] \/ exists r, results = [r].

(** *** A concrete camera: uniformly grey frames

    A frame is its grey level in [0, 255]; the mean absolute difference of
    two uniform frames is the absolute difference of their levels.  The
    detector reports one car of confidence 0.75. *)
Definition grey_motion (f p : Q) : option Q := Some (Qabs (f - p) / 255).

Definition car (conf : Q) : Box := mkBox 2 conf (Some (0, 0, 10, 10)).

Definition one_car : Result := mkResult (Some [car 0.75]).

Definition grey_vision : Vision Q :=
  {| motion_score := grey_motion; yolo := fun _ => Some [one_car] |}.

(** The same camera with a detector whose output holds two [Results]
    entries, one car each. *)
Definition second_car : Result := mkResult (Some [car 0.5]).

Definition two_results_vision : Vision Q :=
  {| motion_score := grey_motion; yolo := fun _ => Some [one_car; second_car] |}.

(** The same camera with two cars in the one entry. *)
Definition two_cars_vision : Vision Q :=
  {| motion_score := grey_motion;
     yolo := fun _ => Some [mkResult (Some [car 0.75; car 0.5])] |}.

(** A camera whose frames have a width and a grey level: the difference
    of two frames of different widths cannot be computed
    ([cv2.absdiff] raises). *)
Definition resizing_vision : Vision (nat * Q) :=
  {| motion_score := fun f p =>
       if Nat.eqb (fst f) (fst p) then Some (Qabs (snd f - snd p) / 255) else None;
     yolo := fun _ => Some [one_car] |}.

End Detector.

(** ** The alert cooldown gate *)

Module Gate.

(** How the environment variable [ALERT_COOLDOWN_SECONDS] reads. *)
Inductive EnvVar :=
| Unset
| EmptyText
| NotAnInt
| IntText (z : Z).

(** [int(os.getenv('ALERT_COOLDOWN_SECONDS', '20') or 20)], with 20 again
    when [int] raises. *)
Definition ALERT_COOLDOWN_SECONDS (v : EnvVar) : Z :=
  match v with
  | IntText z => z
  | Unset | EmptyText | NotAnInt => 20%Z
  end.

(** [last_alert_time = 0] at module load. *)
Definition initial_last_alert_time : Q := 0.

(** [now - last_alert_time >= ALERT_COOLDOWN_SECONDS]. *)
Definition passes (cooldown : Z) (last_alert_time now : Q) : bool :=
  Qgeb (now - last_alert_time) (inject_Z cooldown).

(** The check together with the assignment [last_alert_time = now] of
    its true branch: the answer and the new value of the global. *)
Definition check (cooldown : Z) (last_alert_time now : Q) : bool * Q :=
  if passes cooldown last_alert_time now
  then (true, now)
  else (false, last_alert_time).

(** Gate checks made one after the other at the given clock readings:
    the answers, and the final value of the global. *)
Fixpoint checks (cooldown : Z) (last_alert_time : Q) (nows : list Q)
    : list bool * Q :=
  match nows with
  | [] => ([], last_alert_time)
  | now :: rest =>
      let '(b, last') := check cooldown last_alert_time now in
      let '(bs, last'') := checks cooldown last' rest in
      (b :: bs, last'')
  end.

(** The reading under which the global starts at "never": the first
    check ever made passes whatever the clock reads and whatever the
    cooldown is set to. *)
Definition first_check_always_passes : Prop :=
  forall (v : EnvVar) (now : Q),
    fst (check (ALERT_COOLDOWN_SECONDS v) initial_last_alert_time now) = true.

End Gate.

(** ** send_alert and send_email_alert *)

Module Dispatch.

Record Coordinates := mkCoordinates { lat : Q; lng : Q }.

(** The dict handed to [send_alert]. *)
Record AccidentData := mkAccidentData {
  location : string;
  coordinates : Coordinates;
  confidence : Q;
  vehicles_detected : Z
}.

(** The dict [accident_record]. *)
Record AccidentRecord := mkAccidentRecord {
  timestamp : string;
  rec_location : string;
  rec_coordinates : Coordinates;
  rec_confidence : Q;
  rec_vehicles_detected : Z;
  status : string
}.

(** Module-level configuration, fixed at import time.  The three handles
    are [true] when the corresponding global is not [None]. *)
Record Config := mkConfig {
  accidents_collection : bool;
  twilio_client : bool;
  db_firestore : bool;
  SMTP_HOST : string;
  SMTP_PORT : Z;
  SMTP_USER : string;
  SMTP_PASSWORD : string;
  ALERT_EMAILS : list string
}.

(** Which external calls raise during one dispatch. *)
Record World := mkWorld {
  insert_one_raises : bool;
  sms_raises : string -> bool;
  firestore_add_raises : bool;
  smtp_raises : bool
}.

(** What a dispatch leaves behind outside the stores: deliveries and the
    lines printed by the handlers. *)
Inductive Event :=
| SmsSent (contact : string)
| SmsFailedLogged (contact : string)
| EmailSent
| EmailFailedLogged
| AlertSentLogged
| AlertErrorLogged.

(** [accidents_db], the two remote collections, and the event log. *)
Record Store := mkStore {
  accidents_db : list AccidentRecord;
  mongo_accidents : list AccidentRecord;
  firestore_accidents : list AccidentRecord;
  log : list Event
}.

Definition empty_store : Store := mkStore [] [] [] [].

(** *** Statements that may raise, over the store *)

Inductive Exc (A : Type) :=
| Ok (a : A)
| Raised.
Arguments Ok {A} a.
Arguments Raised {A}.

Definition M (A : Type) : Type := Store -> Exc A * Store.

Definition ret {A} (a : A) : M A := fun s => (Ok a, s).

Definition raise {A} : M A := fun s => (Raised, s).

Definition bind {A B} (m : M A) (k : A -> M B) : M B :=
  fun s =>
    match m s with
    | (Ok a, s') => k a s'
    | (Raised, s') => (Raised, s')
    end.

(** [try: m except Exception: h].  Effects of [m] before the raise stay. *)
Definition try_except {A} (m h : M A) : M A :=
  fun s =>
    match m s with
    | (Ok a, s') => (Ok a, s')
    | (Raised, s') => h s'
    end.

Notation "x <- m ;; k" := (bind m (fun x => k))
  (at level 61, m at next level, right associativity).
Notation "m ;; k" := (bind m (fun _ => k))
  (at level 61, right associativity).

(** [print(...)] in a handler, or a completed delivery. *)
Definition emit (e : Event) : M unit :=
  fun s => (Ok tt, mkStore (accidents_db s) (mongo_accidents s)
                           (firestore_accidents s) (log s ++ [e])).

(** [accidents_collection.insert_one(accident_record)]. *)
Definition insert_one (w : World) (r : AccidentRecord) : M unit :=
  fun s =>
    if insert_one_raises w then (Raised, s)
    else (Ok tt, mkStore (accidents_db s) (mongo_accidents s ++ [r])
                         (firestore_accidents s) (log s)).

(** [accidents_db.append(accident_record)]. *)
Definition append (r : AccidentRecord) : M unit :=
  fun s => (Ok tt, mkStore (accidents_db s ++ [r]) (mongo_accidents s)
                           (firestore_accidents s) (log s)).

(** [twilio_client.messages.create(body=..., from_=..., to=contact)]. *)
Definition messages_create (w : World) (contact : string) : M unit :=
  if sms_raises w contact then raise else emit (SmsSent contact).

(** [db_firestore.collection('accidents').add(accident_record)]. *)
Definition firestore_add (w : World) (r : AccidentRecord) : M unit :=
  fun s =>
    if firestore_add_raises w then (Raised, s)
    else (Ok tt, mkStore (accidents_db s) (mongo_accidents s)
                         (firestore_accidents s ++ [r]) (log s)).

(** The [with smtplib.SMTP(...)] block. *)
Definition smtp_send (w : World) : M unit :=
  if smtp_raises w then raise else emit EmailSent.

(** [for x in xs: body(x)]. *)
Fixpoint for_each {A} (xs : list A) (body : A -> M unit) : M unit :=
  match xs with
  | [] => ret tt
  | x :: rest => body x ;; for_each rest body
  end.

(** Truth value of a str, an int and a list. *)
Definition truthy_str (s : string) : bool := negb (String.eqb s "").
Definition truthy_int (z : Z) : bool := negb (z =? 0)%Z.
Definition truthy_list {A} (l : list A) : bool :=
  match l with [] => false | _ :: _ => true end.

(** [SMTP_HOST and SMTP_PORT and SMTP_USER and SMTP_PASSWORD and
    ALERT_EMAILS]. *)
Definition smtp_configured (cfg : Config) : bool :=
  truthy_str (SMTP_HOST cfg) && truthy_int (SMTP_PORT cfg)
  && truthy_str (SMTP_USER cfg) && truthy_str (SMTP_PASSWORD cfg)
  && truthy_list (ALERT_EMAILS cfg).

(** [send_email_alert]. *)
Definition send_email_alert (cfg : Config) (w : World) : M bool :=
  try_except
    (if negb (smtp_configured cfg) then ret false
     else smtp_send w ;; ret true)
    (emit EmailFailedLogged ;; ret false).

Definition emergency_contacts : list string := ["+1234567890"; "+0987654321"]%string.

Definition accident_record (stamp : string) (d : AccidentData) : AccidentRecord :=
  mkAccidentRecord stamp (location d) (coordinates d) (confidence d)
                   (vehicles_detected d) "alert_sent".

(** The body of the [try] of [send_alert], for a given contact list. *)
Definition send_alert_body (contacts : list string)
    (cfg : Config) (w : World) (stamp : string) (d : AccidentData) : M bool :=
  let r := accident_record stamp d in
  (if accidents_collection cfg then insert_one w r else append r) ;;
  (if twilio_client cfg
   then for_each contacts
          (fun contact =>
             try_except (messages_create w contact)
                        (emit (SmsFailedLogged contact)))
   else ret tt) ;;
  (if db_firestore cfg then firestore_add w r else ret tt) ;;
  send_email_alert cfg w ;;
  emit AlertSentLogged ;;
  ret true.

(** [send_alert] for a given contact list. *)
Definition send_alert_to (contacts : list string)
    (cfg : Config) (w : World) (stamp : string) (d : AccidentData) : M bool :=
  try_except (send_alert_body contacts cfg w stamp d)
             (emit AlertErrorLogged ;; ret false).

(** [send_alert]. *)
Definition send_alert : Config -> World -> string -> AccidentData -> M bool :=
  send_alert_to emergency_contacts.

(** A sub-operation counts as attempted when its delivery or its logged
    failure is in the log. *)
Definition sms_attempted (contact : string) (s : Store) : Prop :=
  In (SmsSent contact) (log s) \/ In (SmsFailedLogged contact) (log s).

Definition email_attempted (s : Store) : Prop :=
  In EmailSent (log s) \/ In EmailFailedLogged (log s).

(** The log line one contact leaves: a delivery, or the failure printed
    by the handler of the loop body. *)
Definition sms_event (w : World) (contact : string) : Event :=
  if sms_raises w contact then SmsFailedLogged contact else SmsSent contact.

(** The log lines [send_email_alert] leaves. *)
Definition email_events (cfg : Config) (w : World) : list Event :=
  if smtp_configured cfg
  then [if smtp_raises w then EmailFailedLogged else EmailSent]
  else [].

Definition add_log (s : Store) (l : list Event) : Store :=
  mkStore (accidents_db s) (mongo_accidents s) (firestore_accidents s) (log s ++ l).

(** The store after the primary write has returned. *)
Definition after_primary (cfg : Config) (r : AccidentRecord) (s : Store) : Store :=
  if accidents_collection cfg
  then mkStore (accidents_db s) (mongo_accidents s ++ [r]) (firestore_accidents s) (log s)
  else mkStore (accidents_db s ++ [r]) (mongo_accidents s) (firestore_accidents s) (log s).

(** The log lines of the SMS stage. *)
Definition sms_events (contacts : list string) (cfg : Config) (w : World) : list Event :=
  if twilio_client cfg then map (sms_event w) contacts else [].

(** The store after the Firestore write has returned. *)
Definition after_mirror (cfg : Config) (r : AccidentRecord) (s : Store) : Store :=
  if db_firestore cfg
  then mkStore (accidents_db s) (mongo_accidents s) (firestore_accidents s ++ [r]) (log s)
  else s.

(** The reading under which no failure of one sub-operation keeps
    another from being attempted: whatever the sinks do, every contact
    and the configured e-mail are attempted. *)
Definition never_short_circuits
    (cfg : Config) (stamp : string) (d : AccidentData) (s : Store) : Prop :=
  forall w : World,
    (smtp_configured cfg = true ->
     email_attempted (snd (send_alert cfg w stamp d s)))
    /\ (twilio_client cfg = true ->
        forall c, In c emergency_contacts ->
                  sms_attempted c (snd (send_alert cfg w stamp d s))).

(** *** Concrete configurations *)

Definition full_config : Config :=
  mkConfig false true true "smtp.example.org" 587 "alerts" "secret"
           ["ops@example.org"]%string.

Definition mongo_config : Config :=
  mkConfig true true true "smtp.example.org" 587 "alerts" "secret"
           ["ops@example.org"]%string.

Definition calm_world : World := mkWorld false (fun _ => false) false false.

(** The first emergency contact is unreachable. *)
Definition first_sms_fails : World :=
  mkWorld false (fun c => String.eqb c "+1234567890") false false.

(** The Firestore write raises. *)
Definition mirror_down : World := mkWorld false (fun _ => false) true false.

(** The MongoDB insert raises. *)
Definition mongo_down : World := mkWorld true (fun _ => false) false false.

Definition sample_data : AccidentData :=
  mkAccidentData "Connaught Place, New Delhi, India"
                 (mkCoordinates 28.6315 77.2167) 0.82 2.

End Dispatch.

(** ** The /detect route *)

Module Route.

(** [data.get('threshold')] as the route sees it: absent or null, a value
    [float] rejects, or a value [float] converts. *)
Inductive ThresholdField :=
| ThresholdAbsent
| ThresholdNotFloat
| ThresholdNumber (v : PyFloat).

(** [data.get('image')] as the route sees it: falsy, text whose decoding
    raises, or text that decodes to a frame. *)
Inductive ImageField (Frame : Type) :=
| ImageMissing
| ImageUndecodable
| ImageOf (frame : Frame).
Arguments ImageMissing {Frame}.
Arguments ImageUndecodable {Frame}.
Arguments ImageOf {Frame} frame.

Record Request (Frame : Type) := mkRequest {
  image : ImageField Frame;
  threshold : ThresholdField
}.
Arguments mkRequest {Frame} _ _.
Arguments image {Frame} _.
Arguments threshold {Frame} _.

(** The values drawn in the mock branch of the route: [random.random()],
    [random.uniform(0.1, 0.95)], [random.randint(0, 3)]. *)
Record RouteDraws := mkRouteDraws {
  draw_random : Q;
  draw_confidence : Q;
  draw_vehicles : Z
}.

(** Everything one request reads from outside: the clock, the two
    [datetime.now().isoformat()] stamps, the text [get_location_info]
    returns, the random draws and the behaviour of the sinks. *)
Record Inputs := mkInputs {
  clock : Q;
  response_stamp : string;
  record_stamp : string;
  location_info : string;
  route_draws : RouteDraws;
  mock_draws : Detector.MockDraws;
  world : Dispatch.World
}.

(** The module-level configuration. *)
Record Config := mkConfig {
  env : Detector.Env;
  cooldown : Z;
  sinks : Dispatch.Config
}.

(** The globals the route reads and writes. *)
Record App (Frame : Type) := mkApp {
  detector : Detector.State Frame;
  last_alert_time : Q;
  store : Dispatch.Store;
  current_location : Dispatch.Coordinates
}.
Arguments mkApp {Frame} _ _ _ _.
Arguments detector {Frame} _.
Arguments last_alert_time {Frame} _.
Arguments store {Frame} _.
Arguments current_location {Frame} _.

(** The state right after import. *)
Definition initial_app {Frame} : App Frame :=
  mkApp Detector.init Gate.initial_last_alert_time Dispatch.empty_store
        (Dispatch.mkCoordinates 28.6139 77.2090).

(** The dict [result]; a key that may be missing is an [option]. *)
Record Result := mkResult {
  accident_detected : bool;
  confidence : Q;
  vehicles_detected : Z;
  boxes : list Detector.BoxInfo;
  timestamp : string;
  demo_mode : option bool;
  alert_sent : option bool;
  alert_suppressed : option bool
}.

Inductive Response :=
| NoImageError
| ExceptionError
| Json (r : Result).

Definition set_alert_keys (r : Result) (sent suppressed : option bool) : Result :=
  mkResult (accident_detected r) (confidence r) (vehicles_detected r) (boxes r)
           (timestamp r) (demo_mode r) sent suppressed.

(** [max(0.1, min(1.0, threshold))]. *)
Definition clamp (v : PyFloat) : PyFloat :=
  py_max (Finite 0.1) (py_min (Finite 1.0) v).

(** The [try] that reads the threshold: a converted value is clamped and
    stored, anything else leaves the detector alone.  The clamped value is
    always finite, so the last case never runs. *)
Definition apply_threshold {Frame}
    (t : ThresholdField) (d : Detector.State Frame) : Detector.State Frame :=
  match t with
  | ThresholdNumber v =>
      match clamp v with
      | Finite q => Detector.set_accident_threshold d q
      | PosInf | NegInf | NaN => d
      end
  | ThresholdAbsent | ThresholdNotFloat => d
  end.

(** The block [if is_accident: ...] that ends both branches of the
    route. *)
Definition alert_stage {Frame}
    (cfg : Config) (inp : Inputs) (r : Result) (app : App Frame)
    : Response * App Frame :=
  if accident_detected r then
    let now := clock inp in
    let '(pass, last') := Gate.check (cooldown cfg) (last_alert_time app) now in
    if pass then
      let accident_data :=
        Dispatch.mkAccidentData (location_info inp) (current_location app)
                                (confidence r) (vehicles_detected r) in
      match Dispatch.send_alert (sinks cfg) (world inp) (record_stamp inp)
                                accident_data (store app) with
      | (Dispatch.Ok _, store') =>
          (Json (set_alert_keys r (Some true) (Some false)),
           mkApp (detector app) last' store' (current_location app))
      | (Dispatch.Raised, store') =>
          (ExceptionError,
           mkApp (detector app) last' store' (current_location app))
      end
    else
      (Json (set_alert_keys r (Some false) (Some true)), app)
  else
    (Json (set_alert_keys r (alert_sent r) (Some false)), app).

(** The route [/detect]. *)
Definition detect_accident {Frame} `{Detector.Vision Frame}
    (cfg : Config) (inp : Inputs) (req : Request Frame) (app : App Frame)
    : Response * App Frame :=
  let app1 :=
    mkApp (apply_threshold (threshold req) (detector app))
          (last_alert_time app) (store app) (current_location app) in
  match image req with
  | ImageMissing => (NoImageError, app1)
  | img =>
      if negb (Detector.COMPUTER_VISION_AVAILABLE (env cfg))
         || negb (Detector.YOLO_AVAILABLE (env cfg))
      then
        let d := route_draws inp in
        let r := mkResult (Qltb 0.8 (draw_random d)) (draw_confidence d)
                          (draw_vehicles d) [] (response_stamp inp)
                          (Some true) None None in
        alert_stage cfg inp r app1
      else
        match img with
        | ImageOf frame =>
            let '(out, det') :=
              Detector.detect_accident (env cfg) (mock_draws inp)
                                       (detector app1) frame in
            let app2 :=
              mkApp det' (last_alert_time app1) (store app1)
                    (current_location app1) in
            let r := mkResult (Detector.is_accident out)
                              (Detector.accident_score out)
                              (Detector.vehicles_detected out)
                              (Detector.boxes_info out)
                              (response_stamp inp) None None None in
            alert_stage cfg inp r app2
        | _ => (ExceptionError, app1)
        end
  end.

(** No real detector is available: the test of
    [AccidentDetector.detect_accident]. *)
Definition degraded (e : Detector.Env) : bool :=
  negb (Detector.COMPUTER_VISION_AVAILABLE e)
  || negb (Detector.YOLO_AVAILABLE e)
  || Detector.model_is_none e.

(** What the random module promises about the draws of the route:
    [random()] in [0, 1), [uniform(0.1, 0.95)] between its bounds,
    [randint(0, 3)] among 0, 1, 2, 3. *)
Definition valid_route_draws (d : RouteDraws) : Prop :=
  (0 <= draw_random d /\ draw_random d < 1)
  /\ (0.1 <= draw_confidence d /\ draw_confidence d <= 0.95)
  /\ (0 <= draw_vehicles d <= 3)%Z.

(** The same for the draws of the detector: [uniform(0.1, 0.9)] and
    [randint(0, 3)]. *)
Definition valid_mock_draws (d : Detector.MockDraws) : Prop :=
  (0.1 <= Detector.draw_score d /\ Detector.draw_score d <= 0.9)
  /\ (0 <= Detector.draw_vehicles d <= 3)%Z.

(** The reading under which one degraded mode serves every request made
    without a real detector: a confidence in [0.1, 0.9], a vehicle count
    among 0..3, [is_accident] by the threshold rule, and the degraded
    flag in the answer. *)
Definition degraded_contract {Frame} `{Detector.Vision Frame}
    (cfg : Config) (inp : Inputs) (req : Request Frame) (app : App Frame) : Prop :=
  degraded (env cfg) = true ->
  match detect_accident cfg inp req app with
  | (Json r, app') =>
      (0.1 <= confidence r /\ confidence r <= 0.9)
      /\ (0 <= vehicles_detected r <= 3)%Z
      /\ accident_detected r
         = Detector.raw_condition (Detector.accident_threshold (detector app'))
                                  (confidence r) (vehicles_detected r)
      /\ demo_mode r = Some true
  | _ => True
  end.

(** *** The threshold as it arrives

    [data.get('threshold')] for a JSON number holds what the JSON parser
    made of it: an [int] of any size for an integer literal, a [float]
    for the others (an infinity for a literal beyond the range of a
    float, NaN for the literal [NaN]). *)
Inductive JsonNumber :=
| JsonInt (z : Z)
| JsonFloat (v : PyFloat).

(** The nearest value with 53 significant bits, ties to even: what
    [float(z)] returns for an int when that is in range. *)
Definition nearest_float (z : Z) : Z :=
  let a := Z.abs z in
  let k := (Z.log2 a - 52)%Z in
  if (k <=? 0)%Z then z
  else
    let m := Z.shiftr a k in
    let r := (a - Z.shiftl m k)%Z in
    let h := Z.shiftl 1 (k - 1) in
    let m' := if (h <? r)%Z || ((r =? h)%Z && Z.odd m) then (m + 1)%Z else m in
    (Z.sgn z * Z.shiftl m' k)%Z.

(** [float(z)] for an int; [None] stands for the [OverflowError] raised
    when the rounded value would be [2^1024] or more. *)
Definition float_of_int (z : Z) : option PyFloat :=
  let r := nearest_float z in
  if (Z.abs r <? 2 ^ 1024)%Z then Some (Finite (inject_Z r)) else None.

(** [float(data.get('threshold'))] for a JSON number. *)
Definition float_of_number (n : JsonNumber) : option PyFloat :=
  match n with
  | JsonInt z => float_of_int z
  | JsonFloat v => Some v
  end.

(** The field as the route sees it. *)
Definition threshold_of_number (n : JsonNumber) : ThresholdField :=
  match float_of_number n with
  | Some v => ThresholdNumber v
  | None => ThresholdNotFloat
  end.

(** The number itself, before any conversion. *)
Definition number_value (n : JsonNumber) : PyFloat :=
  match n with
  | JsonInt z => Finite (inject_Z z)
  | JsonFloat v => v
  end.

(** The reading under which every numeric override ends up clamped:
    whatever number is sent, the threshold afterwards is that number
    clamped to [0.1, 1.0]. *)
Definition every_number_clamped {Frame} `{Detector.Vision Frame} : Prop :=
  forall (cfg : Config) (inp : Inputs) (img : ImageField Frame) (app : App Frame)
         (n : JsonNumber),
    Finite (Detector.accident_threshold
              (detector (snd (detect_accident cfg inp
                                (mkRequest img (threshold_of_number n)) app))))
    = clamp (number_value n).

(** *** Concrete requests *)

Definition demo_env : Detector.Env := Detector.mkEnv false false true.
Definition model_missing_env : Detector.Env := Detector.mkEnv true true true.

Definition demo_config : Config := mkConfig demo_env 20 Dispatch.full_config.
Definition mongo_demo_config : Config := mkConfig demo_env 20 Dispatch.mongo_config.
Definition model_missing_config : Config :=
  mkConfig model_missing_env 20 Dispatch.full_config.

Definition inputs_at (now : Q) (d : RouteDraws) (m : Detector.MockDraws)
    (w : Dispatch.World) : Inputs :=
  mkInputs now "2024-01-01T00:00:00" "2024-01-01T00:00:00"
           "Lat: 28.6139, Lng: 77.209" d m w.

(** A request with a frame and no threshold, on the grey camera. *)
Definition plain_request : Request Q := mkRequest (ImageOf 0) ThresholdAbsent.

(** The coin says accident, with no vehicle and the top confidence. *)
Definition lucky_draws : RouteDraws := mkRouteDraws 0.9 0.95 0.

(** The coin says accident, two vehicles. *)
Definition accident_draws : RouteDraws := mkRouteDraws 0.9 0.5 2.

Definition some_mock_draws : Detector.MockDraws := Detector.mkMockDraws 0.7 2.

End Route.

(** ** The /accidents route *)

Module History.

Import Dispatch.

(** [a < b] on the str timestamps. *)
Definition ts_ltb (a b : AccidentRecord) : bool :=
  String.ltb (timestamp a) (timestamp b).

(** [sorted(xs, key=lambda x: x['timestamp'], reverse=True)]: the stable
    descending sort.  An element is placed before the first element whose
    key is not greater, so records with equal keys keep their order. *)
Fixpoint insert_desc (x : AccidentRecord) (l : list AccidentRecord)
    : list AccidentRecord :=
  match l with
  | [] => [x]
  | y :: ys => if ts_ltb x y then y :: insert_desc x ys else x :: y :: ys
  end.

Fixpoint sorted_desc (l : list AccidentRecord) : list AccidentRecord :=
  match l with
  | [] => []
  | x :: xs => insert_desc x (sorted_desc xs)
  end.

(** The fixed bound of both queries. *)
Definition limit : nat := 50.

(** The durable query
    [find({}, {'_id': 0}).sort('timestamp', -1).limit(n)] over the
    collection; [None] when it raises. *)
Class Durable := {
  find_sort_limit : list AccidentRecord -> nat -> option (list AccidentRecord)
}.

Inductive Response :=
| Accidents (l : list AccidentRecord)
| ExceptionError.

(** [get_accidents]. *)
Definition get_accidents `{Durable} (cfg : Config) (s : Store) : Response :=
  if accidents_collection cfg then
    match find_sort_limit (mongo_accidents s) limit with
    | Some l => Accidents l
    | None => ExceptionError
    end
  else Accidents (firstn limit (sorted_desc (accidents_db s))).

(** Non-increasing timestamps: every record is at least as recent as all
    the records after it. *)
Definition newer_or_same (a b : AccidentRecord) : Prop :=
  String.leb (timestamp b) (timestamp a) = true.

Definition descending (l : list AccidentRecord) : Prop :=
  StronglySorted newer_or_same l.

(** The MongoDB server behind the query
    [find({}, {'_id': 0}).sort('timestamp', -1).limit(n)]: the call
    raises when [find_raises] says so; otherwise the cursor yields the
    documents of the collection ([find]) ordered by [timestamp] from the
    greatest down ([sort('timestamp', -1)]) and stops after [n] of them
    ([limit(n)]).  Documents with equal timestamps are left in the order
    of the collection. *)
Definition mongo_server (find_raises : bool) : Durable :=
  {| find_sort_limit := fun docs n =>
       if find_raises then None else Some (firstn n (sorted_desc docs)) |}.

(** The ordering contract of the listing, for an answer [l] drawn from
    the stored records [stored]: non-increasing timestamps, at most
    [limit] records, every one of them stored, as many as the limit
    allows, and no record left out that is more recent than one kept. *)
Definition recent_first (stored l : list AccidentRecord) : Prop :=
  descending l
  /\ (List.length l <= limit)%nat
  /\ List.length l = Nat.min limit (List.length stored)
  /\ incl l stored
  /\ (forall a b, In a l -> In b stored -> ~ In b l -> newer_or_same a b).

(** A durable store that answers with the stable descending sort. *)
Definition sorting_store : Durable :=
  {| find_sort_limit := fun docs n => Some (firstn n (sorted_desc docs)) |}.

Definition record_at (stamp : string) : AccidentRecord :=
  mkAccidentRecord stamp "MG Road, Gurugram, India"
                   (mkCoordinates 28.4793 77.0737) 0.67 1 "alert_sent".

End History.

(** ** Two /detect requests in flight

    The route takes no lock.  Between the test of line
    [if now - last_alert_time >= ALERT_COOLDOWN_SECONDS] and the assignment
    [last_alert_time = now] another request may run. *)

Module Race.

(** Where a request stands in its alert block. *)
Inductive Pc :=
| AtCheck (now : Q)
| AtAssign (now : Q)
| Done (alerted : bool).

(** The shared global and the two requests. *)
Record State := mkState {
  last_alert_time : Q;
  first : Pc;
  second : Pc
}.

(** One statement of one request. *)
Definition step_pc (cooldown : Z) (last : Q) (pc : Pc) : option (Q * Pc) :=
  match pc with
  | AtCheck now =>
      if Gate.passes cooldown last now
      then Some (last, AtAssign now)
      else Some (last, Done false)
  | AtAssign now => Some (now, Done true)
  | Done _ => None
  end.

Inductive Thread := First | Second.

(** The scheduler lets one request run its next statement. *)
Definition step (cooldown : Z) (t : Thread) (s : State) : option State :=
  match t with
  | First =>
      match step_pc cooldown (last_alert_time s) (first s) with
      | Some (l, pc) => Some (mkState l pc (second s))
      | None => None
      end
  | Second =>
      match step_pc cooldown (last_alert_time s) (second s) with
      | Some (l, pc) => Some (mkState l (first s) pc)
      | None => None
      end
  end.

(** Run a schedule; a turn given to a finished request is skipped. *)
Fixpoint exec (cooldown : Z) (schedule : list Thread) (s : State) : State :=
  match schedule with
  | [] => s
  | t :: rest =>
      match step cooldown t s with
      | Some s' => exec cooldown rest s'
      | None => exec cooldown rest s
      end
  end.

Definition start (last now1 now2 : Q) : State :=
  mkState last (AtCheck now1) (AtCheck now2).

Definition both_alerted (s : State) : bool :=
  match first s, second s with
  | Done true, Done true => true
  | _, _ => false
  end.

(** The reading under which the check-and-set is one atomic step: no
    schedule lets both requests alert. *)
Definition gate_is_atomic (cooldown : Z) (last now1 now2 : Q) : Prop :=
  forall schedule,
    both_alerted (exec cooldown schedule (start last now1 now2)) = false.

(** The two schedules in which one request finishes before the other
    starts. *)
Definition serial (schedule : list Thread) : Prop :=
  schedule = [First; First; Second; Second]
  \/ schedule = [Second; Second; First; First].

End Race.

(** ** Users: create_demo_users, /login and /signup *)

Module Users.

(** A key of [users_db]: the JSON string sent as [username], or [None]
    when the key is missing or null. *)
Definition Key : Type := option string.

Definition key_eqb (a b : Key) : bool :=
  match a, b with
  | Some x, Some y => String.eqb x y
  | None, None => true
  | _, _ => false
  end.

(** A value of [users_db]. *)
Record User := mkUser {
  password : string;
  email : option string;
  role : string;
  created_at : string
}.

(** The dict [users_db], in insertion order. *)
Definition UsersDb : Type := list (Key * User).

(** [users_db.get(k)]. *)
Fixpoint lookup (k : Key) (db : UsersDb) : option User :=
  match db with
  | [] => None
  | (k', u) :: rest => if key_eqb k k' then Some u else lookup k rest
  end.

(** [k in users_db]. *)
Definition mem (k : Key) (db : UsersDb) : bool :=
  match lookup k db with Some _ => true | None => false end.

(** [users_db[k] = u]: the entry is replaced where it stands, or added at
    the end. *)
Fixpoint store (k : Key) (u : User) (db : UsersDb) : UsersDb :=
  match db with
  | [] => [(k, u)]
  | (k', u') :: rest =>
      if key_eqb k k' then (k, u) :: rest else (k', u') :: store k u rest
  end.

(** The library calls: [bcrypt.hashpw(password.encode('utf-8'), salt)],
    [bcrypt.checkpw(password.encode('utf-8'), hashed)] and
    [create_access_token(identity=username)].  The first two are applied
    to the passwords they accept only (see [PasswordField]). *)
Class Crypto := {
  hashpw : string -> string -> string;
  checkpw : string -> string -> bool;
  create_access_token : Key -> string
}.

(** [users_db] and the documents of [users_collection]. *)
Record State := mkState {
  users_db : UsersDb;
  users_documents : list (Key * User)
}.

(** What one call reads from outside: the salts of [bcrypt.gensalt()],
    the stamps of [datetime.now().isoformat()], and whether
    [users_collection.insert_one] raises. *)
Record Inputs := mkInputs {
  salt : string;
  salt2 : string;
  stamp : string;
  stamp2 : string;
  insert_one_raises : bool
}.

(** [create_demo_users]. *)
Definition create_demo_users `{Crypto} (inp : Inputs) (st : State) : State :=
  let db1 :=
    store (Some "admin"%string)
          (mkUser (hashpw "admin123" (salt inp))
                  (Some "admin@accidentdetection.com"%string) "admin" (stamp inp))
          (users_db st) in
  let db2 :=
    store (Some "user"%string)
          (mkUser (hashpw "user123" (salt2 inp))
                  (Some "user@accidentdetection.com"%string) "user" (stamp2 inp))
          db1 in
  mkState db2 (users_documents st).

Inductive Method := GET | POST.

(** [data.get('password')] as the two routes use it: the key is missing
    or null; or it holds a value on which [password.encode('utf-8')] or
    the bcrypt call raises (a value that is not a string, a string with a
    lone surrogate, a password bcrypt refuses for its length); or it
    holds a string both accept.  In the first two cases the expression
    that uses the password raises. *)
Inductive PasswordField :=
| PasswordMissing
| PasswordRefused
| PasswordText (p : string).

(** The JSON body: [username] and [email] are [None] when missing or
    null. *)
Record Body := mkBody {
  username : Key;
  password_field : PasswordField;
  email_field : option string
}.

Inductive LoginResponse :=
| LoginPage
| LoginOk (access_token : string) (user : Key) (user_role : string)
| InvalidCredentials.

(** The route [/login].  It has no handler of its own: [Raised] is the
    exception Flask turns into a 500 answer. *)
Definition login `{Crypto} (m : Method) (b : Body) (st : State)
    : Dispatch.Exc LoginResponse :=
  match m with
  | GET => Dispatch.Ok LoginPage
  | POST =>
      match lookup (username b) (users_db st) with
      | Some u =>
          match password_field b with
          | PasswordText p =>
              if checkpw p (password u)
              then Dispatch.Ok (LoginOk (create_access_token (username b))
                                        (username b) (role u))
              else Dispatch.Ok InvalidCredentials
          | PasswordMissing | PasswordRefused => Dispatch.Raised
          end
      | None => Dispatch.Ok InvalidCredentials
      end
  end.

Inductive SignupResponse :=
| SignupPage
| UserCreated
| UsernameExists.

(** The route [/signup]; [mongo] says whether [users_collection] is not
    [None]. *)
Definition signup `{Crypto} (mongo : bool) (inp : Inputs) (m : Method) (b : Body)
    (st : State) : Dispatch.Exc SignupResponse * State :=
  match m with
  | GET => (Dispatch.Ok SignupPage, st)
  | POST =>
      if mem (username b) (users_db st) then (Dispatch.Ok UsernameExists, st)
      else
        match password_field b with
        | PasswordMissing | PasswordRefused => (Dispatch.Raised, st)
        | PasswordText p =>
            let hashed := hashpw p (salt inp) in
            let st1 :=
              mkState (store (username b)
                             (mkUser hashed (email_field b) "user" (stamp inp))
                             (users_db st))
                      (users_documents st) in
            if mongo then
              if insert_one_raises inp then (Dispatch.Raised, st1)
              else (Dispatch.Ok UserCreated,
                    mkState (users_db st1)
                            (users_documents st1
                             ++ [(username b,
                                  mkUser hashed (email_field b) "user" (stamp2 inp))]))
            else (Dispatch.Ok UserCreated, st1)
        end
  end.

(** Sign-up requests served one after the other. *)
Fixpoint signups `{Crypto} (mongo : bool) (reqs : list (Inputs * Body)) (st : State)
    : State :=
  match reqs with
  | [] => st
  | (inp, b) :: rest => signups mongo rest (snd (signup mongo inp POST b st))
  end.

(** *** A toy hash for examples: the password followed by the salt. *)
Definition toy_crypto : Crypto :=
  {| hashpw := fun p s => (p ++ s)%string;
     checkpw := fun p h => String.prefix p h;
     create_access_token := fun k =>
       match k with Some u => ("token:" ++ u)%string | None => "token:"%string end |}.

Definition some_inputs : Inputs := mkInputs "s1" "s2" "2024-01-01T00:00:00" "2024-01-01T00:00:01" false.

Definition empty_state : State := mkState [] [].

Definition alice : Body :=
  mkBody (Some "alice"%string) (PasswordText "wonderland") None.


End Users.

(** ** /update_location *)

Module Location.

Import Dispatch.

(** [data.get('lat', default)] before [float] is applied: the key is
    missing; it holds null; it holds something on which [float] raises
    (text that is no number, a list, an int too large for a float); or
    it holds something [float] converts, and [CoordNumber q] carries the
    value [q] that [float] returns.  Conversions that end in an infinity
    or NaN are left out. *)
Inductive CoordField :=
| CoordMissing
| CoordNull
| CoordNotFloat
| CoordNumber (q : Q).

(** [float(data.get(key, default))]; [None] when [float] raises. *)
Definition float_or_default (f : CoordField) (default : Q) : option Q :=
  match f with
  | CoordMissing => Some default
  | CoordNumber q => Some q
  | CoordNull | CoordNotFloat => None
  end.

(** [float] raises on the value of the key. *)
Definition rejected (f : CoordField) : Prop := f = CoordNull \/ f = CoordNotFloat.

(** What [request.get_json()] hands to the route: a JSON object with its
    two keys, or not an object ([None], a list, a string, a number), on
    which [data.get] raises. *)
Inductive Body :=
| NotAnObject
| Object (lat_field lng_field : CoordField).

(** The route [/update_location]: the new dict is built, then bound to
    the global, then returned.  The route has no handler: [Raised] is
    the exception Flask turns into a 500 answer. *)
Definition update_location {Frame} (body : Body) (app : Route.App Frame)
    : Exc Coordinates * Route.App Frame :=
  match body with
  | NotAnObject => (Raised, app)
  | Object lat_field lng_field =>
      match float_or_default lat_field 28.6139, float_or_default lng_field 77.2090 with
      | Some a, Some b =>
          let loc := mkCoordinates a b in
          (Ok loc,
           Route.mkApp (Route.detector app) (Route.last_alert_time app)
                       (Route.store app) loc)
      | _, _ => (Raised, app)
      end
  end.

End Location.

(** ** seed_sample_data *)

Module Seed.

Import Dispatch.

(** Which calls of the seeding raise: the Firestore [stream()], the
    [add] of the sample of a given index, the MongoDB [count_documents],
    and [insert_many], which may have written some documents before it
    raises ([None]: it returns).  A record stands for its six keys: a key
    a driver adds to a dict it is handed is left out. *)
Record World := mkWorld {
  stream_raises : bool;
  add_raises : nat -> bool;
  count_raises : bool;
  insert_many_stops_after : option nat
}.

(** The list [sample_accidents], for the two stamps read. *)
Definition sample_accidents (stamp1 stamp2 : string) : list AccidentRecord :=
  [ mkAccidentRecord stamp1 "Connaught Place, New Delhi, India"
                     (mkCoordinates 28.6315 77.2167) 0.82 2 "alert_sent";
    mkAccidentRecord stamp2 "MG Road, Gurugram, India"
                     (mkCoordinates 28.4793 77.0737) 0.67 1 "alert_sent" ].

(** [acc_ref.add(rec)] for the sample of index [i]. *)
Definition firestore_add_sample (w : World) (i : nat) (r : AccidentRecord) : M unit :=
  fun s =>
    if add_raises w i then (Raised, s)
    else (Ok tt, mkStore (accidents_db s) (mongo_accidents s)
                         (firestore_accidents s ++ [r]) (log s)).

(** [for rec in sample_accidents: acc_ref.add(rec)], from index [i]. *)
Fixpoint add_samples (w : World) (i : nat) (rs : list AccidentRecord) : M unit :=
  match rs with
  | [] => ret tt
  | r :: rest => firestore_add_sample w i r ;; add_samples w (S i) rest
  end.

(** The Firestore block; the answer says whether the function returned
    from inside it. *)
Definition seed_firestore (w : World) (samples : list AccidentRecord) : M bool :=
  try_except
    (fun s =>
       if stream_raises w then (Raised, s)
       else
         ((match firestore_accidents s with
           | [] => add_samples w 0 samples
           | _ :: _ => ret tt
           end) ;; ret true) s)
    (ret false).

(** [accidents_collection.insert_many(sample_accidents)]. *)
Definition insert_many (w : World) (samples : list AccidentRecord) : M unit :=
  fun s =>
    match insert_many_stops_after w with
    | None => (Ok tt, mkStore (accidents_db s) (mongo_accidents s ++ samples)
                              (firestore_accidents s) (log s))
    | Some k => (Raised, mkStore (accidents_db s)
                                 (mongo_accidents s ++ firstn k samples)
                                 (firestore_accidents s) (log s))
    end.

(** The MongoDB block. *)
Definition seed_mongo (w : World) (samples : list AccidentRecord) : M bool :=
  try_except
    (fun s =>
       if count_raises w then (Raised, s)
       else
         ((match mongo_accidents s with
           | [] => insert_many w samples
           | _ :: _ => ret tt
           end) ;; ret true) s)
    (ret false).

(** [if not accidents_db: accidents_db.extend(sample_accidents)]. *)
Definition seed_memory (samples : list AccidentRecord) : M unit :=
  fun s =>
    match accidents_db s with
    | [] => (Ok tt, mkStore samples (mongo_accidents s) (firestore_accidents s) (log s))
    | _ :: _ => (Ok tt, s)
    end.

(** [seed_sample_data]. *)
Definition seed_sample_data (cfg : Config) (w : World) (stamp1 stamp2 : string) : M unit :=
  let samples := sample_accidents stamp1 stamp2 in
  try_except
    (done <- (if db_firestore cfg then seed_firestore w samples else ret false) ;;
     if done then ret tt
     else
       done' <- (if accidents_collection cfg then seed_mongo w samples else ret false) ;;
       if done' then ret tt else seed_memory samples)
    (ret tt).

(** No call of the seeding raises. *)
Definition quiet (w : World) : Prop :=
  stream_raises w = false /\ (forall i, add_raises w i = false)
  /\ count_raises w = false /\ insert_many_stops_after w = None.

(** A store after it has been seeded: the samples if it was empty. *)
Definition fill (l samples : list AccidentRecord) : list AccidentRecord :=
  match l with [] => samples | _ :: _ => l end.

Definition calm : World := mkWorld false (fun _ => false) false None.

(** The second [add] raises. *)
Definition second_add_fails : World :=
  mkWorld false (fun i => Nat.eqb i 1) false None.

(** Only Firestore is there. *)
Definition firestore_only : Config :=
  mkConfig false false true "" 0 "" "" [].

(** Nothing is configured. *)
Definition bare : Config := mkConfig false false false "" 0 "" "" [].

End Seed.

(** ** ALERT_EMAILS *)

Module MailConfig.

(** A Python [str] as the sequence of its code points. *)
Definition Text : Type := list N.

(** [c.isspace()], which is also what [str.strip()] removes: the code
    points 9 to 13, 28 to 32, 133, 160, 5760, 8192 to 8202, 8232, 8233,
    8239, 8287 and 12288. *)
Definition is_space (c : N) : bool :=
  ((9 <=? c) && (c <=? 13) || (28 <=? c) && (c <=? 32)
   || (c =? 133) || (c =? 160) || (c =? 5760)
   || (8192 <=? c) && (c <=? 8202)
   || (c =? 8232) || (c =? 8233) || (c =? 8239) || (c =? 8287) || (c =? 12288))%N.

Definition is_comma (c : N) : bool := (c =? 44)%N.

(** [s.split(',')]. *)
Fixpoint split_comma (s : Text) : list Text :=
  match s with
  | [] => [[]]
  | c :: rest =>
      if is_comma c then [] :: split_comma rest
      else
        match split_comma rest with
        | [] => [[c]]
        | h :: t => (c :: h) :: t
        end
  end.

(** [s.lstrip()]. *)
Fixpoint lstrip (s : Text) : Text :=
  match s with
  | [] => []
  | c :: rest => if is_space c then lstrip rest else s
  end.

(** [s.rstrip()]. *)
Fixpoint rstrip (s : Text) : Text :=
  match s with
  | [] => []
  | c :: rest =>
      match rstrip rest with
      | [] => if is_space c then [] else [c]
      | d :: rest' => c :: d :: rest'
      end
  end.

(** [s.strip()]. *)
Definition strip (s : Text) : Text := rstrip (lstrip s).

Definition nonempty (s : Text) : bool :=
  match s with [] => false | _ :: _ => true end.

(** [[e.strip() for e in value.split(',') if e.strip()]], for the value
    [os.getenv('ALERT_EMAILS', '')] returns. *)
Definition ALERT_EMAILS (value : Text) : list Text :=
  map strip (filter (fun e => nonempty (strip e)) (split_comma value)).

(** [', '.join(l)], the [To] header of the message. *)
Fixpoint join (l : list Text) : Text :=
  match l with
  | [] => []
  | [x] => x
  | x :: rest => x ++ [44; 32]%N ++ join rest
  end.

Definition has_comma (s : Text) : bool := existsb is_comma s.

(** Every character is whitespace. *)
Definition all_space (s : Text) : bool := forallb is_space s.

(** Every character is whitespace or a comma. *)
Definition blank (s : Text) : bool := forallb (fun c => is_space c || is_comma c) s.

(** An address as the parsing leaves it: not empty, nothing to strip, no
    comma. *)
Definition clean (e : Text) : Prop :=
  e <> [] /\ strip e = e /\ has_comma e = false.

(** The bytes of one code point in UTF-8, and a [str] as a byte string. *)
Definition utf8 (c : N) : list N :=
  (if c <? 128 then [c]
   else if c <? 2048 then [192 + c / 64; 128 + c mod 64]
   else if c <? 65536 then [224 + c / 4096; 128 + (c / 64) mod 64; 128 + c mod 64]
   else [240 + c / 262144; 128 + (c / 4096) mod 64; 128 + (c / 64) mod 64;
         128 + c mod 64])%N.

Definition encode (t : Text) : string :=
  string_of_list_ascii (map ascii_of_N (flat_map utf8 t)).

(** The code points of a text written in ASCII. *)
Definition text (s : string) : Text := map N_of_ascii (list_ascii_of_string s).

(** The sinks configuration read from the environment: the three handles
    and the SMTP settings as given, the recipients parsed. *)
Definition config_of_env (accidents twilio firestore : bool)
    (host : string) (port : Z) (user password : string) (emails : Text)
    : Dispatch.Config :=
  Dispatch.mkConfig accidents twilio firestore host port user password
                    (map encode (ALERT_EMAILS emails)).

End MailConfig.

(** ** Requests served one after the other *)

Module Session.

(** [/detect] requests in sequence: the answers and the final globals. *)
Fixpoint detects {Frame} `{Detector.Vision Frame} (cfg : Route.Config)
    (reqs : list (Route.Inputs * Route.Request Frame)) (app : Route.App Frame)
    : list Route.Response * Route.App Frame :=
  match reqs with
  | [] => ([], app)
  | (inp, req) :: rest =>
      let '(resp, app') := Route.detect_accident cfg inp req app in
      let '(resps, app'') := detects cfg rest app' in
      (resp :: resps, app'')
  end.

(** What [request.get_json()] hands to [/detect]: a JSON object, or not
    one ([get_json()] raises, or returns [None], a list, a string or a
    number, on which [data.get] raises). *)
Inductive Body (Frame : Type) :=
| NotAnObject
| Object (req : Route.Request Frame).
Arguments NotAnObject {Frame}.
Arguments Object {Frame} req.

(** The route [/detect] from the body on.  [data.get('image')] is the
    first statement that uses the body; it stands inside the [try] of
    the route, before the threshold is read. *)
Definition detect_route {Frame} `{Detector.Vision Frame} (cfg : Route.Config)
    (inp : Route.Inputs) (body : Body Frame) (app : Route.App Frame)
    : Route.Response * Route.App Frame :=
  match body with
  | NotAnObject => (Route.ExceptionError, app)
  | Object req => Route.detect_accident cfg inp req app
  end.

(** The request was answered with [alert_sent = True]. *)
Definition alerted (resp : Route.Response) : bool :=
  match resp with
  | Route.Json r =>
      match Route.alert_sent r with Some true => true | _ => false end
  | _ => false
  end.

(** How many answers carry [alert_sent = True]. *)
Definition alerts (resps : list Route.Response) : nat :=
  List.length (filter alerted resps).

(** The running threshold is within the bounds of the clamp. *)
Definition in_range {Frame} (app : Route.App Frame) : Prop :=
  0.1 <= Detector.accident_threshold (Route.detector app)
  /\ Detector.accident_threshold (Route.detector app) <= 1.0.

End Session.

(** ** More on the detector *)

Module DetectorCases.

Import Detector.

(** The detections of an entry that pass the vehicle filter. *)
Definition survivors (r : Result) : list Box :=
  filter is_vehicle (all_boxes [r]).

(** The frame makes the first entry of the detector output raise: a
    vehicle is found and the motion against the previous frame cannot be
    computed. *)
Definition raises_on {Frame} `{Vision Frame} (prev frame : Frame) : Prop :=
  (exists r rest, yolo frame = Some (r :: rest) /\ survivors r <> [])
  /\ motion_score frame prev = None.

(** What the overlay expects of a box. *)
Definition overlay_ok (i : BoxInfo) : Prop :=
  In (class_id i) [2; 3; 5; 7]%Z /\ 0.3 < confidence i.

(** A camera whose frames have a size and a grey level; frames of
    different sizes cannot be compared.  The detector reports one car. *)
Definition sized_vision : Vision (nat * Q) :=
  {| motion_score := fun f p =>
       if Nat.eqb (fst f) (fst p) then Some (Qabs (snd f - snd p) / 255) else None;
     yolo := fun _ => Some [one_car] |}.

(** A camera that sees no vehicle: one person, one car too faint. *)
Definition empty_road : Vision Q :=
  {| motion_score := grey_motion;
     yolo := fun _ => Some [mkResult (Some [mkBox 0 0.9 None; mkBox 2 0.2 None])] |}.

(** A detector that answers with no entry at all. *)
Definition no_results : Vision Q :=
  {| motion_score := grey_motion; yolo := fun _ => Some [] |}.

End DetectorCases.

(* ================================================================== *)
(** * Part II: properties                                               *)
(* ================================================================== *)

(** ** Comparisons *)

Lemma Qltb_lt (x y : Q) : Qltb x y = true <-> x < y.
Proof.
  unfold Qltb. rewrite negb_true_iff.
  split; intro H.
  - apply Qnot_le_lt. intro Hle. apply Qle_bool_iff in Hle. congruence.
  - destruct (Qle_bool y x) eqn:E; [|reflexivity].
    apply Qle_bool_iff in E. exfalso. apply (Qlt_not_le _ _ H E).
Qed.

Lemma Qltb_ge (x y : Q) : Qltb x y = false <-> y <= x.
Proof.
  unfold Qltb. rewrite negb_false_iff. apply Qle_bool_iff.
Qed.

Lemma Qgeb_ge (x y : Q) : Qgeb x y = true <-> y <= x.
Proof. unfold Qgeb. apply Qle_bool_iff. Qed.

Lemma Qgeb_lt (x y : Q) : Qgeb x y = false <-> x < y.
Proof.
  unfold Qgeb. split; intro H.
  - apply Qnot_le_lt. intro Hle. apply Qle_bool_iff in Hle. congruence.
  - destruct (Qle_bool y x) eqn:E; [|reflexivity].
    apply Qle_bool_iff in E. exfalso. apply (Qlt_not_le _ _ H E).
Qed.

(** ** The detector *)

Module DetectorFacts.
Import Detector.

Section WithVision.
Context {Frame : Type} {V : Vision Frame}.

(** Without a previous frame no box adds to the score. *)
Lemma boxes_loop_first_frame (self : State Frame) (frame : Frame) bs :
  previous_frame self = None ->
  forall acc, exists acc',
    boxes_loop self frame acc bs = Some acc'
    /\ acc_score acc' = acc_score acc.
Proof.
  intros Hp. induction bs as [|b bs IH]; intros acc; simpl.
  - eauto.
  - unfold box_step. rewrite Hp.
    destruct (is_vehicle b); [|apply IH].
    match goal with
    | |- context [boxes_loop _ _ ?a bs] => destruct (IH a) as (acc' & E & Hs)
    end.
    exists acc'. split; [exact E | exact Hs].
Qed.

(** The inner loop completes when the motion computation does. *)
Lemma boxes_loop_completes (self : State Frame) (frame : Frame) bs :
  motion_ok self frame ->
  forall acc, exists acc', boxes_loop self frame acc bs = Some acc'.
Proof.
  unfold motion_ok. intros Hm.
  induction bs as [|b bs IH]; intros acc; simpl.
  - eauto.
  - unfold box_step.
    destruct (is_vehicle b); [|apply IH].
    destruct (previous_frame self) as [prev|]; [|apply IH].
    destruct (motion_score frame prev) as [m|]; [|congruence].
    destruct (Qltb 0.15 m); apply IH.
Qed.

(** With motion above 0.15 the inner loop adds [confidence * motion]
    for every box that passes the vehicle filter. *)
Lemma boxes_loop_accumulates (self : State Frame) (frame prev : Frame) m bs :
  previous_frame self = Some prev ->
  motion_score frame prev = Some m ->
  Qltb 0.15 m = true ->
  forall acc, exists acc',
    boxes_loop self frame acc bs = Some acc'
    /\ acc_score acc'
       = fold_left (fun s b => s + box_conf b * m) (filter is_vehicle bs)
                   (acc_score acc)
    /\ acc_vehicles acc'
       = (acc_vehicles acc + Z.of_nat (List.length (filter is_vehicle bs)))%Z.
Proof.
  intros Hp Hm Hgt. induction bs as [|b bs IH]; intros acc.
  - simpl. exists acc. repeat split. lia.
  - cbn [boxes_loop filter]. unfold box_step. rewrite Hp, Hm, Hgt.
    destruct (is_vehicle b).
    + match goal with |- context [boxes_loop _ _ ?a bs] => destruct (IH a) as (acc' & E & Hs & Hv) end.
      exists acc'. rewrite E. cbn [fold_left List.length acc_score acc_vehicles] in *.
      repeat split; [exact Hs | lia].
    + apply IH.
Qed.

Lemma after_boxes_completes self frame acc r :
  motion_ok self frame -> exists acc', after_boxes self frame acc r = Some acc'.
Proof.
  intros Hm. unfold after_boxes. destruct (boxes r).
  - apply boxes_loop_completes; assumption.
  - eauto.
Qed.

(** One call on a detector output of one entry. *)
Lemma model_single_result self frame r acc' :
  yolo frame = Some [r] ->
  after_boxes self frame acc0 r = Some acc' ->
  detect_accident_model self frame
  = let self1 := set_previous_frame self frame in
    let raw := raw_condition (accident_threshold self) (acc_score acc') (acc_vehicles acc') in
    (mkOutcome (raw && negb (accident_detected self))
               (acc_score acc') (acc_vehicles acc') (acc_boxes acc'),
     set_accident_detected self1 raw).
Proof.
  intros Hy Ha. unfold detect_accident_model. rewrite Hy.
  cbn [results_loop]. rewrite Ha.
  cbn [set_previous_frame accident_threshold accident_detected].
  destruct (raw_condition _ _ _) eqn:Eraw; cbn [andb].
  - destruct (accident_detected self) eqn:Ef; cbn [negb].
    + unfold set_accident_detected, set_previous_frame; cbn. rewrite Ef. reflexivity.
    + reflexivity.
  - reflexivity.
Qed.

(** The edge trigger of one ordinary call. *)
Lemma edge_step self frame :
  ordinary_call self frame ->
  let out := fst (detect_accident_model self frame) in
  let self' := snd (detect_accident_model self frame) in
  let raw := raw_condition (accident_threshold self)
                           (accident_score out) (vehicles_detected out) in
  is_accident out = raw && negb (accident_detected self)
  /\ accident_detected self' = raw
  /\ accident_threshold self' = accident_threshold self
  /\ previous_frame self' = Some frame.
Proof.
  intros [[r Hy] Hm].
  destruct (after_boxes_completes self frame acc0 r Hm) as [acc' Ha].
  rewrite (model_single_result self frame r acc' Hy Ha).
  cbn. repeat split.
Qed.

(** The first frame of a stream: there is no previous frame, so the score
    stays 0 whatever the detections, and the call does not fire. *)
Lemma first_frame_never_fires self frame :
  ordinary_call self frame ->
  previous_frame self = None ->
  0 <= accident_threshold self ->
  accident_score (fst (detect_accident_model self frame)) = 0
  /\ is_accident (fst (detect_accident_model self frame)) = false.
Proof.
  intros [[r Hy] Hm] Hp Hth.
  assert (Hacc : exists acc',
             after_boxes self frame acc0 r = Some acc' /\ acc_score acc' = 0).
  { unfold after_boxes. destruct (boxes r) as [bs|].
    - apply (boxes_loop_first_frame self frame bs Hp acc0).
    - exists acc0. split; reflexivity. }
  destruct Hacc as (acc' & E & Hs).
  rewrite (model_single_result self frame r acc' Hy E).
  cbn [fst accident_score is_accident]. rewrite Hs.
  split; [reflexivity|].
  unfold raw_condition.
  assert (Hlt : Qltb (accident_threshold self) 0 = false)
    by (apply Qltb_ge; exact Hth).
  rewrite Hlt. reflexivity.
Qed.

(** A detection that passes the filter adds its own term, whatever
    came before it. *)
Lemma accumulated_score_snoc m bs b :
  is_vehicle b = true ->
  accumulated_score m (bs ++ [b]) = accumulated_score m bs + box_conf b * m.
Proof.
  intros Hb. unfold accumulated_score.
  rewrite filter_app, fold_left_app. cbn [filter]. rewrite Hb. reflexivity.
Qed.

Lemma accumulated_score_skip m bs b :
  is_vehicle b = false ->
  accumulated_score m (bs ++ [b]) = accumulated_score m bs.
Proof.
  intros Hb. unfold accumulated_score.
  rewrite filter_app. cbn [filter]. rewrite Hb, app_nil_r. reflexivity.
Qed.

(** C2. With a previous frame and a motion score above 0.15, the
    score returned for a frame is [confidence * motion] summed over
    every detection of the frame that passes the vehicle filter
    (vehicle class and confidence above 0.3): the decision and the
    return come after the loop over the boxes, so no detection is
    left out of the score that feeds the returned decision, and each
    surviving detection adds its own term.  The frame is one image,
    for which the detector answers with one [Results] entry. *)
Theorem score_fully_accumulated
    (self : State Frame) (frame prev : Frame) (m : Q) (r : Result) :
  yolo frame = Some [r] ->
  previous_frame self = Some prev ->
  motion_score frame prev = Some m ->
  0.15 < m ->
  let out := fst (detect_accident_model self frame) in
  let survivors := filter is_vehicle (all_boxes [r]) in
  accident_score out = accumulated_score m (all_boxes [r])
  /\ accident_score out = fold_left (fun s b => s + box_conf b * m) survivors 0
  /\ vehicles_detected out = Z.of_nat (List.length survivors)
  /\ is_accident out
     = raw_condition (accident_threshold self)
                     (accumulated_score m (all_boxes [r]))
                     (Z.of_nat (List.length survivors))
       && negb (accident_detected self)
  /\ (forall bs b,
        is_vehicle b = true ->
        accumulated_score m (bs ++ [b]) = accumulated_score m bs + box_conf b * m).
Proof.
  intros Hy Hp Hm Hgt. cbv zeta.
  apply Qltb_lt in Hgt.
  assert (Hacc : exists acc',
             after_boxes self frame acc0 r = Some acc'
             /\ acc_score acc' = accumulated_score m (all_boxes [r])
             /\ acc_vehicles acc'
                = Z.of_nat (List.length (filter is_vehicle (all_boxes [r])))).
  { unfold after_boxes, all_boxes. cbn [flat_map]. rewrite app_nil_r.
    destruct (boxes r) as [bs|].
    - destruct (boxes_loop_accumulates self frame prev m bs Hp Hm Hgt acc0)
        as (acc' & E & Hs & Hv).
      exists acc'. repeat split; assumption.
    - exists acc0. repeat split. }
  destruct Hacc as (acc' & E & Hs & Hv).
  rewrite (model_single_result self frame r acc' Hy E).
  cbn [fst accident_score vehicles_detected is_accident].
  rewrite Hs, Hv.
  repeat split. exact (accumulated_score_snoc m).
Qed.

Lemma run_cons self f fs :
  fst (run self (f :: fs))
  = mkCall (raw_condition (accident_threshold self)
              (accident_score (fst (detect_accident_model self f)))
              (vehicles_detected (fst (detect_accident_model self f))))
           (is_accident (fst (detect_accident_model self f)))
           (accident_detected (snd (detect_accident_model self f)))
    :: fst (run (snd (detect_accident_model self f)) fs).
Proof.
  cbn [run]. destruct (detect_accident_model self f) as [out self'].
  cbn [fst snd]. destruct (run self' fs) as [cs self'']. reflexivity.
Qed.

(** C1. On the model-backed path the returned [is_accident] is
    edge-triggered.  For a call on which the detector answers with its
    single [Results] entry and nothing raises: when [raw_condition]
    (score above the running threshold and at least one vehicle) holds
    and the flag was clear, the flag is set and the call returns true;
    when [raw_condition] fails, the flag is cleared (and the call
    returns false); when [raw_condition] holds and the flag was already
    set, the call returns false.  Hence of two consecutive frames that
    both satisfy [raw_condition], starting with the flag clear, the
    first returns true and the second false. *)
Theorem detect_accident_edge_triggered (self : State Frame) (f1 f2 : Frame) :
  ordinary_call self f1 ->
  let out1 := fst (detect_accident_model self f1) in
  let self1 := snd (detect_accident_model self f1) in
  let raw1 := raw_condition (accident_threshold self)
                            (accident_score out1) (vehicles_detected out1) in
  (raw1 = true -> accident_detected self = false ->
     accident_detected self1 = true /\ is_accident out1 = true)
  /\ (raw1 = false ->
     accident_detected self1 = false /\ is_accident out1 = false)
  /\ (raw1 = true -> accident_detected self = true ->
     is_accident out1 = false)
  /\ (ordinary_call self1 f2 ->
      let out2 := fst (detect_accident_model self1 f2) in
      let raw2 := raw_condition (accident_threshold self1)
                                (accident_score out2) (vehicles_detected out2) in
      accident_detected self = false -> raw1 = true -> raw2 = true ->
      is_accident out1 = true /\ is_accident out2 = false).
Proof.
  intros H1. cbv zeta.
  destruct (edge_step self f1 H1) as (Hacc & Hflag & _ & _).
  cbv zeta in Hacc, Hflag.
  split; [|split; [|split]].
  - intros Hr Hf. split.
    + rewrite Hflag. exact Hr.
    + rewrite Hacc, Hr, Hf. reflexivity.
  - intros Hr. split.
    + rewrite Hflag. exact Hr.
    + rewrite Hacc, Hr. reflexivity.
  - intros Hr Hf. rewrite Hacc, Hr, Hf. reflexivity.
  - intros H2 Hf Hr1 Hr2. split.
    + rewrite Hacc, Hr1, Hf. reflexivity.
    + destruct (edge_step _ f2 H2) as (Hacc2 & _).
      cbv zeta in Hacc2. rewrite Hacc2, Hr2, Hflag, Hr1. reflexivity.
Qed.

(** One call on a detector output of one entry, whether or not the
    motion computation raises. *)
Lemma single_entry_step self frame r :
  yolo frame = Some [r] ->
  match evaluated self frame with
  | Some raw =>
      accident_detected (snd (detect_accident_model self frame)) = raw
      /\ is_accident (fst (detect_accident_model self frame))
         = raw && negb (accident_detected self)
  | None =>
      detect_accident_model self frame = (error_outcome, self)
  end.
Proof.
  intros Hy. unfold evaluated. rewrite Hy.
  destruct (after_boxes self frame acc0 r) as [acc'|] eqn:Ea.
  - rewrite (model_single_result self frame r acc' Hy Ea). cbn. split; reflexivity.
  - unfold detect_accident_model. rewrite Hy. cbn [results_loop]. rewrite Ea. reflexivity.
Qed.

(** A call on which the detector raises, or answers with no entry. *)
Lemma detector_raises_step self frame :
  yolo frame = None \/ yolo frame = Some [] ->
  evaluated self frame = None
  /\ is_accident (fst (detect_accident_model self frame)) = false
  /\ snd (detect_accident_model self frame) = self.
Proof.
  intros [Hy | Hy]; unfold evaluated, detect_accident_model; rewrite Hy;
    repeat split; reflexivity.
Qed.

(** C5, as amended.  Over any sequence of frames, with a detector that
    answers each image with one [Results] entry (or none) or raises:
    after a call
    that evaluates [raw_condition] the flag equals it (so it stays set
    for as long as the condition holds), and the returned [is_accident]
    marks the rising edge: it is true exactly when [raw_condition] was
    evaluated true and the flag was clear after the call before (for
    the first call: at the start).  A call that evaluates none (it ends
    in the handler before the decision, or the output has no entry)
    leaves the flag as it was and returns false. *)
Theorem flag_tracks_raw_condition (frames : list Frame) :
  at_most_one_entry ->
  forall (self : State Frame) n c,
    nth_error (steps self frames) n = Some c ->
    step_flag_before c
    = flag_after_previous (accident_detected self) (steps self frames) n
    /\ match step_raw c with
       | Some raw =>
           step_flag_after c = raw
           /\ step_is_accident c = raw && negb (step_flag_before c)
       | None =>
           step_flag_after c = step_flag_before c
           /\ step_is_accident c = false
       end.
Proof.
  intros Hone. induction frames as [|f fs IH]; intros self n c Hn.
  - destruct n; discriminate.
  - cbn [steps] in *. destruct n as [|n].
    + cbn in Hn. inversion Hn; subst c; clear Hn.
      cbn [step_flag_before step_raw step_flag_after step_is_accident
           flag_after_previous].
      split; [reflexivity|].
      destruct (yolo f) as [results|] eqn:Hy.
      * destruct (Hone f results Hy) as [-> | [r ->]].
        -- destruct (detector_raises_step self f (or_intror Hy)) as (He & Ha & Hs).
           rewrite He, Ha, Hs. split; reflexivity.
        -- pose proof (single_entry_step self f r Hy) as Hstep.
           destruct (evaluated self f) as [raw|]; [exact Hstep|].
           rewrite Hstep. split; reflexivity.
      * destruct (detector_raises_step self f (or_introl Hy)) as (He & Ha & Hs).
        rewrite He, Ha, Hs. split; reflexivity.
    + cbn [nth_error] in Hn.
      destruct (IH _ n c Hn) as [Hb Hrest].
      split; [|exact Hrest].
      rewrite Hb. destruct n as [|k]; reflexivity.
Qed.

End WithVision.

(** The grey camera: a dark frame, a bright one, a dark one. *)
Example grey_run :
  fst (@run Q grey_vision init [0; 255; 0])
  = [mkCall false false false; mkCall true true true; mkCall true false true].
Proof. vm_compute. reflexivity. Qed.

Lemma grey_ordinary_call (self : State Q) (f : Q) :
  @ordinary_call Q grey_vision self f.
Proof.
  split.
  - exists one_car. reflexivity.
  - unfold motion_ok. destruct (previous_frame self); [discriminate | exact I].
Qed.

(** A bright frame after a dark one, then a dark one again: the first
    call fires, the second does not. *)
Lemma detect_accident_edge_triggered_witness :
  is_accident (fst (@detect_accident_model Q grey_vision (mkState 0.5 (Some 0) false) 255)) = true
  /\ is_accident
       (fst (@detect_accident_model Q grey_vision
               (snd (@detect_accident_model Q grey_vision (mkState 0.5 (Some 0) false) 255)) 0))
     = false.
Proof.
  destruct (@detect_accident_edge_triggered Q grey_vision
              (mkState 0.5 (Some 0) false) 255 0
              (grey_ordinary_call _ _)) as (_ & _ & _ & H).
  apply H.
  - apply grey_ordinary_call.
  - reflexivity.
  - vm_compute. reflexivity.
  - vm_compute. reflexivity.
Defined.

Lemma grey_at_most_one : @at_most_one_entry Q grey_vision.
Proof. intros f results H. inversion H. right. exists one_car. reflexivity. Qed.

Lemma resizing_at_most_one : @at_most_one_entry (nat * Q) resizing_vision.
Proof. intros f results H. inversion H. right. exists one_car. reflexivity. Qed.

(** Frames of widths 1, 2, 1 going dark, bright, dark, bright: the
    second call fires; the third cannot compare the frames, ends in the
    handler and leaves the flag set; the fourth, still compared with
    the second frame, evaluates the condition and clears the flag. *)
Example resizing_steps :
  @steps (nat * Q) resizing_vision init [(1%nat, 0); (1%nat, 255); (2%nat, 0); (1%nat, 255)]
  = [mkStep (Some false) false false false; mkStep (Some true) true false true;
     mkStep None false true true; mkStep (Some false) false true false].
Proof. vm_compute. reflexivity. Qed.

(** The third call of the grey run (the condition still holds, the flag
    is still set, the call does not fire again), and the third call of
    the run above. *)
Lemma flag_tracks_raw_condition_witness :
  nth_error (@steps Q grey_vision init [0; 255; 0]) 2
  = Some (mkStep (Some true) false true true)
  /\ nth_error (@steps (nat * Q) resizing_vision init
                  [(1%nat, 0); (1%nat, 255); (2%nat, 0); (1%nat, 255)]) 2
     = Some (mkStep None false true true)
  /\ step_flag_after (mkStep (Some true) false true true) = true
  /\ step_flag_after (mkStep None false true true)
     = step_flag_before (mkStep None false true true).
Proof.
  assert (E1 : nth_error (@steps Q grey_vision init [0; 255; 0]) 2
               = Some (mkStep (Some true) false true true))
    by (vm_compute; reflexivity).
  assert (E2 : nth_error (@steps (nat * Q) resizing_vision init
                            [(1%nat, 0); (1%nat, 255); (2%nat, 0); (1%nat, 255)]) 2
               = Some (mkStep None false true true))
    by (vm_compute; reflexivity).
  split; [exact E1|]. split; [exact E2|].
  split.
  - exact (proj1 (proj2 (@flag_tracks_raw_condition Q grey_vision [0; 255; 0]
                           grey_at_most_one init 2%nat _ E1))).
  - exact (proj1 (proj2 (@flag_tracks_raw_condition (nat * Q) resizing_vision
                           [(1%nat, 0); (1%nat, 255); (2%nat, 0); (1%nat, 255)]
                           resizing_at_most_one init 2%nat _ E2))).
Defined.

(** C5, as stated, fails: after the third call of the grey run the flag
    is set although [raw_condition] already held at the second call. *)
Lemma flag_is_not_rising_edge :
  ~ @flag_is_rising_edge Q grey_vision init [0; 255; 0].
Proof.
  unfold flag_is_rising_edge. intros H.
  specialize (H 2%nat (mkCall true false true)).
  rewrite grey_run in H.
  destruct (H eq_refl) as [H1 _].
  destruct (H1 eq_refl) as [_ H2].
  cbn in H2. discriminate.
Qed.

(** The camera sees the frame go from black to white: two cars, both
    counted, both in the score. *)
Lemma score_fully_accumulated_witness :
  accident_score
    (fst (@detect_accident_model Q two_cars_vision (mkState 0.5 (Some 0) false) 255))
  = accumulated_score (Qabs (255 - 0) / 255) [car 0.75; car 0.5]
  /\ accumulated_score (Qabs (255 - 0) / 255) [car 0.75; car 0.5] == 1.25.
Proof.
  destruct (@score_fully_accumulated Q two_cars_vision
              (mkState 0.5 (Some 0) false) 255 0 (Qabs (255 - 0) / 255)
              (mkResult (Some [car 0.75; car 0.5])))
    as (Hscore & _).
  - reflexivity.
  - reflexivity.
  - reflexivity.
  - vm_compute. reflexivity.
  - split; [exact Hscore|]. vm_compute. reflexivity.
Defined.

(** Were the detector to answer with several [Results] entries, the
    decision would be taken after the boxes of each entry in turn: here
    the call returns after the first entry, with one vehicle and a
    score of 0.75. *)
Remark decision_after_each_entry :
  let out :=
    fst (@detect_accident_model Q two_results_vision (mkState 0.5 (Some 0) false) 255) in
  is_accident out = true
  /\ accident_score out == 0.75
  /\ vehicles_detected out = 1%Z.
Proof.
  cbv zeta. repeat split; vm_compute; reflexivity.
Qed.

End DetectorFacts.

(** ** The cooldown gate *)

Module GateFacts.
Import Gate.

Lemma passes_iff cooldown last now :
  passes cooldown last now = true <-> inject_Z cooldown <= now - last.
Proof. unfold passes. apply Qgeb_ge. Qed.

Lemma fails_iff cooldown last now :
  passes cooldown last now = false <-> now - last < inject_Z cooldown.
Proof. unfold passes. apply Qgeb_lt. Qed.

Lemma check_true cooldown last now :
  fst (check cooldown last now) = true ->
  passes cooldown last now = true /\ snd (check cooldown last now) = now.
Proof.
  unfold check. destruct (passes cooldown last now); cbn; intros H.
  - split; reflexivity.
  - discriminate.
Qed.

Lemma check_false cooldown last now :
  fst (check cooldown last now) = false ->
  passes cooldown last now = false /\ snd (check cooldown last now) = last.
Proof.
  unfold check. destruct (passes cooldown last now); cbn; intros H.
  - discriminate.
  - split; reflexivity.
Qed.

Lemma checks_cons cooldown last now rest :
  fst (checks cooldown last (now :: rest))
  = fst (check cooldown last now)
    :: fst (checks cooldown (snd (check cooldown last now)) rest).
Proof.
  cbn [checks]. destruct (check cooldown last now) as [b last'].
  cbn [fst snd]. destruct (checks cooldown last' rest). reflexivity.
Qed.

Lemma checks_pair cooldown last now1 now2 :
  fst (checks cooldown last [now1; now2])
  = [fst (check cooldown last now1);
     fst (check cooldown (snd (check cooldown last now1)) now2)].
Proof.
  rewrite checks_cons. f_equal. rewrite checks_cons. reflexivity.
Qed.

(** The global never runs ahead of the clock readings still to come. *)
Lemma check_keeps_order cooldown last now rest :
  StronglySorted Qle (last :: now :: rest) ->
  StronglySorted Qle (snd (check cooldown last now) :: rest).
Proof.
  intros H. inversion H as [|? ? Hs Hf]; subst.
  unfold check. destruct (passes cooldown last now); cbn [snd].
  - exact Hs.
  - inversion Hs; subst. inversion Hf; subst.
    constructor; assumption.
Qed.

(** On a clock that does not go back, a check that passes is a full
    cooldown after the value the global had at any earlier point. *)
Lemma pass_is_late cooldown nows :
  forall last,
    StronglySorted Qle (last :: nows) ->
    forall j t,
      nth_error (fst (checks cooldown last nows)) j = Some true ->
      nth_error nows j = Some t ->
      inject_Z cooldown <= t - last.
Proof.
  induction nows as [|now rest IH]; intros last Hs j t Hb Ht.
  - destruct j; discriminate.
  - rewrite checks_cons in Hb.
    destruct j as [|j]; cbn [nth_error] in Hb, Ht.
    + inversion Ht; subst t. inversion Hb as [Hb'].
      apply check_true in Hb'. apply passes_iff. tauto.
    + specialize (IH _ (check_keeps_order cooldown _ _ _ Hs) j t Hb Ht).
      assert (Hle : last <= snd (check cooldown last now)).
      { unfold check. destruct (passes cooldown last now); cbn [snd].
        - inversion Hs as [|? ? _ Hf]; subst. inversion Hf; subst. assumption.
        - apply Qle_refl. }
      lra.
Qed.

(** Any two checks that pass are at least a cooldown apart. *)
Lemma passes_are_spaced cooldown nows :
  forall last,
    StronglySorted Qle (last :: nows) ->
    forall i j ti tj,
      (i < j)%nat ->
      nth_error (fst (checks cooldown last nows)) i = Some true ->
      nth_error (fst (checks cooldown last nows)) j = Some true ->
      nth_error nows i = Some ti ->
      nth_error nows j = Some tj ->
      inject_Z cooldown <= tj - ti.
Proof.
  induction nows as [|now rest IH]; intros last Hs i j ti tj Hij Hi Hj Hti Htj.
  - destruct i; discriminate.
  - rewrite checks_cons in Hi, Hj.
    destruct j as [|j]; [lia|].
    cbn [nth_error] in Hj, Htj.
    pose proof (check_keeps_order cooldown _ _ _ Hs) as Hs'.
    destruct i as [|i]; cbn [nth_error] in Hi, Hti.
    + inversion Hti; subst ti. inversion Hi as [Hi'].
      apply check_true in Hi'. destruct Hi' as [_ Hlast].
      rewrite Hlast in Hj, Hs'.
      exact (pass_is_late cooldown rest now Hs' j tj Hj Htj).
    + apply (IH _ Hs' i j ti tj); [lia | assumption..].
Qed.

(** With a cooldown that is not negative the same holds on any clock: a
    check that passes moves the global forward, so every later pass is a
    cooldown after it. *)
Lemma check_moves_forward cooldown last now :
  (0 <= cooldown)%Z -> last <= snd (check cooldown last now).
Proof.
  intros Hcd. unfold check.
  destruct (passes cooldown last now) eqn:E; cbn [snd].
  - apply passes_iff in E.
    assert (0 <= inject_Z cooldown) by (unfold Qle; cbn; lia).
    lra.
  - apply Qle_refl.
Qed.

Lemma pass_is_late_on_any_clock cooldown nows :
  (0 <= cooldown)%Z ->
  forall last j t,
    nth_error (fst (checks cooldown last nows)) j = Some true ->
    nth_error nows j = Some t ->
    inject_Z cooldown <= t - last.
Proof.
  intros Hcd. induction nows as [|now rest IH]; intros last j t Hb Ht.
  - destruct j; discriminate.
  - rewrite checks_cons in Hb.
    destruct j as [|j]; cbn [nth_error] in Hb, Ht.
    + inversion Ht; subst t. inversion Hb as [Hb'].
      apply check_true in Hb'. apply passes_iff. tauto.
    + specialize (IH _ j t Hb Ht).
      pose proof (check_moves_forward cooldown last now Hcd).
      lra.
Qed.

Lemma passes_are_spaced_on_any_clock cooldown nows :
  (0 <= cooldown)%Z ->
  forall last i j ti tj,
    (i < j)%nat ->
    nth_error (fst (checks cooldown last nows)) i = Some true ->
    nth_error (fst (checks cooldown last nows)) j = Some true ->
    nth_error nows i = Some ti ->
    nth_error nows j = Some tj ->
    inject_Z cooldown <= tj - ti.
Proof.
  intros Hcd. induction nows as [|now rest IH]; intros last i j ti tj Hij Hi Hj Hti Htj.
  - destruct i; discriminate.
  - rewrite checks_cons in Hi, Hj.
    destruct j as [|j]; [lia|].
    cbn [nth_error] in Hj, Htj.
    destruct i as [|i]; cbn [nth_error] in Hi, Hti.
    + inversion Hti; subst ti. inversion Hi as [Hi'].
      apply check_true in Hi'. destruct Hi' as [_ Hlast].
      rewrite Hlast in Hj.
      exact (pass_is_late_on_any_clock cooldown rest Hcd now j tj Hj Htj).
    + apply (IH (snd (check cooldown last now)) i j ti tj); [lia | assumption..].
Qed.

(** C3, as amended.  The gate is a pure time policy with
    update-iff-pass: a check at [now] passes iff
    [now - last_alert_time >= ALERT_COOLDOWN_SECONDS] (20 unless
    configured); the global becomes [now] when the check passes and
    keeps its value when it fails; the first check ever made, against
    the initial value 0 of the global, passes when the clock reads at
    least one cooldown (as every [time.time()] does for the default
    20); of two checks
    made in sequence less than a cooldown apart at most one passes; and,
    whenever the cooldown is not negative or the clock does not go back,
    any two passing checks of a sequence are at least a cooldown
    apart. *)
Theorem alert_gate_policy (cooldown : Z) (last now1 now2 : Q) (nows : list Q) :
  (fst (check cooldown last now1) = true <-> inject_Z cooldown <= now1 - last)
  /\ (fst (check cooldown last now1) = true -> snd (check cooldown last now1) = now1)
  /\ (fst (check cooldown last now1) = false -> snd (check cooldown last now1) = last)
  /\ ALERT_COOLDOWN_SECONDS Unset = 20%Z
  /\ (inject_Z cooldown <= now1 ->
      fst (check cooldown initial_last_alert_time now1) = true)
  /\ (now1 < now2 -> now2 - now1 < inject_Z cooldown ->
      forall b1 b2,
        fst (checks cooldown last [now1; now2]) = [b1; b2] ->
        ~ (b1 = true /\ b2 = true))
  /\ ((0 <= cooldown)%Z \/ StronglySorted Qle (last :: nows) ->
      forall i j ti tj,
        (i < j)%nat ->
        nth_error (fst (checks cooldown last nows)) i = Some true ->
        nth_error (fst (checks cooldown last nows)) j = Some true ->
        nth_error nows i = Some ti ->
        nth_error nows j = Some tj ->
        inject_Z cooldown <= tj - ti).
Proof.
  repeat apply conj.
  - intros H. apply check_true in H. apply passes_iff. tauto.
  - intros H. apply passes_iff in H. unfold check. rewrite H. reflexivity.
  - intros H. apply check_true in H. tauto.
  - intros H. apply check_false in H. tauto.
  - reflexivity.
  - intros H. unfold check.
    assert (Hp : passes cooldown initial_last_alert_time now1 = true).
    { apply passes_iff. unfold initial_last_alert_time. lra. }
    rewrite Hp. reflexivity.
  - intros _ Hclose b1 b2 Hrun [H1 H2]. subst b1 b2.
    rewrite checks_pair in Hrun.
    assert (Hb1 : fst (check cooldown last now1) = true) by congruence.
    assert (Hb2 : fst (check cooldown (snd (check cooldown last now1)) now2) = true)
      by congruence.
    apply check_true in Hb1. destruct Hb1 as [_ Hlast].
    rewrite Hlast in Hb2.
    apply check_true in Hb2. destruct Hb2 as [Hp _].
    apply passes_iff in Hp. lra.
  - intros [Hcd | Hclock].
    + apply passes_are_spaced_on_any_clock. exact Hcd.
    + apply passes_are_spaced. exact Hclock.
Qed.

(** The default cooldown on a wall clock: a dispatch, an attempt ten
    seconds later, another twenty-one seconds after the first. *)
Example gate_scenario :
  checks 20 initial_last_alert_time [1700000000; 1700000010; 1700000021]
  = ([true; false; true], 1700000021).
Proof. vm_compute. reflexivity. Qed.

Lemma alert_gate_policy_witness :
  fst (check 20 initial_last_alert_time 1700000000) = true
  /\ fst (checks 20 0 [1700000000; 1700000010]) <> [true; true]
  /\ inject_Z 20 <= 1700000021 - 1700000000.
Proof.
  pose proof (alert_gate_policy 20 0 1700000000 1700000010
                [1700000000; 1700000010; 1700000021])
    as (_ & _ & _ & _ & Hfirst & Hpair & Hspaced).
  split; [|split].
  - apply Hfirst. vm_compute. discriminate.
  - intros Hrun.
    apply (Hpair ltac:(reflexivity) ltac:(reflexivity) true true Hrun).
    split; reflexivity.
  - assert (Hcd : (0 <= 20)%Z) by discriminate.
    apply (Hspaced (or_introl Hcd) 0%nat 2%nat); try reflexivity.
    repeat constructor.
Defined.

(** C3, as stated, fails: the global starts at 0, not at "never".  With
    the cooldown configured to 2000000000 seconds the first check, made
    at the clock reading 1700000000, does not pass; nor does a first
    check at the reading 5 with the default cooldown. *)
Lemma first_check_can_fail :
  check (ALERT_COOLDOWN_SECONDS (IntText 2000000000)) initial_last_alert_time 1700000000
  = (false, initial_last_alert_time)
  /\ check (ALERT_COOLDOWN_SECONDS Unset) initial_last_alert_time 5
     = (false, initial_last_alert_time)
  /\ ~ first_check_always_passes.
Proof.
  split; [vm_compute; reflexivity|]. split; [vm_compute; reflexivity|].
  intros H. specialize (H (IntText 2000000000) 1700000000).
  vm_compute in H. discriminate H.
Qed.

End GateFacts.

(** ** Two requests in flight *)

Module RaceFacts.
Import Race.

(** A request that runs its check and its assignment back to back,
    then the other one does. *)
Lemma serial_first_then_second cooldown last now1 now2 :
  now2 - now1 < inject_Z cooldown ->
  both_alerted (exec cooldown [First; First; Second; Second] (start last now1 now2))
  = false.
Proof.
  intros Hclose. unfold start. cbn [exec step step_pc first second Race.last_alert_time].
  destruct (Gate.passes cooldown last now1) eqn:E1;
    cbn [exec step step_pc first second Race.last_alert_time].
  - assert (E2 : Gate.passes cooldown now1 now2 = false)
      by (apply GateFacts.fails_iff; exact Hclose).
    rewrite E2. cbn. reflexivity.
  - destruct (Gate.passes cooldown last now2);
      cbn [exec step step_pc first second Race.last_alert_time]; reflexivity.
Qed.

Lemma serial_second_then_first cooldown last now1 now2 :
  now1 - now2 < inject_Z cooldown ->
  both_alerted (exec cooldown [Second; Second; First; First] (start last now1 now2))
  = false.
Proof.
  intros Hclose. unfold start. cbn [exec step step_pc first second Race.last_alert_time].
  destruct (Gate.passes cooldown last now2) eqn:E1;
    cbn [exec step step_pc first second Race.last_alert_time].
  - assert (E2 : Gate.passes cooldown now2 now1 = false)
      by (apply GateFacts.fails_iff; exact Hclose).
    rewrite E2. cbn. reflexivity.
  - destruct (Gate.passes cooldown last now1);
      cbn [exec step step_pc first second Race.last_alert_time]; reflexivity.
Qed.

(** Both checks run before either assignment. *)
Lemma interleaved_both_alert cooldown last now1 now2 :
  Gate.passes cooldown last now1 = true ->
  Gate.passes cooldown last now2 = true ->
  both_alerted (exec cooldown [First; Second; First; Second] (start last now1 now2))
  = true.
Proof.
  intros H1 H2. unfold start.
  cbn [exec step step_pc first second Race.last_alert_time].
  rewrite H1. cbn [exec step step_pc first second Race.last_alert_time].
  rewrite H2. reflexivity.
Qed.

(** C6, as amended.  The route guards the gate with no lock: the check
    and the assignment are separate statements.  When one request runs
    both before the other starts, two requests less than a cooldown
    apart never both alert; when the two checks run before either
    assignment, both requests pass whenever each would pass alone. *)
Theorem gate_exclusive_when_serial (cooldown : Z) (last now1 now2 : Q)
    (schedule : list Thread) :
  (Qabs (now2 - now1) < inject_Z cooldown ->
   serial schedule ->
   both_alerted (exec cooldown schedule (start last now1 now2)) = false)
  /\ (Gate.passes cooldown last now1 = true ->
      Gate.passes cooldown last now2 = true ->
      both_alerted
        (exec cooldown [First; Second; First; Second] (start last now1 now2))
      = true).
Proof.
  split.
  - intros Habs Hser.
    apply Qabs_Qlt_condition in Habs. destruct Habs as [Hlo Hhi].
    destruct Hser as [-> | ->].
    + apply serial_first_then_second. exact Hhi.
    + apply serial_second_then_first. lra.
  - apply interleaved_both_alert.
Qed.

Lemma gate_exclusive_when_serial_witness :
  both_alerted
    (exec 20 [First; First; Second; Second] (start 0 1700000000 1700000005))
  = false
  /\ both_alerted
       (exec 20 [First; Second; First; Second] (start 0 1700000000 1700000005))
     = true.
Proof.
  pose proof (gate_exclusive_when_serial 20 0 1700000000 1700000005
                [First; First; Second; Second]) as [Hserial Hrace].
  split.
  - apply Hserial.
    + vm_compute. reflexivity.
    + left. reflexivity.
  - apply Hrace; vm_compute; reflexivity.
Defined.

(** C6, as stated, fails: two requests five seconds apart, both past the
    cooldown of the last alert, both alert when their checks run before
    either assignment. *)
Lemma gate_is_not_atomic :
  Qabs (1700000005 - 1700000000) < inject_Z 20
  /\ ~ gate_is_atomic 20 0 1700000000 1700000005.
Proof.
  split.
  - vm_compute. reflexivity.
  - intros H. specialize (H [First; Second; First; Second]).
    vm_compute in H. discriminate.
Qed.

End RaceFacts.

(** ** The dispatcher *)

Module DispatchFacts.
Import Dispatch.

Lemma add_log_nil s : add_log s [] = s.
Proof. destruct s. unfold add_log. cbn. rewrite app_nil_r. reflexivity. Qed.

Lemma add_log_app s l1 l2 : add_log (add_log s l1) l2 = add_log s (l1 ++ l2).
Proof. unfold add_log. cbn. rewrite app_assoc. reflexivity. Qed.

Lemma emit_spec e s : emit e s = (Ok tt, add_log s [e]).
Proof. reflexivity. Qed.

(** One contact: the handler of the loop body absorbs the failure. *)
Lemma sms_body_spec w c s :
  try_except (messages_create w c) (emit (SmsFailedLogged c)) s
  = (Ok tt, add_log s [sms_event w c]).
Proof.
  unfold try_except, messages_create, sms_event.
  destruct (sms_raises w c); reflexivity.
Qed.

(** The loop visits every contact, whatever the earlier ones did. *)
Lemma sms_loop_spec w contacts :
  forall s,
    for_each contacts
      (fun c => try_except (messages_create w c) (emit (SmsFailedLogged c))) s
    = (Ok tt, add_log s (map (sms_event w) contacts)).
Proof.
  induction contacts as [|c rest IH]; intros s.
  - cbn. rewrite add_log_nil. reflexivity.
  - cbn [for_each map]. unfold bind. rewrite sms_body_spec, IH, add_log_app.
    reflexivity.
Qed.

(** [send_email_alert] never raises. *)
Lemma send_email_alert_spec cfg w s :
  send_email_alert cfg w s
  = (Ok (smtp_configured cfg && negb (smtp_raises w)), add_log s (email_events cfg w)).
Proof.
  unfold send_email_alert, email_events, try_except, smtp_send, bind.
  destruct (smtp_configured cfg); cbn.
  - destruct (smtp_raises w); reflexivity.
  - rewrite add_log_nil. reflexivity.
Qed.

Lemma sms_stage_spec contacts cfg w s :
  (if twilio_client cfg
   then for_each contacts
          (fun c => try_except (messages_create w c) (emit (SmsFailedLogged c)))
   else ret tt) s
  = (Ok tt, add_log s (sms_events contacts cfg w)).
Proof.
  unfold sms_events. destruct (twilio_client cfg).
  - apply sms_loop_spec.
  - cbn. rewrite add_log_nil. reflexivity.
Qed.

(** The primary write raises: nothing else is tried. *)
Lemma send_alert_primary_raises contacts cfg w stamp d s :
  accidents_collection cfg = true ->
  insert_one_raises w = true ->
  send_alert_to contacts cfg w stamp d s = (Ok false, add_log s [AlertErrorLogged]).
Proof.
  intros Hc Hr.
  unfold send_alert_to, try_except, send_alert_body, bind at 1.
  rewrite Hc. unfold insert_one. rewrite Hr. reflexivity.
Qed.

(** The mirror write raises: the record and the messages are out, the
    e-mail is not tried. *)
Lemma send_alert_mirror_raises contacts cfg w stamp d s :
  (accidents_collection cfg = true -> insert_one_raises w = false) ->
  db_firestore cfg = true ->
  firestore_add_raises w = true ->
  send_alert_to contacts cfg w stamp d s
  = (Ok false,
     add_log (after_primary cfg (accident_record stamp d) s)
             (sms_events contacts cfg w ++ [AlertErrorLogged])).
Proof.
  intros Hp Hf Hr.
  unfold send_alert_to, try_except, send_alert_body.
  unfold bind at 1.
  assert (E1 : (if accidents_collection cfg
                then insert_one w (accident_record stamp d)
                else append (accident_record stamp d)) s
               = (Ok tt, after_primary cfg (accident_record stamp d) s)).
  { unfold after_primary, insert_one, append.
    destruct (accidents_collection cfg); [rewrite (Hp eq_refl)|]; reflexivity. }
  rewrite E1. unfold bind at 1. rewrite sms_stage_spec.
  unfold bind at 1. rewrite Hf. unfold firestore_add. rewrite Hr.
  cbn. unfold add_log. cbn. rewrite app_assoc. reflexivity.
Qed.

(** No store write raises: everything is tried and the call answers
    [True], whatever the messages and the e-mail did. *)
Lemma send_alert_completes contacts cfg w stamp d s :
  (accidents_collection cfg = true -> insert_one_raises w = false) ->
  (db_firestore cfg = true -> firestore_add_raises w = false) ->
  send_alert_to contacts cfg w stamp d s
  = (Ok true,
     add_log (after_mirror cfg (accident_record stamp d)
                (after_primary cfg (accident_record stamp d) s))
             (sms_events contacts cfg w ++ email_events cfg w ++ [AlertSentLogged])).
Proof.
  intros Hp Hf.
  unfold send_alert_to, try_except, send_alert_body.
  unfold bind at 1.
  assert (E1 : (if accidents_collection cfg
                then insert_one w (accident_record stamp d)
                else append (accident_record stamp d)) s
               = (Ok tt, after_primary cfg (accident_record stamp d) s)).
  { unfold after_primary, insert_one, append.
    destruct (accidents_collection cfg); [rewrite (Hp eq_refl)|]; reflexivity. }
  rewrite E1. unfold bind at 1. rewrite sms_stage_spec.
  unfold bind at 1.
  set (s1 := add_log _ (sms_events contacts cfg w)).
  assert (E2 : (if db_firestore cfg
                then firestore_add w (accident_record stamp d)
                else ret tt) s1
               = (Ok tt, after_mirror cfg (accident_record stamp d) s1)).
  { unfold after_mirror, firestore_add.
    destruct (db_firestore cfg); [rewrite (Hf eq_refl)|]; reflexivity. }
  rewrite E2. unfold bind at 1. rewrite send_email_alert_spec.
  unfold bind at 1. rewrite emit_spec. cbn [ret].
  f_equal. subst s1. unfold add_log, after_mirror, after_primary.
  destruct (db_firestore cfg), (accidents_collection cfg); cbn;
    rewrite <- !app_assoc; reflexivity.
Qed.

(** [send_alert] hands a bool back, never an exception. *)
Lemma send_alert_total contacts cfg w stamp d s :
  exists b s', send_alert_to contacts cfg w stamp d s = (Ok b, s').
Proof.
  destruct (accidents_collection cfg) eqn:Hc, (insert_one_raises w) eqn:Hi,
           (db_firestore cfg) eqn:Hf, (firestore_add_raises w) eqn:Hm;
    first [ rewrite send_alert_primary_raises by assumption
          | rewrite send_alert_mirror_raises by (congruence || assumption)
          | rewrite send_alert_completes by congruence ];
    eauto.
Qed.

Lemma in_sms_events w contacts c :
  In c contacts -> In (sms_event w c) (map (sms_event w) contacts).
Proof. apply in_map. Qed.

(** C4, as amended.  [send_alert] never raises to its caller and always
    completes with a single boolean.  The loop over the emergency
    contacts gives every contact its own handler, so a failing contact
    is logged and the others are still tried.  When neither store write
    raises, whatever the messages and the e-mail do: the record is
    persisted in the primary store (MongoDB when configured, else the
    in-memory list), every contact is attempted when Twilio is
    configured (a failure is logged for the contacts that fail, a
    delivery for the others), the record is mirrored to Firestore when
    configured, the e-mail is attempted when SMTP is configured, and the
    call answers [True]: the boolean carries no per-channel status. *)
Theorem send_alert_best_effort
    (cfg : Config) (w : World) (stamp : string) (d : AccidentData) (s : Store) :
  (exists b s', send_alert cfg w stamp d s = (Ok b, s'))
  /\ ((accidents_collection cfg = true -> insert_one_raises w = false) ->
      (db_firestore cfg = true -> firestore_add_raises w = false) ->
      let s' := snd (send_alert cfg w stamp d s) in
      let r := accident_record stamp d in
      fst (send_alert cfg w stamp d s) = Ok true
      /\ (if accidents_collection cfg
          then mongo_accidents s' = mongo_accidents s ++ [r]
               /\ accidents_db s' = accidents_db s
          else accidents_db s' = accidents_db s ++ [r]
               /\ mongo_accidents s' = mongo_accidents s)
      /\ (twilio_client cfg = true ->
          forall c, In c emergency_contacts ->
            sms_attempted c s'
            /\ (sms_raises w c = true -> In (SmsFailedLogged c) (log s'))
            /\ (sms_raises w c = false -> In (SmsSent c) (log s')))
      /\ (db_firestore cfg = true ->
          firestore_accidents s' = firestore_accidents s ++ [r])
      /\ (smtp_configured cfg = true -> email_attempted s')).
Proof.
  split.
  - apply send_alert_total.
  - intros Hp Hf. cbv zeta. unfold send_alert.
    rewrite (send_alert_completes _ cfg w stamp d s Hp Hf). cbn [fst snd].
    split; [reflexivity|].
    split; [|split; [|split]].
    + unfold after_mirror, after_primary, add_log.
      destruct (accidents_collection cfg), (db_firestore cfg); cbn; split; reflexivity.
    + intros Ht c Hin.
      assert (Hev : In (sms_event w c)
                      (log (add_log
                              (after_mirror cfg (accident_record stamp d)
                                 (after_primary cfg (accident_record stamp d) s))
                              (sms_events emergency_contacts cfg w
                               ++ email_events cfg w ++ [AlertSentLogged])))).
      { unfold add_log. cbn [log]. apply in_or_app. right.
        apply in_or_app. left. unfold sms_events. rewrite Ht.
        apply in_sms_events. exact Hin. }
      unfold sms_event in Hev. unfold sms_attempted.
      destruct (sms_raises w c); repeat split; auto; discriminate.
    + intros Hfs. unfold after_mirror, after_primary, add_log. rewrite Hfs.
      destruct (accidents_collection cfg); reflexivity.
    + intros Hs. unfold email_attempted, add_log. cbn [log].
      unfold email_events. rewrite Hs.
      destruct (smtp_raises w); [right | left];
        apply in_or_app; right; apply in_or_app; right;
        apply in_or_app; left; left; reflexivity.
Qed.

(** The first contact is unreachable: it is logged, the second contact
    gets its message, the e-mail leaves, the record is in the list and
    the call answers [True]. *)
Lemma send_alert_best_effort_witness :
  let s' := snd (send_alert full_config first_sms_fails "2024-01-01T00:00:00"
                            sample_data empty_store) in
  fst (send_alert full_config first_sms_fails "2024-01-01T00:00:00"
                  sample_data empty_store) = Ok true
  /\ accidents_db s' = [accident_record "2024-01-01T00:00:00" sample_data]
  /\ In (SmsFailedLogged "+1234567890") (log s')
  /\ In (SmsSent "+0987654321") (log s')
  /\ email_attempted s'.
Proof.
  cbv zeta.
  destruct (send_alert_best_effort full_config first_sms_fails
              "2024-01-01T00:00:00" sample_data empty_store)
    as [_ H].
  destruct H as (Hret & Hdb & Hsms & _ & Hmail).
  - discriminate.
  - reflexivity.
  - split; [exact Hret|].
    split; [exact (proj1 Hdb)|].
    split; [|split].
    + apply (Hsms eq_refl "+1234567890"%string); [left; reflexivity | reflexivity].
    + apply (Hsms eq_refl "+0987654321"%string);
        [right; left; reflexivity | reflexivity].
    + apply Hmail. reflexivity.
Defined.

(** C4, as stated, fails twice.  When the Firestore write raises, the
    configured e-mail is never attempted; and with an unreachable
    contact the call answers exactly what it answers when every message
    goes out, so nothing in the answer marks the failure. *)
Lemma send_alert_short_circuits :
  ~ never_short_circuits full_config "2024-01-01T00:00:00" sample_data empty_store
  /\ fst (send_alert full_config first_sms_fails "2024-01-01T00:00:00"
                     sample_data empty_store)
     = fst (send_alert full_config calm_world "2024-01-01T00:00:00"
                       sample_data empty_store).
Proof.
  split.
  - intros H. destruct (H mirror_down) as [Hmail _].
    specialize (Hmail eq_refl). unfold email_attempted in Hmail.
    vm_compute in Hmail.
    destruct Hmail as [Hin | Hin];
      repeat (destruct Hin as [Hin | Hin]; [discriminate|]); exact Hin.
  - vm_compute. reflexivity.
Qed.

End DispatchFacts.

(** ** The history query *)

Module HistoryFacts.
Import Dispatch History.

(** *** The order on timestamps *)

Lemma compare_same (s1 s2 : string) :
  String.compare s1 s2 = String_as_OT.compare s1 s2.
Proof.
  revert s2. induction s1 as [|a s1 IH]; intros [|b s2]; cbn; reflexivity.
Qed.

Lemma leb_iff (s1 s2 : string) :
  String.leb s1 s2 = true <-> String_as_OT.lt s1 s2 \/ s1 = s2.
Proof.
  unfold String.leb. rewrite compare_same.
  destruct (String_as_OT.compare_spec s1 s2) as [E | L | G].
  - split; auto.
  - split; auto.
  - split; [discriminate|].
    intros [L | E].
    + exfalso. apply (StrictOrder_Irreflexive s1).
      exact (StrictOrder_Transitive _ _ _ L G).
    + subst. exfalso. apply (StrictOrder_Irreflexive _ G).
Qed.

Lemma leb_refl (s : string) : String.leb s s = true.
Proof. apply leb_iff. right. reflexivity. Qed.

Lemma leb_trans (s1 s2 s3 : string) :
  String.leb s1 s2 = true -> String.leb s2 s3 = true -> String.leb s1 s3 = true.
Proof.
  rewrite !leb_iff. intros [L1 | E1] [L2 | E2]; subst; auto.
  left. exact (StrictOrder_Transitive _ _ _ L1 L2).
Qed.

Lemma ltb_true_leb (s1 s2 : string) :
  String.ltb s1 s2 = true -> String.leb s1 s2 = true.
Proof.
  unfold String.ltb, String.leb. destruct (String.compare s1 s2); congruence.
Qed.

Lemma ltb_false_leb (s1 s2 : string) :
  String.ltb s1 s2 = false -> String.leb s2 s1 = true.
Proof.
  unfold String.ltb, String.leb. rewrite (String.compare_antisym s2 s1).
  destruct (String.compare s1 s2); cbn; congruence.
Qed.

(** *** The stable descending sort *)

Lemma insert_desc_Forall (P : AccidentRecord -> Prop) x l :
  P x -> Forall P l -> Forall P (insert_desc x l).
Proof.
  intros Hx Hl. induction Hl as [|y ys Hy Hys IH]; cbn.
  - constructor; [assumption | constructor].
  - destruct (ts_ltb x y); repeat constructor; assumption.
Qed.

Lemma insert_desc_descending x l :
  descending l -> descending (insert_desc x l).
Proof.
  unfold descending. intros Hl.
  induction Hl as [|y ys Hys IH Hall]; cbn.
  - repeat constructor.
  - destruct (ts_ltb x y) eqn:E; unfold ts_ltb in E.
    + constructor; [exact IH|].
      apply insert_desc_Forall; [|exact Hall].
      unfold newer_or_same. apply ltb_true_leb. exact E.
    + apply ltb_false_leb in E.
      constructor; [constructor; assumption|].
      constructor; [exact E|].
      eapply Forall_impl; [|exact Hall].
      intros z Hz. unfold newer_or_same in *.
      eapply leb_trans; eassumption.
Qed.

Lemma sorted_desc_descending l : descending (sorted_desc l).
Proof.
  induction l as [|x xs IH]; cbn.
  - constructor.
  - apply insert_desc_descending. exact IH.
Qed.

Lemma insert_desc_perm x l : Permutation (insert_desc x l) (x :: l).
Proof.
  induction l as [|y ys IH]; cbn.
  - reflexivity.
  - destruct (ts_ltb x y).
    + rewrite IH. apply perm_swap.
    + reflexivity.
Qed.

Lemma sorted_desc_perm l : Permutation (sorted_desc l) l.
Proof.
  induction l as [|x xs IH]; cbn.
  - reflexivity.
  - rewrite insert_desc_perm. constructor. exact IH.
Qed.

(** *** Truncation *)

Lemma firstn_descending n l : descending l -> descending (firstn n l).
Proof.
  unfold descending. revert l.
  induction n as [|n IH]; intros l Hl; cbn.
  - constructor.
  - destruct l as [|x xs]; [constructor|].
    inversion Hl as [|? ? Hs Hall]; subst.
    constructor.
    + apply IH. exact Hs.
    + rewrite Forall_forall in *. intros z Hz.
      apply Hall. eapply (In_nth_error) in Hz.
      destruct Hz as [k Hk].
      apply nth_error_In with (n := k).
      rewrite nth_error_firstn in Hk.
      destruct (k <? n)%nat; [exact Hk | discriminate].
Qed.

(** What the cut leaves out is no more recent than what it keeps. *)
Lemma firstn_keeps_newest n l a b :
  descending l -> In a (firstn n l) -> In b (skipn n l) -> newer_or_same a b.
Proof.
  unfold descending. revert l.
  induction n as [|n IH]; intros l Hl Ha Hb; cbn in Ha.
  - contradiction.
  - destruct l as [|x xs]; [contradiction|].
    cbn in Hb. inversion Hl as [|? ? Hs Hall]; subst.
    destruct Ha as [-> | Ha].
    + rewrite Forall_forall in Hall. apply Hall.
      rewrite <- (firstn_skipn n xs). apply in_or_app. right. exact Hb.
    + apply (IH xs); assumption.
Qed.

(** The in-memory branch. *)
Lemma in_memory_recent_first cfg s (D : Durable) :
  accidents_collection cfg = false ->
  get_accidents cfg s = Accidents (firstn limit (sorted_desc (accidents_db s))).
Proof. unfold get_accidents. intros ->. reflexivity. Qed.

(** The first [n] records of the descending sort meet the contract. *)
Lemma firstn_sorted_recent_first (stored : list AccidentRecord) :
  recent_first stored (firstn limit (sorted_desc stored)).
Proof.
  pose proof (sorted_desc_perm stored) as Hperm.
  split; [apply firstn_descending, sorted_desc_descending|].
  split; [apply firstn_le_length|].
  split; [rewrite length_firstn, (Permutation_length Hperm); reflexivity|].
  split.
  - intros x Hx. apply (Permutation_in x Hperm).
    rewrite <- (firstn_skipn limit (sorted_desc stored)).
    apply in_or_app. left. exact Hx.
  - intros a b Ha Hb Hout.
    apply (firstn_keeps_newest limit (sorted_desc stored));
      [apply sorted_desc_descending | exact Ha |].
    apply (Permutation_in b (Permutation_sym Hperm)) in Hb.
    rewrite <- (firstn_skipn limit (sorted_desc stored)) in Hb.
    apply in_app_or in Hb. destruct Hb as [Hb | Hb]; [contradiction | exact Hb].
Qed.

(** C9. [get_accidents] answers with the accident records in
    non-increasing timestamp order and with at most 50 of them, on both
    backends, and under one contract.  From the in-memory list the
    answer is the first 50 records of the descending sort of the list.
    From MongoDB, when the query does not raise, it is what the server
    yields for the query sorted by timestamp descending and limited to
    50.  Either answer is in descending order, holds at most 50 records
    and as many as there are up to 50, each of them a stored record, and
    leaves out no record more recent than one it keeps. *)
Theorem get_accidents_recent_first (D : Durable) (cfg : Config) (s : Store) :
  limit = 50%nat
  /\ (accidents_collection cfg = false ->
      exists l,
        get_accidents cfg s = Accidents l
        /\ recent_first (accidents_db s) l)
  /\ (accidents_collection cfg = true ->
      exists l,
        @get_accidents (mongo_server false) cfg s = Accidents l
        /\ recent_first (mongo_accidents s) l).
Proof.
  split; [reflexivity|]. split.
  - intros Hmem. exists (firstn limit (sorted_desc (accidents_db s))).
    split; [apply in_memory_recent_first; exact Hmem|].
    apply firstn_sorted_recent_first.
  - intros Hmongo. exists (firstn limit (sorted_desc (mongo_accidents s))).
    split.
    + unfold get_accidents. rewrite Hmongo. reflexivity.
    + apply firstn_sorted_recent_first.
Qed.

(** Three records appended out of order. *)
Example in_memory_example :
  @get_accidents sorting_store full_config
    (mkStore [record_at "2024-01-02T08:00:00"; record_at "2024-01-03T09:30:00";
              record_at "2024-01-01T23:59:59"] [] [] [])
  = Accidents [record_at "2024-01-03T09:30:00"; record_at "2024-01-02T08:00:00";
               record_at "2024-01-01T23:59:59"].
Proof. vm_compute. reflexivity. Qed.

(** The same three records in a MongoDB collection. *)
Example mongo_example :
  @get_accidents (mongo_server false) mongo_config
    (mkStore [] [record_at "2024-01-02T08:00:00"; record_at "2024-01-03T09:30:00";
                 record_at "2024-01-01T23:59:59"] [] [])
  = Accidents [record_at "2024-01-03T09:30:00"; record_at "2024-01-02T08:00:00";
               record_at "2024-01-01T23:59:59"].
Proof. vm_compute. reflexivity. Qed.

Lemma get_accidents_recent_first_witness :
  recent_first
    [record_at "2024-01-02T08:00:00"; record_at "2024-01-03T09:30:00";
     record_at "2024-01-01T23:59:59"]
    [record_at "2024-01-03T09:30:00"; record_at "2024-01-02T08:00:00";
     record_at "2024-01-01T23:59:59"]
  /\ @get_accidents sorting_store full_config
       (mkStore [record_at "2024-01-02T08:00:00"; record_at "2024-01-03T09:30:00";
                 record_at "2024-01-01T23:59:59"] [] [] [])
     = @get_accidents (mongo_server false) mongo_config
         (mkStore [] [record_at "2024-01-02T08:00:00"; record_at "2024-01-03T09:30:00";
                      record_at "2024-01-01T23:59:59"] [] []).
Proof.
  split.
  - destruct (get_accidents_recent_first sorting_store mongo_config
                (mkStore [] [record_at "2024-01-02T08:00:00";
                             record_at "2024-01-03T09:30:00";
                             record_at "2024-01-01T23:59:59"] [] []))
      as (_ & _ & Hmongo).
    destruct (Hmongo eq_refl) as (l & Hget & Hl).
    rewrite mongo_example in Hget. inversion Hget; subst l. exact Hl.
  - destruct (get_accidents_recent_first sorting_store full_config
                (mkStore [record_at "2024-01-02T08:00:00";
                          record_at "2024-01-03T09:30:00";
                          record_at "2024-01-01T23:59:59"] [] [] []))
      as (_ & Hmem & _).
    destruct (Hmem eq_refl) as (l & Hget & _).
    rewrite Hget, mongo_example. rewrite in_memory_example in Hget. exact (eq_sym Hget).
Defined.

End HistoryFacts.

(** ** The /detect route *)

Module RouteFacts.
Import Route.

(** *** The clamp *)

Lemma clamp_Finite (q : Q) :
  clamp (Finite q)
  = Finite (if Qltb q 1.0
            then if Qltb 0.1 q then q else 0.1
            else 1.0).
Proof.
  unfold clamp, py_max, py_min. cbn [pf_ltb].
  destruct (Qltb q 1.0); cbn [pf_ltb].
  - destruct (Qltb 0.1 q); reflexivity.
  - reflexivity.
Qed.

(** The clamp always yields a finite value between the bounds. *)
Lemma clamp_range (v : PyFloat) :
  exists q, clamp v = Finite q /\ 0.1 <= q /\ q <= 1.0.
Proof.
  destruct v as [q| | |].
  - rewrite clamp_Finite. eexists. split; [reflexivity|].
    destruct (Qltb q 1.0) eqn:E1.
    + apply Qltb_lt in E1.
      destruct (Qltb 0.1 q) eqn:E2.
      * apply Qltb_lt in E2. lra.
      * lra.
    + lra.
  - exists 1.0. split; [reflexivity|]. lra.
  - exists 0.1. split; [reflexivity|]. lra.
  - exists 1.0. split; [reflexivity|]. lra.
Qed.

Lemma clamp_low (q : Q) : q <= 0.1 -> clamp (Finite q) = Finite 0.1.
Proof.
  intros H. rewrite clamp_Finite.
  destruct (Qltb q 1.0) eqn:E1.
  - destruct (Qltb 0.1 q) eqn:E2; [|reflexivity].
    apply Qltb_lt in E2. lra.
  - apply Qltb_ge in E1. lra.
Qed.

Lemma clamp_high (q : Q) : 1.0 <= q -> clamp (Finite q) = Finite 1.0.
Proof.
  intros H. rewrite clamp_Finite.
  destruct (Qltb q 1.0) eqn:E1; [|reflexivity].
  apply Qltb_lt in E1. lra.
Qed.

Lemma clamp_inside (q : Q) :
  0.1 <= q -> q <= 1.0 ->
  exists q', clamp (Finite q) = Finite q' /\ q' == q.
Proof.
  intros Hlo Hhi. rewrite clamp_Finite.
  destruct (Qltb q 1.0) eqn:E1.
  - destruct (Qltb 0.1 q) eqn:E2.
    + exists q. split; reflexivity.
    + apply Qltb_ge in E2. exists 0.1. split; [reflexivity | lra].
  - apply Qltb_ge in E1. exists 1.0. split; [reflexivity | lra].
Qed.

Section WithVision.
Context {Frame : Type} {V : Detector.Vision Frame}.

(** *** The detector keeps its threshold *)

Lemma results_loop_threshold (frame : Frame) results :
  forall self acc,
    Detector.accident_threshold (snd (Detector.results_loop self frame acc results))
    = Detector.accident_threshold self.
Proof.
  induction results as [|r rest IH]; intros self acc; cbn [Detector.results_loop].
  - reflexivity.
  - destruct (Detector.after_boxes self frame acc r); [|reflexivity].
    cbn zeta.
    destruct (Detector.raw_condition _ _ _).
    + destruct (negb _); [reflexivity|]. rewrite IH. reflexivity.
    + rewrite IH. reflexivity.
Qed.

Lemma detect_accident_threshold env d (self : Detector.State Frame) frame :
  Detector.accident_threshold (snd (Detector.detect_accident env d self frame))
  = Detector.accident_threshold self.
Proof.
  unfold Detector.detect_accident, Detector.detect_accident_mock,
    Detector.detect_accident_model.
  destruct (_ || _ || _); [reflexivity|].
  destruct (Detector.yolo frame); [|reflexivity].
  apply results_loop_threshold.
Qed.

(** *** The alert block *)

(** The dispatch never raises, so the block always answers. *)
Lemma alert_stage_spec cfg inp r (app : App Frame) :
  exists r' app',
    alert_stage cfg inp r app = (Json r', app')
    /\ accident_detected r' = accident_detected r
    /\ confidence r' = confidence r
    /\ vehicles_detected r' = vehicles_detected r
    /\ boxes r' = boxes r
    /\ demo_mode r' = demo_mode r
    /\ detector app' = detector app
    /\ (accident_detected r = true ->
        Gate.passes (cooldown cfg) (last_alert_time app) (clock inp) = true ->
        alert_sent r' = Some true /\ alert_suppressed r' = Some false
        /\ last_alert_time app' = clock inp)
    /\ (accident_detected r = true ->
        Gate.passes (cooldown cfg) (last_alert_time app) (clock inp) = false ->
        alert_sent r' = Some false /\ alert_suppressed r' = Some true
        /\ app' = app)
    /\ (accident_detected r = false ->
        alert_sent r' = alert_sent r /\ alert_suppressed r' = Some false
        /\ app' = app).
Proof.
  unfold alert_stage, Gate.check.
  destruct (accident_detected r) eqn:Ea.
  - destruct (Gate.passes _ _ _) eqn:Ep.
    + match goal with
      | |- context [Dispatch.send_alert ?c ?w ?st ?d ?s] =>
          destruct (DispatchFacts.send_alert_total Dispatch.emergency_contacts c w st d s)
            as (b & s' & E)
      end.
      unfold Dispatch.send_alert. rewrite E.
      do 2 eexists. split; [reflexivity|].
      cbn. repeat split; try congruence.
    + do 2 eexists. split; [reflexivity|].
      cbn. repeat split; try congruence.
  - do 2 eexists. split; [reflexivity|].
    cbn. repeat split; try congruence.
Qed.

(** The alert block decides by the gate: for an accident-positive
    result, [alert_sent] is the answer of the check and the global takes
    the value the check leaves. *)
Lemma alert_stage_uses_gate cfg inp r (app : App Frame) r' app' :
  alert_stage cfg inp r app = (Json r', app') ->
  accident_detected r = true ->
  alert_sent r' = Some (fst (Gate.check (cooldown cfg) (last_alert_time app) (clock inp)))
  /\ last_alert_time app'
     = snd (Gate.check (cooldown cfg) (last_alert_time app) (clock inp)).
Proof.
  intros E Ha.
  destruct (alert_stage_spec cfg inp r app)
    as (r1 & app1 & E1 & _ & _ & _ & _ & _ & _ & Hp & Hf & _).
  rewrite E1 in E. inversion E; subst r1 app1.
  unfold Gate.check.
  destruct (Gate.passes (cooldown cfg) (last_alert_time app) (clock inp)) eqn:Ep.
  - destruct (Hp Ha eq_refl) as (Hs & _ & Hl). split; assumption.
  - destruct (Hf Ha eq_refl) as (Hs & _ & Happ). subst app'. split; [assumption | reflexivity].
Qed.

(** An answer of the route that is a result dict came out of the
    alert block, entered with the gate and the stores as the request
    found them. *)
Lemma route_ends_in_alert_stage cfg inp req (app : App Frame) r' app' :
  detect_accident cfg inp req app = (Json r', app') ->
  exists r app0,
    alert_stage cfg inp r app0 = (Json r', app')
    /\ last_alert_time app0 = last_alert_time app
    /\ store app0 = store app.
Proof.
  unfold detect_accident.
  destruct (image req) as [| |frame] eqn:Ei.
  - discriminate.
  - destruct (_ || _).
    + intros H. do 2 eexists. split; [exact H|]. split; reflexivity.
    + discriminate.
  - destruct (_ || _).
    + intros H. do 2 eexists. split; [exact H|]. split; reflexivity.
    + destruct (Detector.detect_accident _ _ _ _) as [out det'].
      intros H. do 2 eexists. split; [exact H|]. split; reflexivity.
Qed.

(** The route changes the threshold only through [apply_threshold]. *)
Lemma route_threshold cfg inp req (app : App Frame) :
  Detector.accident_threshold (detector (snd (detect_accident cfg inp req app)))
  = Detector.accident_threshold (apply_threshold (threshold req) (detector app)).
Proof.
  unfold detect_accident.
  destruct (image req) as [| |frame].
  - reflexivity.
  - destruct (_ || _); [|reflexivity].
    match goal with
    | |- context [alert_stage ?c ?i ?r ?a] =>
        destruct (alert_stage_spec c i r a) as (r' & app' & E & _ & _ & _ & _ & _ & Hd & _)
    end.
    rewrite E. cbn [snd]. rewrite Hd. reflexivity.
  - destruct (_ || _).
    + match goal with
      | |- context [alert_stage ?c ?i ?r ?a] =>
          destruct (alert_stage_spec c i r a) as (r' & app' & E & _ & _ & _ & _ & _ & Hd & _)
      end.
      rewrite E. cbn [snd]. rewrite Hd. reflexivity.
    + pose proof (detect_accident_threshold (env cfg) (mock_draws inp)
                    (apply_threshold (threshold req) (detector app)) frame) as Ht.
      cbn [detector].
      destruct (Detector.detect_accident _ _ _ _) as [out det'].
      cbn [snd] in Ht.
      match goal with
      | |- context [alert_stage ?c ?i ?r ?a] =>
          destruct (alert_stage_spec c i r a) as (r' & app' & E & _ & _ & _ & _ & _ & Hd & _)
      end.
      rewrite E. cbn [snd]. rewrite Hd. cbn [detector]. exact Ht.
Qed.

(** What [apply_threshold] stores is the clamped value. *)
Lemma apply_threshold_clamp (d : Detector.State Frame) (v : PyFloat) :
  clamp v = Finite (Detector.accident_threshold (apply_threshold (ThresholdNumber v) d)).
Proof.
  unfold apply_threshold.
  destruct (clamp_range v) as (q & E & _). rewrite E. reflexivity.
Qed.

(** Whatever else the request does, a [threshold] that [float] converts
    leaves the detector with that value clamped to
    [0.1, 1.0]: the stored threshold is [max(0.1, min(1.0, v))], it
    lies in [0.1, 1.0], it is 0.1 for every override at or below 0.1
    (so for -5), 1.0 for every override at or above 1.0 (so for 50),
    and the override itself when that lies in the range.  The
    non-finite values [float] can produce end up at a bound as well. *)
Lemma converted_override_clamped
    (cfg : Config) (inp : Inputs) (img : ImageField Frame) (app : App Frame)
    (v : PyFloat) (q : Q) :
  let stored (x : PyFloat) :=
    Detector.accident_threshold
      (detector (snd (detect_accident cfg inp (mkRequest img (ThresholdNumber x)) app))) in
  clamp v = Finite (stored v)
  /\ (0.1 <= stored v /\ stored v <= 1.0)
  /\ (q <= 0.1 -> stored (Finite q) = 0.1)
  /\ (1.0 <= q -> stored (Finite q) = 1.0)
  /\ (0.1 <= q -> q <= 1.0 -> stored (Finite q) == q)
  /\ stored (Finite (-5)) = 0.1
  /\ stored (Finite 50) = 1.0
  /\ stored PosInf = 1.0
  /\ stored NegInf = 0.1
  /\ stored NaN = 1.0.
Proof.
  cbv beta zeta.
  assert (Hs : forall x,
             clamp x
             = Finite (Detector.accident_threshold
                         (detector (snd (detect_accident cfg inp
                                           (mkRequest img (ThresholdNumber x)) app))))).
  { intros x. rewrite route_threshold. apply apply_threshold_clamp. }
  assert (Hv : forall x y,
             clamp x = Finite y ->
             Detector.accident_threshold
               (detector (snd (detect_accident cfg inp
                                 (mkRequest img (ThresholdNumber x)) app))) = y).
  { intros x y E. rewrite (Hs x) in E. inversion E. reflexivity. }
  split; [apply Hs|].
  split.
  { destruct (clamp_range v) as (y & E & Hlo & Hhi).
    rewrite (Hv _ _ E). split; assumption. }
  split; [intros H; apply Hv, clamp_low, H|].
  split; [intros H; apply Hv, clamp_high, H|].
  split.
  { intros Hlo Hhi. destruct (clamp_inside q Hlo Hhi) as (y & E & Hy).
    rewrite (Hv _ _ E). exact Hy. }
  repeat split; apply Hv; reflexivity.
Qed.

(** Rounding an int to a float keeps its sign and keeps it away from
    the open interval between -1 and 1. *)
Lemma nearest_float_sign (z : Z) :
  ((1 <= z -> 1 <= nearest_float z)
   /\ (z <= -1 -> nearest_float z <= -1)
   /\ (z = 0 -> nearest_float z = 0))%Z.
Proof.
  unfold nearest_float.
  destruct (Z.log2 (Z.abs z) - 52 <=? 0)%Z eqn:Ek; [lia|].
  apply Z.leb_gt in Ek.
  set (a := Z.abs z) in *. set (k := (Z.log2 a - 52)%Z) in *.
  assert (Ha : (0 < a)%Z).
  { destruct (Z.eq_dec a 0) as [E|E]; [|unfold a in *; lia].
    exfalso. unfold k in Ek. rewrite E in Ek. cbn in Ek. lia. }
  assert (Hm : (1 <= Z.shiftr a k)%Z).
  { rewrite Z.shiftr_div_pow2 by lia.
    assert (Hp : (2 ^ k <= a)%Z).
    { apply Z.le_trans with (2 ^ Z.log2 a)%Z.
      - apply Z.pow_le_mono_r; unfold k; lia.
      - apply Z.log2_spec. exact Ha. }
    assert (0 < 2 ^ k)%Z by (apply Z.pow_pos_nonneg; lia).
    apply Z.div_le_lower_bound; lia. }
  set (m := Z.shiftr a k) in *.
  assert (Hs : forall m' : Z, (1 <= m')%Z -> (1 <= Z.shiftl m' k)%Z).
  { intros m' Hm'. rewrite Z.shiftl_mul_pow2 by lia.
    assert (0 < 2 ^ k)%Z by (apply Z.pow_pos_nonneg; lia). nia. }
  match goal with
  | |- context [if ?c then (m + 1)%Z else m] => destruct c
  end.
  - pose proof (Hs (m + 1)%Z ltac:(lia)) as H1.
    repeat split; intros Hz.
    + rewrite Z.sgn_pos by lia. lia.
    + rewrite Z.sgn_neg by lia. lia.
    + subst z. unfold a in Ha. cbn in Ha. lia.
  - pose proof (Hs m Hm) as H1.
    repeat split; intros Hz.
    + rewrite Z.sgn_pos by lia. lia.
    + rewrite Z.sgn_neg by lia. lia.
    + subst z. unfold a in Ha. cbn in Ha. lia.
Qed.

(** The clamp does not see the rounding of an int. *)
Lemma clamp_nearest_float (z : Z) :
  clamp (Finite (inject_Z (nearest_float z))) = clamp (Finite (inject_Z z)).
Proof.
  destruct (nearest_float_sign z) as (Hpos & Hneg & Hzero).
  destruct (Z_lt_le_dec z 1) as [Hlt|Hge].
  - destruct (Z_le_gt_dec z (-1)) as [Hle|Hgt].
    + rewrite (clamp_low (inject_Z z)), (clamp_low (inject_Z (nearest_float z)));
        [reflexivity | |].
      * specialize (Hneg Hle). apply Qle_trans with (inject_Z (-1)); [|discriminate].
        rewrite <- Zle_Qle. exact Hneg.
      * apply Qle_trans with (inject_Z (-1)); [|discriminate].
        rewrite <- Zle_Qle. exact Hle.
    + assert (z = 0%Z) by lia. rewrite (Hzero H), H. reflexivity.
  - rewrite (clamp_high (inject_Z z)), (clamp_high (inject_Z (nearest_float z)));
      [reflexivity | |].
    + specialize (Hpos Hge). apply Qle_trans with (inject_Z 1); [discriminate|].
      rewrite <- Zle_Qle. exact Hpos.
    + apply Qle_trans with (inject_Z 1); [discriminate|].
      rewrite <- Zle_Qle. exact Hge.
Qed.

(** C8, as amended.  A numeric [threshold] that [float] converts leaves
    the detector, whatever else the request does, with that number
    clamped to [0.1, 1.0]: the stored threshold is
    [max(0.1, min(1.0, v))] for the converted value [v], which is also
    the clamp of the number as sent (the rounding of a large int does
    not show); -5 gives 0.1, 50 gives 1.0, and a number in the range is
    stored as it is.  The only numbers [float] does not convert are the
    ints that round to [2^1024] or beyond: the conversion raises inside
    the guarded block and the threshold stays as it was. *)
Theorem numeric_override_clamped
    (cfg : Config) (inp : Inputs) (img : ImageField Frame) (app : App Frame)
    (n : JsonNumber) (q : Q) :
  let stored (x : JsonNumber) :=
    Detector.accident_threshold
      (detector (snd (detect_accident cfg inp
                        (mkRequest img (threshold_of_number x)) app))) in
  (forall v, float_of_number n = Some v ->
             clamp v = Finite (stored n)
             /\ clamp v = clamp (number_value n)
             /\ 0.1 <= stored n /\ stored n <= 1.0)
  /\ (float_of_number n = None ->
      (exists z, n = JsonInt z /\ (2 ^ 1024 <= Z.abs (nearest_float z))%Z)
      /\ stored n = Detector.accident_threshold (detector app))
  /\ stored (JsonInt (-5)) = 0.1
  /\ stored (JsonInt 50) = 1.0
  /\ (q <= 0.1 -> stored (JsonFloat (Finite q)) = 0.1)
  /\ (1.0 <= q -> stored (JsonFloat (Finite q)) = 1.0)
  /\ (0.1 <= q -> q <= 1.0 -> stored (JsonFloat (Finite q)) == q).
Proof.
  cbv beta zeta.
  pose proof (fun x => converted_override_clamped cfg inp img app x q) as Hc.
  cbv beta zeta in Hc.
  split.
  { intros v Hv. unfold threshold_of_number. rewrite Hv.
    destruct (Hc v) as (E & Hr & _).
    split; [exact E|]. split; [|exact Hr].
    destruct n as [z|w]; cbn in Hv.
    - unfold float_of_int in Hv.
      destruct (Z.abs (nearest_float z) <? 2 ^ 1024)%Z; [|discriminate].
      inversion Hv. apply clamp_nearest_float.
    - inversion Hv. reflexivity. }
  split.
  { intros Hn. split.
    - destruct n as [z|w]; cbn in Hn; [|discriminate].
      exists z. split; [reflexivity|].
      unfold float_of_int in Hn.
      destruct (Z.abs (nearest_float z) <? 2 ^ 1024)%Z eqn:E; [discriminate|].
      apply Z.ltb_ge in E. exact E.
    - unfold threshold_of_number. rewrite Hn. rewrite route_threshold. reflexivity. }
  destruct (Hc (Finite q)) as (_ & _ & Hlow & Hhigh & Hin & Hm5 & H50 & _).
  split; [exact Hm5|]. split; [exact H50|].
  split; [exact Hlow|]. split; [exact Hhigh | exact Hin].
Qed.

(** C10. When an accident-positive evaluation passes the cooldown
    gate, the answer of [/detect] carries [alert_sent = True] and
    [last_alert_time] is advanced to the clock reading, whatever
    [send_alert] answered; when the MongoDB insert raises,
    [send_alert] answers [False] after logging the error, and the
    same holds.  Every accident-positive evaluation within the next
    [ALERT_COOLDOWN_SECONDS] is then suppressed: no dispatch is
    attempted and the stores are left as they are. *)
Theorem alert_sent_whatever_dispatch_did
    (cfg : Config) (inp : Inputs) (req : Request Frame) (app : App Frame)
    (r' : Result) (app' : App Frame) :
  detect_accident cfg inp req app = (Json r', app') ->
  accident_detected r' = true ->
  Gate.passes (cooldown cfg) (last_alert_time app) (clock inp) = true ->
  alert_sent r' = Some true
  /\ alert_suppressed r' = Some false
  /\ last_alert_time app' = clock inp
  /\ (Dispatch.accidents_collection (sinks cfg) = true ->
      Dispatch.insert_one_raises (world inp) = true ->
      forall d,
        Dispatch.send_alert (sinks cfg) (world inp) (record_stamp inp) d (store app)
        = (Dispatch.Ok false, Dispatch.add_log (store app) [Dispatch.AlertErrorLogged])
        /\ store app' = Dispatch.add_log (store app) [Dispatch.AlertErrorLogged])
  /\ (forall inp2 req2 r2 app2,
        detect_accident cfg inp2 req2 app' = (Json r2, app2) ->
        accident_detected r2 = true ->
        clock inp2 - clock inp < inject_Z (cooldown cfg) ->
        alert_sent r2 = Some false
        /\ alert_suppressed r2 = Some true
        /\ store app2 = store app'
        /\ last_alert_time app2 = clock inp).
Proof.
  intros Hroute Hacc Hpass.
  destruct (route_ends_in_alert_stage _ _ _ _ _ _ Hroute)
    as (r & app0 & Hstage & Hlast & Hstore).
  destruct (alert_stage_spec cfg inp r app0)
    as (r1 & app1 & E & Ha & _ & _ & _ & _ & _ & Hp & _).
  rewrite E in Hstage. inversion Hstage; subst r1 app1.
  rewrite Hacc in Ha. symmetry in Ha. rewrite Hlast in Hp.
  destruct (Hp Ha Hpass) as (Hsent & Hsup & Hnew).
  split; [exact Hsent|]. split; [exact Hsup|]. split; [exact Hnew|].
  split.
  - intros Hc Hi d. split.
    + apply DispatchFacts.send_alert_primary_raises; assumption.
    + clear Hp. unfold alert_stage, Gate.check in E.
      rewrite Ha, Hlast, Hpass in E.
      unfold Dispatch.send_alert in E.
      rewrite DispatchFacts.send_alert_primary_raises in E by assumption.
      inversion E. cbn [store]. rewrite Hstore. reflexivity.
  - intros inp2 req2 r2 app2 Hroute2 Hacc2 Hclose.
    destruct (route_ends_in_alert_stage _ _ _ _ _ _ Hroute2)
      as (q & app3 & Hstage2 & Hlast2 & Hstore2).
    destruct (alert_stage_spec cfg inp2 q app3)
      as (q1 & app4 & E2 & Ha2 & _ & _ & _ & _ & _ & _ & Hf & _).
    rewrite E2 in Hstage2. inversion Hstage2; subst q1 app4.
    rewrite Hacc2 in Ha2. symmetry in Ha2.
    assert (Hfail : Gate.passes (cooldown cfg) (last_alert_time app3) (clock inp2) = false).
    { apply GateFacts.fails_iff. rewrite Hlast2, Hnew. exact Hclose. }
    destruct (Hf Ha2 Hfail) as (Hsent2 & Hsup2 & Happ).
    subst app3. repeat split; try assumption.
    rewrite Hlast2. exact Hnew.
Qed.

(** C7, as amended.  Without the vision libraries the route answers
    with a synthetic outcome flagged [demo_mode = True]: its
    confidence is the draw of [uniform(0.1, 0.95)], its vehicle count
    the draw of [randint(0, 3)], and [accident_detected] is the
    independent draw [random() > 0.8], not the threshold rule.  The
    mock branch of [AccidentDetector.detect_accident] (libraries or
    model missing) answers with the draw of [uniform(0.1, 0.9)] as
    score, the draw of [randint(0, 3)] as vehicle count, no boxes,
    and [is_accident] by the rule score above the running threshold
    and at least one vehicle, leaving the detector state alone. *)
Theorem degraded_mode_outcomes
    (cfg : Config) (inp : Inputs) (req : Request Frame) (app : App Frame)
    (e : Detector.Env) (m : Detector.MockDraws)
    (self : Detector.State Frame) (frame : Frame) :
  (negb (Detector.COMPUTER_VISION_AVAILABLE (env cfg))
   || negb (Detector.YOLO_AVAILABLE (env cfg)) = true ->
   image req <> ImageMissing ->
   valid_route_draws (route_draws inp) ->
   exists r,
     fst (detect_accident cfg inp req app) = Json r
     /\ demo_mode r = Some true
     /\ accident_detected r = Qltb 0.8 (draw_random (route_draws inp))
     /\ confidence r = draw_confidence (route_draws inp)
     /\ (0.1 <= confidence r /\ confidence r <= 0.95)
     /\ vehicles_detected r = draw_vehicles (route_draws inp)
     /\ (0 <= vehicles_detected r <= 3)%Z
     /\ boxes r = [])
  /\ (degraded e = true ->
      valid_mock_draws m ->
      let out := fst (Detector.detect_accident e m self frame) in
      snd (Detector.detect_accident e m self frame) = self
      /\ Detector.accident_score out = Detector.draw_score m
      /\ (0.1 <= Detector.accident_score out /\ Detector.accident_score out <= 0.9)
      /\ Detector.vehicles_detected out = Detector.draw_vehicles m
      /\ (0 <= Detector.vehicles_detected out <= 3)%Z
      /\ Detector.boxes_info out = []
      /\ Detector.is_accident out
         = Detector.raw_condition (Detector.accident_threshold self)
             (Detector.accident_score out) (Detector.vehicles_detected out)).
Proof.
  split.
  - intros Hdemo Himg (Hrand & Hconf & Hveh).
    unfold detect_accident. rewrite Hdemo.
    match goal with
    | |- context [alert_stage ?c ?i ?r ?a] =>
        destruct (alert_stage_spec c i r a)
          as (r' & app' & E & Ha & Hc & Hv & Hb & Hm & _)
    end.
    cbn in Ha, Hc, Hv, Hb, Hm.
    exists r'.
    split.
    + destruct (image req); [congruence | rewrite E; reflexivity | rewrite E; reflexivity].
    + rewrite Ha, Hc, Hv, Hb, Hm. repeat split; tauto || lia || auto.
  - intros Hdeg (Hscore & Hveh). cbv zeta.
    unfold degraded in Hdeg.
    unfold Detector.detect_accident. rewrite Hdeg.
    unfold Detector.detect_accident_mock. cbn.
    repeat split; tauto || lia || auto.
Qed.

End WithVision.

(** An override of 0.7 is stored; the int [2^53 + 1], which [float]
    rounds, ends at the upper bound. *)
Lemma numeric_override_clamped_witness :
  Detector.accident_threshold
    (detector
       (snd (@detect_accident Q Detector.grey_vision demo_config
               (inputs_at 1700000000 accident_draws some_mock_draws Dispatch.calm_world)
               (mkRequest ImageMissing (threshold_of_number (JsonFloat (Finite 0.7))))
               initial_app)))
  == 0.7
  /\ float_of_number (JsonInt 9007199254740993) = Some (Finite 9007199254740992)
  /\ clamp (Finite 9007199254740992)
     = Finite
         (Detector.accident_threshold
            (detector
               (snd (@detect_accident Q Detector.grey_vision demo_config
                       (inputs_at 1700000000 accident_draws some_mock_draws
                                  Dispatch.calm_world)
                       (mkRequest ImageMissing
                                  (threshold_of_number (JsonInt 9007199254740993)))
                       initial_app)))).
Proof.
  pose proof (@numeric_override_clamped Q Detector.grey_vision demo_config
                (inputs_at 1700000000 accident_draws some_mock_draws Dispatch.calm_world)
                ImageMissing initial_app (JsonInt 9007199254740993) 0.7)
    as (Hconv & _ & _ & _ & _ & _ & Hin).
  split; [apply Hin; vm_compute; discriminate|].
  assert (E : float_of_number (JsonInt 9007199254740993)
              = Some (Finite 9007199254740992)) by (vm_compute; reflexivity).
  split; [exact E|].
  exact (proj1 (Hconv _ E)).
Defined.

(** C8, as stated, fails: the int [10^400] is a number, [float] raises
    on it, and the threshold stays at 0.5 where its clamp is 1.0. *)
Lemma huge_override_not_clamped :
  threshold_of_number (JsonInt (10 ^ 400)) = ThresholdNotFloat
  /\ Detector.accident_threshold
       (detector
          (snd (@detect_accident Q Detector.grey_vision demo_config
                  (inputs_at 1700000000 accident_draws some_mock_draws
                             Dispatch.calm_world)
                  (mkRequest ImageMissing (threshold_of_number (JsonInt (10 ^ 400))))
                  initial_app)))
     = 0.5
  /\ clamp (number_value (JsonInt (10 ^ 400))) = Finite 1.0
  /\ ~ @every_number_clamped Q Detector.grey_vision.
Proof.
  split; [vm_compute; reflexivity|].
  split; [vm_compute; reflexivity|].
  split; [vm_compute; reflexivity|].
  intros H.
  specialize (H demo_config
                (inputs_at 1700000000 accident_draws some_mock_draws Dispatch.calm_world)
                ImageMissing initial_app (JsonInt (10 ^ 400))).
  vm_compute in H. discriminate H.
Qed.

(** The MongoDB insert raises: [send_alert] answers [False], the answer
    of the route says [alert_sent], and the cooldown has started. *)
Lemma alert_sent_whatever_dispatch_did_witness :
  let out :=
    @detect_accident Q Detector.grey_vision mongo_demo_config
      (inputs_at 1700000000 accident_draws some_mock_draws Dispatch.mongo_down)
      plain_request initial_app in
  (exists r, fst out = Json r /\ alert_sent r = Some true)
  /\ last_alert_time (snd out) = 1700000000
  /\ store (snd out)
     = Dispatch.add_log Dispatch.empty_store [Dispatch.AlertErrorLogged].
Proof.
  cbv zeta.
  destruct (@detect_accident Q Detector.grey_vision mongo_demo_config
              (inputs_at 1700000000 accident_draws some_mock_draws Dispatch.mongo_down)
              plain_request initial_app) as [resp app'] eqn:E.
  destruct resp as [| |r]; try (vm_compute in E; discriminate).
  destruct (@alert_sent_whatever_dispatch_did Q Detector.grey_vision
              mongo_demo_config _ _ _ r app' E)
    as (Hsent & _ & Hlast & Hfail & _).
  - vm_compute in E. inversion E. reflexivity.
  - vm_compute. reflexivity.
  - cbn [fst snd]. split; [exists r; split; [reflexivity | exact Hsent]|].
    split; [exact Hlast|].
    apply (Hfail eq_refl eq_refl Dispatch.sample_data).
Defined.

Lemma degraded_mode_outcomes_witness :
  (exists r,
      fst (@detect_accident Q Detector.grey_vision demo_config
             (inputs_at 1700000000 accident_draws some_mock_draws Dispatch.calm_world)
             plain_request initial_app) = Json r
      /\ demo_mode r = Some true
      /\ accident_detected r = true)
  /\ Detector.is_accident
       (fst (@Detector.detect_accident Q Detector.grey_vision model_missing_env
               some_mock_draws Detector.init 0))
     = true.
Proof.
  destruct (@degraded_mode_outcomes Q Detector.grey_vision demo_config
              (inputs_at 1700000000 accident_draws some_mock_draws Dispatch.calm_world)
              plain_request initial_app model_missing_env some_mock_draws
              Detector.init 0)
    as [Hroute Hmock].
  split.
  - destruct Hroute as (r & E & Hdemo & Hacc & _).
    + reflexivity.
    + discriminate.
    + vm_compute. intuition discriminate.
    + exists r. split; [exact E|]. split; [exact Hdemo|].
      rewrite Hacc. vm_compute. reflexivity.
  - destruct Hmock as (_ & _ & _ & _ & _ & _ & Hrule).
    + reflexivity.
    + vm_compute. intuition discriminate.
    + rewrite Hrule. vm_compute. reflexivity.
Defined.

(** C7, as stated, fails on both degraded paths.  Without the vision
    libraries the route can report an accident with no vehicle at all
    and a confidence of 0.95; with the libraries present and the model
    missing the answer, drawn by the mock branch of the detector, has no
    [demo_mode] key. *)
Lemma degraded_contract_fails :
  valid_route_draws lucky_draws
  /\ ~ @degraded_contract Q Detector.grey_vision demo_config
         (inputs_at 1700000000 lucky_draws some_mock_draws Dispatch.calm_world)
         plain_request initial_app
  /\ valid_mock_draws some_mock_draws
  /\ ~ @degraded_contract Q Detector.grey_vision model_missing_config
         (inputs_at 1700000000 lucky_draws some_mock_draws Dispatch.calm_world)
         plain_request initial_app.
Proof.
  split; [vm_compute; intuition discriminate|].
  split.
  - intros H. specialize (H eq_refl). vm_compute in H.
    destruct H as ((_ & Hc) & _). apply Hc. reflexivity.
  - split; [vm_compute; intuition discriminate|].
    intros H. specialize (H eq_refl). vm_compute in H.
    destruct H as (_ & _ & _ & Hflag). discriminate.
Qed.

End RouteFacts.

(* ================================================================== *)
(** * Part III: further properties of the code                          *)
(* ================================================================== *)

(** ** The detector, on any detector output *)

Module DetectorCasesFacts.
Import Detector DetectorCases.

Section WithVision.
Context {Frame : Type} {V : Vision Frame}.

(** The loop over the entries never changes the threshold. *)
Lemma results_loop_keeps_threshold (frame : Frame) results :
  forall self acc,
    accident_threshold (snd (results_loop self frame acc results))
    = accident_threshold self.
Proof.
  induction results as [|r rest IH]; intros self acc; cbn [results_loop].
  - reflexivity.
  - destruct (after_boxes self frame acc r); [|reflexivity].
    cbn zeta. destruct (raw_condition _ _ _).
    + destruct (negb _); [reflexivity|]. rewrite IH. reflexivity.
    + rewrite IH. reflexivity.
Qed.

(** A call that fires has just seen the condition hold. *)
Lemma results_loop_fires (frame : Frame) results :
  forall self acc,
    is_accident (fst (results_loop self frame acc results)) = true ->
    raw_condition (accident_threshold self)
                  (accident_score (fst (results_loop self frame acc results)))
                  (vehicles_detected (fst (results_loop self frame acc results)))
    = true
    /\ accident_detected (snd (results_loop self frame acc results)) = true
    /\ previous_frame (snd (results_loop self frame acc results)) = Some frame.
Proof.
  induction results as [|r rest IH]; intros self acc; cbn [results_loop].
  - cbn. discriminate.
  - destruct (after_boxes self frame acc r) as [acc'|]; [|cbn; discriminate].
    cbn zeta. cbn [set_previous_frame accident_threshold accident_detected].
    destruct (raw_condition (accident_threshold self) (acc_score acc') (acc_vehicles acc'))
      eqn:Eraw.
    + destruct (negb (accident_detected self)) eqn:Ef.
      * intros _. cbn. repeat split. exact Eraw.
      * intros H. apply IH in H. exact H.
    + intros H. apply IH in H. exact H.
Qed.

(** X1. Whatever the detector returns (any number of entries, any
    boxes), and on either branch, [detect_accident] reports an accident
    only with a score above the running threshold and at least one
    vehicle; on the model-backed branch the flag is then set and the
    frame has become the previous frame. *)
Theorem accident_only_above_threshold
    (env : Env) (d : MockDraws) (self : State Frame) (frame : Frame) :
  is_accident (fst (detect_accident env d self frame)) = true ->
  accident_threshold self < accident_score (fst (detect_accident env d self frame))
  /\ (0 < vehicles_detected (fst (detect_accident env d self frame)))%Z
  /\ (negb (COMPUTER_VISION_AVAILABLE env) || negb (YOLO_AVAILABLE env)
      || model_is_none env = false ->
      accident_detected (snd (detect_accident env d self frame)) = true
      /\ previous_frame (snd (detect_accident env d self frame)) = Some frame).
Proof.
  unfold detect_accident.
  destruct (negb (COMPUTER_VISION_AVAILABLE env) || negb (YOLO_AVAILABLE env)
            || model_is_none env).
  - unfold detect_accident_mock. cbn [fst snd is_accident accident_score vehicles_detected].
    unfold raw_condition. intros H. apply andb_true_iff in H. destruct H as [H1 H2].
    apply Qltb_lt in H1. apply Z.ltb_lt in H2.
    split; [exact H1|]. split; [exact H2|]. discriminate.
  - unfold detect_accident_model.
    destruct (yolo frame) as [results|]; [|cbn; discriminate].
    intros H. destruct (results_loop_fires frame results self acc0 H) as (Hraw & Hf & Hp).
    unfold raw_condition in Hraw. apply andb_true_iff in Hraw. destruct Hraw as [H1 H2].
    apply Qltb_lt in H1. apply Z.ltb_lt in H2.
    split; [exact H1|]. split; [exact H2|]. intros _. split; assumption.
Qed.

(** A vehicle box makes the inner loop raise when the motion cannot be
    computed. *)
Lemma boxes_loop_raises (self : State Frame) (frame prev : Frame) bs :
  previous_frame self = Some prev ->
  motion_score frame prev = None ->
  filter is_vehicle bs <> [] ->
  forall acc, boxes_loop self frame acc bs = None.
Proof.
  intros Hp Hm. induction bs as [|b bs IH]; intros Hne acc.
  - contradiction.
  - cbn [boxes_loop]. unfold box_step. cbn [filter] in Hne.
    destruct (is_vehicle b).
    + rewrite Hp, Hm. reflexivity.
    + apply IH. exact Hne.
Qed.

Lemma raises_on_call (self : State Frame) (prev frame : Frame) :
  previous_frame self = Some prev ->
  raises_on prev frame ->
  detect_accident_model self frame = (error_outcome, self).
Proof.
  intros Hp [(r & rest & Hy & Hs) Hm].
  unfold detect_accident_model. rewrite Hy. cbn [results_loop].
  unfold after_boxes. unfold survivors, all_boxes in Hs. cbn [flat_map] in Hs.
  rewrite app_nil_r in Hs.
  destruct (boxes r) as [bs|]; [|contradiction Hs; reflexivity].
  rewrite (boxes_loop_raises self frame prev bs Hp Hm Hs). reflexivity.
Qed.

(** X2. When the motion against the stored previous frame cannot be
    computed (the handler of [detect_accident] catches the exception),
    the call answers (False, 0, 0, []) and leaves the detector exactly as
    it was: the previous frame is not replaced.  So every later frame
    that raises against that same previous frame is answered the same
    way, however many follow. *)
Theorem error_path_keeps_state (self : State Frame) (prev : Frame) (frames : list Frame) :
  previous_frame self = Some prev ->
  Forall (raises_on prev) frames ->
  snd (run self frames) = self
  /\ Forall (fun f => detect_accident_model self f = (error_outcome, self)) frames
  /\ fst (run self frames)
     = map (fun _ => mkCall false false (accident_detected self)) frames.
Proof.
  intros Hp Hall. induction Hall as [|f fs Hf Hfs IH].
  - cbn. repeat split. constructor.
  - destruct IH as (IH1 & IH2 & IH3).
    pose proof (raises_on_call self prev f Hp Hf) as E.
    cbn [run map]. rewrite E.
    destruct (run self fs) as [cs self''] eqn:Er. cbn [fst snd] in *.
    subst self'' cs. split; [reflexivity|]. split.
    + constructor; assumption.
    + f_equal. cbn. unfold raw_condition. rewrite andb_false_r. reflexivity.
Qed.

(** Boxes that do not pass the filter leave the accumulators alone. *)
Lemma boxes_loop_no_vehicle (self : State Frame) (frame : Frame) bs :
  filter is_vehicle bs = [] ->
  forall acc, boxes_loop self frame acc bs = Some acc.
Proof.
  induction bs as [|b bs IH]; intros Hf acc.
  - reflexivity.
  - cbn [boxes_loop]. unfold box_step. cbn [filter] in Hf.
    destruct (is_vehicle b); [discriminate|]. apply IH. exact Hf.
Qed.

Lemma after_boxes_no_vehicle (self : State Frame) (frame : Frame) r acc :
  survivors r = [] -> after_boxes self frame acc r = Some acc.
Proof.
  unfold survivors, all_boxes, after_boxes. cbn [flat_map]. rewrite app_nil_r.
  destruct (boxes r) as [bs|]; [|reflexivity].
  intros H. apply boxes_loop_no_vehicle. exact H.
Qed.

Lemma results_loop_no_vehicle (frame : Frame) results :
  Forall (fun r => survivors r = []) results ->
  results <> [] ->
  forall self,
    results_loop self frame acc0 results
    = (mkOutcome false 0 0%Z [], mkState (accident_threshold self) (Some frame) false).
Proof.
  intros Hall. induction Hall as [|r rest Hr Hrest IH]; intros Hne self.
  - contradiction.
  - cbn [results_loop]. rewrite (after_boxes_no_vehicle self frame r acc0 Hr).
    cbn zeta. unfold raw_condition. cbn [acc0 acc_vehicles acc_score].
    rewrite andb_false_r.
    destruct rest as [|r' rest'].
    + reflexivity.
    + rewrite IH by discriminate. reflexivity.
Qed.

(** X3. A frame in which no detection passes the vehicle filter never
    raises (the motion is not even computed) and answers
    (False, 0, 0, []), whatever the threshold and the earlier state.
    When the detector output has at least one entry, however many, the
    call clears the flag and the frame becomes the previous frame; when
    the output has no entry the body of the loop never runs and the
    detector is left as it was, flag and previous frame included. *)
Theorem no_vehicle_resets (self : State Frame) (frame : Frame) (results : list Result) :
  yolo frame = Some results ->
  Forall (fun r => survivors r = []) results ->
  fst (detect_accident_model self frame) = mkOutcome false 0 0%Z []
  /\ (results <> [] ->
      snd (detect_accident_model self frame)
      = mkState (accident_threshold self) (Some frame) false)
  /\ (results = [] -> snd (detect_accident_model self frame) = self).
Proof.
  intros Hy Hall. unfold detect_accident_model. rewrite Hy.
  destruct results as [|r rest].
  - cbn. split; [reflexivity|]. split; [intros H; contradiction H | ]; reflexivity.
  - rewrite (results_loop_no_vehicle frame (r :: rest) Hall) by discriminate.
    cbn. split; [reflexivity|]. split; [reflexivity | discriminate].
Qed.

(** Without motion evidence the boxes are counted and the score stays. *)
Lemma boxes_loop_counts_only (self : State Frame) (frame : Frame) bs :
  (previous_frame self = None
   \/ exists prev m, previous_frame self = Some prev
                     /\ motion_score frame prev = Some m /\ m <= 0.15) ->
  forall acc, exists acc',
    boxes_loop self frame acc bs = Some acc'
    /\ acc_score acc' = acc_score acc
    /\ acc_vehicles acc' = (acc_vehicles acc + Z.of_nat (List.length (filter is_vehicle bs)))%Z.
Proof.
  intros Hcase. induction bs as [|b bs IH]; intros acc.
  - exists acc. cbn. repeat split. lia.
  - cbn [boxes_loop filter]. unfold box_step.
    destruct (is_vehicle b).
    + destruct Hcase as [Hn | (prev & m & Hp & Hm & Hle)].
      * rewrite Hn.
        match goal with
        | |- context [boxes_loop self frame ?a bs] => destruct (IH a) as (acc' & E & Hs & Hv)
        end.
        exists acc'. rewrite E. cbn [acc_score acc_vehicles List.length] in *.
        repeat split; [exact Hs | lia].
      * rewrite Hp, Hm.
        assert (E0 : Qltb 0.15 m = false) by (apply Qltb_ge; exact Hle).
        rewrite E0.
        match goal with
        | |- context [boxes_loop self frame ?a bs] => destruct (IH a) as (acc' & E & Hs & Hv)
        end.
        exists acc'. rewrite E. cbn [acc_score acc_vehicles List.length] in *.
        repeat split; [exact Hs | lia].
    + apply IH.
Qed.

Lemma survivors_single (r : Result) :
  survivors r = filter is_vehicle (match boxes r with Some bs => bs | None => [] end).
Proof.
  unfold survivors, all_boxes. cbn [flat_map]. rewrite app_nil_r. reflexivity.
Qed.

(** X4. Without motion evidence there is no alert.  On the first frame
    of a stream (no previous frame) and on a frame whose motion score is
    at most 0.15, the vehicles are counted but the score stays 0, however
    many detections pass the filter; the frame becomes the previous
    frame, and with a threshold that is not negative (as every threshold
    the route stores is) the call does not fire and clears the flag. *)
Theorem no_motion_no_alert (self : State Frame) (frame : Frame) (r : Result) :
  yolo frame = Some [r] ->
  (previous_frame self = None
   \/ exists prev m, previous_frame self = Some prev
                     /\ motion_score frame prev = Some m /\ m <= 0.15) ->
  accident_score (fst (detect_accident_model self frame)) = 0
  /\ vehicles_detected (fst (detect_accident_model self frame))
     = Z.of_nat (List.length (survivors r))
  /\ previous_frame (snd (detect_accident_model self frame)) = Some frame
  /\ (0 <= accident_threshold self ->
      is_accident (fst (detect_accident_model self frame)) = false
      /\ accident_detected (snd (detect_accident_model self frame)) = false).
Proof.
  intros Hy Hcase.
  assert (Hacc : exists acc',
             after_boxes self frame acc0 r = Some acc'
             /\ acc_score acc' = 0
             /\ acc_vehicles acc' = Z.of_nat (List.length (survivors r))).
  { rewrite survivors_single. unfold after_boxes.
    destruct (boxes r) as [bs|].
    - destruct (boxes_loop_counts_only self frame bs Hcase acc0) as (acc' & E & Hs & Hv).
      exists acc'. repeat split; assumption.
    - exists acc0. repeat split. }
  destruct Hacc as (acc' & E & Hs & Hv).
  rewrite (DetectorFacts.model_single_result self frame r acc' Hy E).
  cbn [fst snd accident_score vehicles_detected is_accident previous_frame
       accident_detected set_accident_detected set_previous_frame].
  rewrite Hs, Hv. repeat split.
  - unfold raw_condition.
    assert (Hlt : Qltb (accident_threshold self) 0 = false) by (apply Qltb_ge; assumption).
    rewrite Hlt. reflexivity.
  - unfold raw_condition.
    assert (Hlt : Qltb (accident_threshold self) 0 = false) by (apply Qltb_ge; assumption).
    rewrite Hlt. reflexivity.
Qed.

(** *** The boxes handed to the front end *)

Lemma box_step_overlay (self : State Frame) (frame : Frame) acc b acc' :
  box_step self frame acc b = Some acc' ->
  Forall overlay_ok (acc_boxes acc) ->
  (Z.of_nat (List.length (acc_boxes acc)) <= acc_vehicles acc)%Z ->
  Forall overlay_ok (acc_boxes acc')
  /\ (Z.of_nat (List.length (acc_boxes acc')) <= acc_vehicles acc')%Z.
Proof.
  unfold box_step. intros Hstep Hall Hlen.
  destruct (is_vehicle b) eqn:Ev.
  - assert (Hok : forall c, overlay_ok (box_info b c)).
    { intros [[[a1 b1] a2] b2]. unfold overlay_ok, box_info. cbn.
      unfold is_vehicle in Ev. apply andb_true_iff in Ev. destruct Ev as [Hc Hq].
      split.
      - apply existsb_exists in Hc. destruct Hc as (z & Hin & Hz).
        apply Z.eqb_eq in Hz. rewrite Hz. exact Hin.
      - apply Qltb_lt. exact Hq. }
    assert (Hinfos :
      Forall overlay_ok (match box_xyxy b with
                         | Some c => acc_boxes acc ++ [box_info b c]
                         | None => acc_boxes acc
                         end)
      /\ (Z.of_nat (List.length (match box_xyxy b with
                                 | Some c => acc_boxes acc ++ [box_info b c]
                                 | None => acc_boxes acc
                                 end)) <= acc_vehicles acc + 1)%Z).
    { destruct (box_xyxy b) as [c|].
      - split.
        + apply Forall_app. split; [exact Hall|]. constructor; [apply Hok | constructor].
        + rewrite length_app. cbn. lia.
      - split; [exact Hall | lia]. }
    destruct (previous_frame self) as [prev|].
    + destruct (motion_score frame prev) as [m|]; [|discriminate].
      destruct (Qltb 0.15 m); inversion Hstep; subst acc'; cbn; exact Hinfos.
    + inversion Hstep; subst acc'; cbn; exact Hinfos.
  - inversion Hstep; subst acc'. split; assumption.
Qed.

Lemma boxes_loop_overlay (self : State Frame) (frame : Frame) bs :
  forall acc acc',
    boxes_loop self frame acc bs = Some acc' ->
    Forall overlay_ok (acc_boxes acc) ->
    (Z.of_nat (List.length (acc_boxes acc)) <= acc_vehicles acc)%Z ->
    Forall overlay_ok (acc_boxes acc')
    /\ (Z.of_nat (List.length (acc_boxes acc')) <= acc_vehicles acc')%Z.
Proof.
  induction bs as [|b bs IH]; intros acc acc' Hloop Hall Hlen; cbn [boxes_loop] in Hloop.
  - inversion Hloop; subst. split; assumption.
  - destruct (box_step self frame acc b) as [acc1|] eqn:Es; [|discriminate].
    destruct (box_step_overlay self frame acc b acc1 Es Hall Hlen) as [H1 H2].
    exact (IH acc1 acc' Hloop H1 H2).
Qed.

Lemma results_loop_overlay (frame : Frame) results :
  forall self acc,
    Forall overlay_ok (acc_boxes acc) ->
    (Z.of_nat (List.length (acc_boxes acc)) <= acc_vehicles acc)%Z ->
    Forall overlay_ok (boxes_info (fst (results_loop self frame acc results)))
    /\ (Z.of_nat (List.length (boxes_info (fst (results_loop self frame acc results))))
        <= vehicles_detected (fst (results_loop self frame acc results)))%Z.
Proof.
  induction results as [|r rest IH]; intros self acc Hall Hlen; cbn [results_loop].
  - cbn. split; assumption.
  - destruct (after_boxes self frame acc r) as [acc'|] eqn:Ea.
    + assert (Hacc : Forall overlay_ok (acc_boxes acc')
                     /\ (Z.of_nat (List.length (acc_boxes acc')) <= acc_vehicles acc')%Z).
      { unfold after_boxes in Ea. destruct (boxes r) as [bs|].
        - exact (boxes_loop_overlay self frame bs acc acc' Ea Hall Hlen).
        - inversion Ea; subst. split; assumption. }
      destruct Hacc as [H1 H2]. cbn zeta.
      destruct (raw_condition _ _ _).
      * destruct (negb _); [cbn; split; assumption | apply IH; assumption].
      * apply IH; assumption.
    + cbn. split; [constructor | lia].
Qed.

(** X6. The boxes returned for the overlay are detections that passed
    the vehicle filter: each has a class among 2, 3, 5, 7 and a
    confidence above 0.3, and there are never more of them than vehicles
    counted (fewer when the coordinates of a box cannot be unpacked),
    whatever the detector returns and also when the call ends in the
    handler. *)
Theorem overlay_boxes_are_vehicles (self : State Frame) (frame : Frame) :
  Forall overlay_ok (boxes_info (fst (detect_accident_model self frame)))
  /\ (Z.of_nat (List.length (boxes_info (fst (detect_accident_model self frame))))
      <= vehicles_detected (fst (detect_accident_model self frame)))%Z.
Proof.
  unfold detect_accident_model.
  destruct (yolo frame) as [results|].
  - apply results_loop_overlay; cbn; [constructor | lia].
  - cbn. split; [constructor | lia].
Qed.

End WithVision.

Lemma accident_only_above_threshold_witness :
  0.5 < accident_score
          (fst (@detect_accident Q grey_vision (mkEnv true true false)
                  (mkMockDraws 0.7 2) (mkState 0.5 (Some 0) false) 255))
  /\ Z.lt 0%Z
       (vehicles_detected
          (fst (@detect_accident Q grey_vision (mkEnv true true false)
                  (mkMockDraws 0.7 2) (mkState 0.5 (Some 0) false) 255))).
Proof.
  destruct (@accident_only_above_threshold Q grey_vision (mkEnv true true false)
              (mkMockDraws 0.7 2) (mkState 0.5 (Some 0) false) 255)
    as (H1 & H2 & _).
  - vm_compute. reflexivity.
  - split; assumption.
Defined.

(** The camera switches from size 1 to size 2: every frame of the new
    size is answered by the handler and the old frame stays. *)
Lemma error_path_keeps_state_witness :
  snd (@run (nat * Q) sized_vision (mkState 0.5 (Some (1%nat, 0)) true)
         [(2%nat, 255); (2%nat, 0); (2%nat, 255)])
  = mkState 0.5 (Some (1%nat, 0)) true.
Proof.
  apply (@error_path_keeps_state (nat * Q) sized_vision
           (mkState 0.5 (Some (1%nat, 0)) true) (1%nat, 0)).
  - reflexivity.
  - repeat constructor;
      (exists one_car, []; split; [reflexivity | vm_compute; discriminate]).
Defined.

Lemma no_vehicle_resets_witness :
  @detect_accident_model Q empty_road (mkState 0.5 (Some 0) true) 255
  = (mkOutcome false 0 0%Z [], mkState 0.5 (Some 255) false)
  /\ @detect_accident_model Q no_results (mkState 0.5 (Some 0) true) 255
     = (mkOutcome false 0 0%Z [], mkState 0.5 (Some 0) true).
Proof.
  destruct (@no_vehicle_resets Q empty_road (mkState 0.5 (Some 0) true) 255
              [mkResult (Some [mkBox 0 0.9 None; mkBox 2 0.2 None])]
              eq_refl ltac:(repeat constructor))
    as (Hout & Hstate & _).
  destruct (@no_vehicle_resets Q no_results (mkState 0.5 (Some 0) true) 255
              [] eq_refl ltac:(constructor))
    as (Hout' & _ & Hstate').
  split.
  - rewrite (surjective_pairing (@detect_accident_model Q empty_road _ _)).
    rewrite Hout, Hstate by discriminate. reflexivity.
  - rewrite (surjective_pairing (@detect_accident_model Q no_results _ _)).
    rewrite Hout', Hstate' by reflexivity. reflexivity.
Defined.

(** The first frame of the grey camera, and an unchanged second one. *)
Lemma no_motion_no_alert_witness :
  is_accident (fst (@detect_accident_model Q grey_vision init 255)) = false
  /\ is_accident (fst (@detect_accident_model Q grey_vision (mkState 0.5 (Some 255) true) 255))
     = false.
Proof.
  split.
  - apply (@no_motion_no_alert Q grey_vision init 255 one_car).
    + reflexivity.
    + left. reflexivity.
    + vm_compute. discriminate.
  - apply (@no_motion_no_alert Q grey_vision (mkState 0.5 (Some 255) true) 255 one_car).
    + reflexivity.
    + right. exists 255, (Qabs (255 - 255) / 255).
      split; [reflexivity|]. split; [reflexivity|]. vm_compute. discriminate.
    + vm_compute. discriminate.
Defined.

End DetectorCasesFacts.

(** ** The dispatcher and the history *)

Module DispatchCasesFacts.
Import Dispatch History.

Lemma not_configured cfg :
  (SMTP_HOST cfg = ""%string \/ SMTP_PORT cfg = 0%Z \/ SMTP_USER cfg = ""%string
   \/ SMTP_PASSWORD cfg = ""%string \/ ALERT_EMAILS cfg = []) ->
  smtp_configured cfg = false.
Proof.
  unfold smtp_configured, truthy_str, truthy_int, truthy_list.
  intros [H | [H | [H | [H | H]]]]; rewrite H; cbn;
    repeat (rewrite ?andb_false_r, ?andb_false_l); reflexivity.
Qed.

Lemma all_configured cfg :
  SMTP_HOST cfg <> ""%string -> SMTP_PORT cfg <> 0%Z -> SMTP_USER cfg <> ""%string ->
  SMTP_PASSWORD cfg <> ""%string -> ALERT_EMAILS cfg <> [] ->
  smtp_configured cfg = true.
Proof.
  unfold smtp_configured, truthy_str, truthy_int, truthy_list.
  intros H1 H2 H3 H4 H5.
  apply String.eqb_neq in H1, H3, H4. apply Z.eqb_neq in H2.
  rewrite H1, H2, H3, H4. destruct (ALERT_EMAILS cfg); [contradiction | reflexivity].
Qed.

(** X7. [send_email_alert] never raises.  With any one of host, port,
    user, password or recipients unset it answers [False] without
    contacting the server and without printing anything; with all five
    set it makes one attempt, answers [True] when the attempt goes
    through, and prints the failure and answers [False] when it
    raises. *)
Theorem email_needs_every_setting (cfg : Config) (w : World) (s : Store) :
  ((SMTP_HOST cfg = ""%string \/ SMTP_PORT cfg = 0%Z \/ SMTP_USER cfg = ""%string
    \/ SMTP_PASSWORD cfg = ""%string \/ ALERT_EMAILS cfg = []) ->
   send_email_alert cfg w s = (Ok false, s))
  /\ (SMTP_HOST cfg <> ""%string -> SMTP_PORT cfg <> 0%Z -> SMTP_USER cfg <> ""%string ->
      SMTP_PASSWORD cfg <> ""%string -> ALERT_EMAILS cfg <> [] ->
      send_email_alert cfg w s
      = (Ok (negb (smtp_raises w)),
         add_log s [if smtp_raises w then EmailFailedLogged else EmailSent])).
Proof.
  split.
  - intros H. rewrite DispatchFacts.send_email_alert_spec.
    unfold email_events. rewrite (not_configured cfg H).
    rewrite DispatchFacts.add_log_nil. reflexivity.
  - intros H1 H2 H3 H4 H5. rewrite DispatchFacts.send_email_alert_spec.
    unfold email_events. rewrite (all_configured cfg H1 H2 H3 H4 H5). reflexivity.
Qed.

Lemma email_needs_every_setting_witness :
  send_email_alert Seed.bare calm_world empty_store = (Ok false, empty_store)
  /\ send_email_alert full_config (mkWorld false (fun _ => false) false true) empty_store
     = (Ok false, add_log empty_store [EmailFailedLogged]).
Proof.
  split.
  - apply (email_needs_every_setting Seed.bare calm_world empty_store).
    left. reflexivity.
  - apply (email_needs_every_setting full_config
             (mkWorld false (fun _ => false) false true) empty_store);
      discriminate.
Defined.

(** With the list as primary store the record is appended whatever the
    other sinks do. *)
Lemma memory_primary_appends cfg w stamp d s :
  accidents_collection cfg = false ->
  accidents_db (snd (send_alert cfg w stamp d s))
  = accidents_db s ++ [accident_record stamp d]
  /\ mongo_accidents (snd (send_alert cfg w stamp d s)) = mongo_accidents s.
Proof.
  intros Hc. unfold send_alert.
  destruct (db_firestore cfg) eqn:Hf; [destruct (firestore_add_raises w) eqn:Hm|].
  - rewrite DispatchFacts.send_alert_mirror_raises by (congruence || assumption).
    unfold add_log, after_primary. rewrite Hc. cbn. split; reflexivity.
  - rewrite DispatchFacts.send_alert_completes by congruence.
    unfold add_log, after_mirror, after_primary. rewrite Hc, Hf. cbn. split; reflexivity.
  - rewrite DispatchFacts.send_alert_completes by congruence.
    unfold add_log, after_mirror, after_primary. rewrite Hc, Hf. cbn. split; reflexivity.
Qed.

(** With MongoDB as primary store the list is never written. *)
Lemma mongo_primary_spares_memory cfg w stamp d s :
  accidents_collection cfg = true ->
  accidents_db (snd (send_alert cfg w stamp d s)) = accidents_db s.
Proof.
  intros Hc. unfold send_alert.
  destruct (insert_one_raises w) eqn:Hi.
  - rewrite DispatchFacts.send_alert_primary_raises by assumption. reflexivity.
  - destruct (db_firestore cfg) eqn:Hf; [destruct (firestore_add_raises w) eqn:Hm|].
    + rewrite DispatchFacts.send_alert_mirror_raises by (congruence || assumption).
      unfold add_log, after_primary. rewrite Hc. reflexivity.
    + rewrite DispatchFacts.send_alert_completes by congruence.
      unfold add_log, after_mirror, after_primary. rewrite Hc, Hf. reflexivity.
    + rewrite DispatchFacts.send_alert_completes by congruence.
      unfold add_log, after_mirror, after_primary. rewrite Hc, Hf. reflexivity.
Qed.

(** X8. There is no fall-back from MongoDB to the in-memory list.  With
    MongoDB configured the list is never written; and when the insert
    raises, the accident is recorded nowhere (the Firestore mirror is not
    reached either), no message and no e-mail go out, the only trace is
    the printed error, and [/accidents] answers what it answered
    before. *)
Theorem mongo_failure_loses_accident
    (D : Durable) (cfg : Config) (w : World) (stamp : string) (d : AccidentData) (s : Store) :
  accidents_collection cfg = true ->
  accidents_db (snd (send_alert cfg w stamp d s)) = accidents_db s
  /\ (insert_one_raises w = true ->
      fst (send_alert cfg w stamp d s) = Ok false
      /\ mongo_accidents (snd (send_alert cfg w stamp d s)) = mongo_accidents s
      /\ firestore_accidents (snd (send_alert cfg w stamp d s)) = firestore_accidents s
      /\ log (snd (send_alert cfg w stamp d s)) = log s ++ [AlertErrorLogged]
      /\ get_accidents cfg (snd (send_alert cfg w stamp d s)) = get_accidents cfg s).
Proof.
  intros Hc. split; [apply mongo_primary_spares_memory; exact Hc|].
  intros Hi. unfold send_alert.
  rewrite DispatchFacts.send_alert_primary_raises by assumption.
  cbn [fst snd]. unfold add_log, get_accidents. rewrite Hc. cbn. repeat split.
Qed.

Lemma mongo_failure_loses_accident_witness :
  snd (send_alert mongo_config mongo_down "2024-01-01T00:00:00" sample_data empty_store)
  = mkStore [] [] [] [AlertErrorLogged].
Proof.
  destruct (mongo_failure_loses_accident sorting_store mongo_config mongo_down
              "2024-01-01T00:00:00" sample_data empty_store eq_refl)
    as (Hdb & H).
  destruct (H eq_refl) as (_ & Hm & Hf & Hl & _).
  destruct (snd (send_alert mongo_config mongo_down "2024-01-01T00:00:00"
                   sample_data empty_store)) as [a b c l].
  cbn in *. subst. reflexivity.
Defined.

(** *** The in-memory history *)

Lemma firstn_short {A} (n : nat) (l : list A) :
  (List.length l <= n)%nat -> firstn n l = l.
Proof. apply firstn_all2. Qed.

(** What [/accidents] answers from the in-memory list. *)
Lemma memory_answer (D : Durable) (cfg : Config) (s : Store) :
  accidents_collection cfg = false ->
  get_accidents cfg s = Accidents (firstn limit (sorted_desc (accidents_db s))).
Proof. intros Hc. unfold get_accidents. rewrite Hc. reflexivity. Qed.

(** X9. From the in-memory list [/accidents] loses nothing it does not
    have to: it answers with [min(50, n)] of the [n] stored records, each
    of them a stored record; with at most 50 stored it answers with all
    of them, reordered; and the answer depends on the list alone, not on
    what MongoDB or Firestore hold. *)
Theorem history_keeps_what_fits (D : Durable) (cfg : Config) (s : Store) :
  accidents_collection cfg = false ->
  exists l,
    get_accidents cfg s = Accidents l
    /\ List.length l = Nat.min 50 (List.length (accidents_db s))
    /\ incl l (accidents_db s)
    /\ ((List.length (accidents_db s) <= 50)%nat -> Permutation l (accidents_db s))
    /\ (forall s', accidents_db s' = accidents_db s ->
                   get_accidents cfg s' = Accidents l).
Proof.
  intros Hc. exists (firstn limit (sorted_desc (accidents_db s))).
  pose proof (HistoryFacts.sorted_desc_perm (accidents_db s)) as Hperm.
  split; [apply memory_answer; exact Hc|].
  split.
  { rewrite length_firstn. rewrite (Permutation_length Hperm). reflexivity. }
  split.
  { intros x Hx. apply (Permutation_in x Hperm).
    rewrite <- (firstn_skipn limit (sorted_desc (accidents_db s))).
    apply in_or_app. left. exact Hx. }
  split.
  { intros Hlen. rewrite firstn_short; [exact Hperm|].
    rewrite (Permutation_length Hperm). exact Hlen. }
  intros s' Hs. rewrite (memory_answer D cfg s' Hc), Hs. reflexivity.
Qed.

Lemma history_keeps_what_fits_witness :
  exists l,
    @get_accidents sorting_store full_config
      (mkStore [record_at "2024-01-02T08:00:00"; record_at "2024-01-03T09:30:00"] [] [] [])
    = Accidents l
    /\ List.length l = 2%nat.
Proof.
  destruct (history_keeps_what_fits sorting_store full_config
              (mkStore [record_at "2024-01-02T08:00:00"; record_at "2024-01-03T09:30:00"]
                       [] [] []) eq_refl)
    as (l & Hget & Hlen & _).
  exists l. split; [exact Hget | exact Hlen].
Defined.

End DispatchCasesFacts.

(** ** What one /detect request changes, and what a sequence keeps *)

Module SessionFacts.
Import Route Session.

Section WithVision.
Context {Frame : Type} {V : Detector.Vision Frame}.

(** The alert block, with the dispatch known to hand back a bool. *)
Lemma alert_stage_eq cfg inp r (app : App Frame) :
  alert_stage cfg inp r app
  = if accident_detected r then
      if Gate.passes (cooldown cfg) (last_alert_time app) (clock inp) then
        (Json (set_alert_keys r (Some true) (Some false)),
         mkApp (detector app) (clock inp)
               (snd (Dispatch.send_alert (sinks cfg) (world inp) (record_stamp inp)
                       (Dispatch.mkAccidentData (location_info inp) (current_location app)
                                                (confidence r) (vehicles_detected r))
                       (store app)))
               (current_location app))
      else (Json (set_alert_keys r (Some false) (Some true)), app)
    else (Json (set_alert_keys r (alert_sent r) (Some false)), app).
Proof.
  unfold alert_stage, Gate.check.
  destruct (accident_detected r); [|reflexivity].
  destruct (Gate.passes _ _ _); [|reflexivity].
  match goal with
  | |- context [Dispatch.send_alert ?c ?w ?st ?d ?s] =>
      destruct (DispatchFacts.send_alert_total Dispatch.emergency_contacts c w st d s)
        as (b & s' & E)
  end.
  unfold Dispatch.send_alert. rewrite E. reflexivity.
Qed.

(** The globals right after the threshold has been read. *)
Lemma route_cases cfg inp req (app : App Frame) :
  let app1 := mkApp (apply_threshold (threshold req) (detector app))
                    (last_alert_time app) (store app) (current_location app) in
  (image req = ImageMissing /\ detect_accident cfg inp req app = (NoImageError, app1))
  \/ (image req = ImageUndecodable
      /\ negb (Detector.COMPUTER_VISION_AVAILABLE (env cfg))
         || negb (Detector.YOLO_AVAILABLE (env cfg)) = false
      /\ detect_accident cfg inp req app = (ExceptionError, app1))
  \/ (image req <> ImageMissing
      /\ exists r det,
          alert_sent r = None
          /\ detect_accident cfg inp req app
             = alert_stage cfg inp r
                 (mkApp det (last_alert_time app) (store app) (current_location app))
          /\ Detector.accident_threshold det
             = Detector.accident_threshold (apply_threshold (threshold req) (detector app))).
Proof.
  cbv zeta. unfold detect_accident.
  destruct (image req) as [| |frame] eqn:Ei.
  - left. split; reflexivity.
  - destruct (negb _ || negb _) eqn:Ed.
    + right. right. split; [discriminate|].
      do 2 eexists. split; [|split; [reflexivity | reflexivity]]. reflexivity.
    + right. left. repeat split.
  - right. right. split; [discriminate|].
    destruct (negb _ || negb _) eqn:Ed.
    + do 2 eexists. split; [|split; [reflexivity | reflexivity]]. reflexivity.
    + cbn [detector last_alert_time store current_location].
      pose proof (RouteFacts.detect_accident_threshold (env cfg) (mock_draws inp)
                    (apply_threshold (threshold req) (detector app)) frame) as Ht.
      destruct (Detector.detect_accident _ _ _ _) as [out det'].
      do 2 eexists. split; [|split; [reflexivity | exact Ht]]. reflexivity.
Qed.

(** Everything a request can change. *)
Lemma route_effects cfg inp req (app : App Frame) :
  current_location (snd (detect_accident cfg inp req app)) = current_location app
  /\ (alerted (fst (detect_accident cfg inp req app)) = false ->
      store (snd (detect_accident cfg inp req app)) = store app
      /\ last_alert_time (snd (detect_accident cfg inp req app)) = last_alert_time app)
  /\ (alerted (fst (detect_accident cfg inp req app)) = true ->
      exists r',
        fst (detect_accident cfg inp req app) = Json r'
        /\ accident_detected r' = true
        /\ Gate.passes (cooldown cfg) (last_alert_time app) (clock inp) = true
        /\ last_alert_time (snd (detect_accident cfg inp req app)) = clock inp
        /\ store (snd (detect_accident cfg inp req app))
           = snd (Dispatch.send_alert (sinks cfg) (world inp) (record_stamp inp)
                    (Dispatch.mkAccidentData (location_info inp) (current_location app)
                                             (confidence r') (vehicles_detected r'))
                    (store app))).
Proof.
  destruct (route_cases cfg inp req app)
    as [[_ E] | [(_ & _ & E) | (_ & r & det & Hr & E & _)]]; cbv zeta in E.
  - rewrite E. cbn. split; [reflexivity|]. split; [auto | discriminate].
  - rewrite E. cbn. split; [reflexivity|]. split; [auto | discriminate].
  - rewrite E, alert_stage_eq.
    cbn [detector last_alert_time store current_location].
    destruct (accident_detected r) eqn:Ea.
    + destruct (Gate.passes _ _ _) eqn:Ep.
      * cbn. split; [reflexivity|]. split; [discriminate|].
        intros _. eexists. split; [reflexivity|]. cbn. repeat split. exact Ea.
      * cbn. split; [reflexivity|]. split; [auto | discriminate].
    + cbn. rewrite Hr. split; [reflexivity|]. split; [auto | discriminate].
Qed.

(** The error answers to a body that is a JSON object. *)
Lemma object_error_answers (cfg : Config) (inp : Inputs) (req : Request Frame) (app : App Frame) :
  (fst (detect_accident cfg inp req app) = NoImageError <-> image req = ImageMissing)
  /\ (fst (detect_accident cfg inp req app) = ExceptionError
      <-> image req = ImageUndecodable
          /\ negb (Detector.COMPUTER_VISION_AVAILABLE (env cfg))
             || negb (Detector.YOLO_AVAILABLE (env cfg)) = false)
  /\ (fst (detect_accident cfg inp req app) = NoImageError
      \/ fst (detect_accident cfg inp req app) = ExceptionError ->
      snd (detect_accident cfg inp req app)
      = mkApp (apply_threshold (threshold req) (detector app))
              (last_alert_time app) (store app) (current_location app)).
Proof.
  assert (Hjson : forall r a, exists r' a',
             alert_stage cfg inp r a = (Json r', (a' : App Frame))).
  { intros r a. destruct (RouteFacts.alert_stage_spec cfg inp r a) as (r' & a' & E & _).
    eauto. }
  destruct (route_cases cfg inp req app)
    as [[Hi E] | [(Hi & Hd & E) | (Hi & r & det & _ & E & _)]]; cbv zeta in E.
  - rewrite E. cbn [fst snd]. split; [tauto|]. split.
    + split; [discriminate|]. intros [H _]. congruence.
    + reflexivity.
  - rewrite E. cbn [fst snd]. split.
    + split; [discriminate | congruence].
    + split; [tauto | reflexivity].
  - destruct (Hjson r (mkApp det (last_alert_time app) (store app) (current_location app)))
      as (r' & a' & Es).
    rewrite E, Es. cbn [fst snd]. split.
    + split; [discriminate | contradiction].
    + split.
      * split; [discriminate|]. intros [H Hd].
        exfalso.
        assert (E2 : fst (detect_accident cfg inp req app) = ExceptionError)
          by (unfold detect_accident; rewrite H, Hd; reflexivity).
        rewrite E, Es in E2. discriminate.
      * intros [H | H]; discriminate.
Qed.

(** X10. The two error answers of [/detect].  The request is answered
    "No image data provided" exactly when the body is a JSON object
    whose image is missing or empty, and with the message of a caught
    exception exactly when the body is not a JSON object, or the vision
    libraries are present and the image cannot be decoded (in demo mode
    the image is never decoded).  When the body is not an object nothing
    changes at all, the threshold included; in the other error cases
    the threshold sent with the request has already been clamped and
    stored, and nothing else changes. *)
Theorem error_answers
    (cfg : Config) (inp : Inputs) (body : Body Frame) (app : App Frame) :
  (fst (detect_route cfg inp body app) = NoImageError
   <-> exists req, body = Object req /\ image req = ImageMissing)
  /\ (fst (detect_route cfg inp body app) = ExceptionError
      <-> body = NotAnObject
          \/ exists req,
               body = Object req
               /\ image req = ImageUndecodable
               /\ negb (Detector.COMPUTER_VISION_AVAILABLE (env cfg))
                  || negb (Detector.YOLO_AVAILABLE (env cfg)) = false)
  /\ (body = NotAnObject -> snd (detect_route cfg inp body app) = app)
  /\ (forall req,
        body = Object req ->
        fst (detect_route cfg inp body app) = NoImageError
        \/ fst (detect_route cfg inp body app) = ExceptionError ->
        snd (detect_route cfg inp body app)
        = mkApp (apply_threshold (threshold req) (detector app))
                (last_alert_time app) (store app) (current_location app)).
Proof.
  destruct body as [|req]; cbn [detect_route fst snd].
  - split.
    + split; [discriminate | intros (req & H & _); discriminate].
    + split; [split; [left; reflexivity | reflexivity]|].
      split; [reflexivity | intros req H; discriminate].
  - destruct (object_error_answers cfg inp req app) as (Hno & Hex & Hstate).
    split.
    + rewrite Hno. split.
      * intros H. exists req. split; [reflexivity | exact H].
      * intros (req' & E & H). inversion E; subst req'. exact H.
    + split.
      * rewrite Hex. split.
        -- intros H. right. exists req. split; [reflexivity | exact H].
        -- intros [H | (req' & E & H)]; [discriminate|].
           inversion E; subst req'. exact H.
      * split; [discriminate|].
        intros req' E H. inversion E; subst req'. exact (Hstate H).
Qed.

(** What a request that alerts writes to the in-memory list. *)
Lemma alert_appends (cfg : Config) (inp : Inputs) (req : Request Frame) (app : App Frame) :
  alerted (fst (detect_accident cfg inp req app)) = true ->
  Dispatch.accidents_collection (sinks cfg) = false ->
  exists r',
    fst (detect_accident cfg inp req app) = Json r'
    /\ Dispatch.accidents_db (store (snd (detect_accident cfg inp req app)))
       = Dispatch.accidents_db (store app)
         ++ [Dispatch.mkAccidentRecord (record_stamp inp) (location_info inp)
               (current_location app) (confidence r') (vehicles_detected r')
               "alert_sent"].
Proof.
  intros Ha Hmem.
  destruct (route_effects cfg inp req app) as (_ & _ & Halert).
  destruct (Halert Ha) as (r' & E & _ & _ & _ & Hs).
  exists r'. split; [exact E|]. rewrite Hs.
  rewrite (proj1 (DispatchCasesFacts.memory_primary_appends (sinks cfg) (world inp)
                    (record_stamp inp)
                    (Dispatch.mkAccidentData (location_info inp) (current_location app)
                                             (confidence r') (vehicles_detected r'))
                    (store app) Hmem)).
  reflexivity.
Qed.

(** X11. Only an alert touches the stores.  A request whose answer does
    not carry [alert_sent = True] (an error, no accident, or an accident
    inside the cooldown) leaves every store, [last_alert_time] and the
    location as they were.  With the in-memory list as primary store, a
    request answered [alert_sent = True] appends exactly one record to
    the list, whatever the other sinks do: it carries the confidence and
    the vehicle count of the answer, the location in force, the text of
    [get_location_info] and the status "alert_sent". *)
Theorem only_alerts_touch_the_stores
    (cfg : Config) (inp : Inputs) (req : Request Frame) (app : App Frame) :
  current_location (snd (detect_accident cfg inp req app)) = current_location app
  /\ (alerted (fst (detect_accident cfg inp req app)) = false ->
      store (snd (detect_accident cfg inp req app)) = store app
      /\ last_alert_time (snd (detect_accident cfg inp req app)) = last_alert_time app)
  /\ (alerted (fst (detect_accident cfg inp req app)) = true ->
      Dispatch.accidents_collection (sinks cfg) = false ->
      exists r',
        fst (detect_accident cfg inp req app) = Json r'
        /\ Dispatch.accidents_db (store (snd (detect_accident cfg inp req app)))
           = Dispatch.accidents_db (store app)
             ++ [Dispatch.mkAccidentRecord (record_stamp inp) (location_info inp)
                   (current_location app) (confidence r') (vehicles_detected r')
                   "alert_sent"]).
Proof.
  destruct (route_effects cfg inp req app) as (Hloc & Hquiet & _).
  split; [exact Hloc|]. split; [exact Hquiet|].
  intros Ha Hmem. exact (alert_appends cfg inp req app Ha Hmem).
Qed.

(** X12. From the alert to the history.  With the in-memory list as
    primary store and fewer than 50 records stored, the record of a
    request answered [alert_sent = True] is in the next answer of
    [/accidents], which holds one record more than before. *)
Theorem alert_shows_in_history
    (D : History.Durable) (cfg : Config) (inp : Inputs) (req : Request Frame)
    (app : App Frame) :
  Dispatch.accidents_collection (sinks cfg) = false ->
  alerted (fst (detect_accident cfg inp req app)) = true ->
  (List.length (Dispatch.accidents_db (store app)) < 50)%nat ->
  exists r' l,
    fst (detect_accident cfg inp req app) = Json r'
    /\ History.get_accidents (sinks cfg) (store (snd (detect_accident cfg inp req app)))
       = History.Accidents l
    /\ In (Dispatch.mkAccidentRecord (record_stamp inp) (location_info inp)
             (current_location app) (confidence r') (vehicles_detected r') "alert_sent") l
    /\ List.length l = S (List.length (Dispatch.accidents_db (store app))).
Proof.
  intros Hmem Ha Hlen.
  destruct (alert_appends cfg inp req app Ha Hmem) as (r' & E & Hdb).
  pose proof (HistoryFacts.sorted_desc_perm
                (Dispatch.accidents_db (store (snd (detect_accident cfg inp req app)))))
    as Hperm.
  pose proof (Permutation_length Hperm) as Hl.
  exists r', (History.sorted_desc
                (Dispatch.accidents_db (store (snd (detect_accident cfg inp req app))))).
  split; [exact E|].
  assert (Hn : List.length
                 (Dispatch.accidents_db (store (snd (detect_accident cfg inp req app))))
               = S (List.length (Dispatch.accidents_db (store app)))).
  { rewrite Hdb, length_app. cbn [List.length]. lia. }
  split.
  - rewrite (DispatchCasesFacts.memory_answer D _ _ Hmem).
    rewrite DispatchCasesFacts.firstn_short; [reflexivity|].
    rewrite Hl, Hn. unfold History.limit. lia.
  - split.
    + apply (Permutation_in _ (Permutation_sym Hperm)). rewrite Hdb.
      apply in_or_app. right. left. reflexivity.
    + rewrite Hl. exact Hn.
Qed.

(** *** Sequences of requests *)

Lemma detects_cons cfg inp req rest (app : App Frame) :
  detects cfg ((inp, req) :: rest) app
  = (fst (detect_accident cfg inp req app)
       :: fst (detects cfg rest (snd (detect_accident cfg inp req app))),
     snd (detects cfg rest (snd (detect_accident cfg inp req app)))).
Proof.
  cbn [detects]. destruct (detect_accident cfg inp req app) as [resp app'].
  cbn [fst snd]. destruct (detects cfg rest app'). reflexivity.
Qed.

Lemma step_in_range cfg inp req (app : App Frame) :
  in_range app -> in_range (snd (detect_accident cfg inp req app)).
Proof.
  unfold in_range. intros Hr. rewrite RouteFacts.route_threshold.
  unfold apply_threshold.
  destruct (threshold req) as [| |v]; try exact Hr.
  destruct (RouteFacts.clamp_range v) as (q & E & Hlo & Hhi).
  rewrite E. cbn. split; assumption.
Qed.

(** X13. The running threshold never leaves [0.1, 1.0].  Starting from
    a threshold in that range (0.5 at import), no sequence of [/detect]
    requests (with or without overrides, images, accidents, errors) takes
    it out. *)
Theorem threshold_stays_in_range
    (cfg : Config) (reqs : list (Inputs * Request Frame)) :
  forall app : App Frame,
    0.1 <= Detector.accident_threshold (detector app) ->
    Detector.accident_threshold (detector app) <= 1.0 ->
    0.1 <= Detector.accident_threshold (detector (snd (detects cfg reqs app)))
    /\ Detector.accident_threshold (detector (snd (detects cfg reqs app))) <= 1.0.
Proof.
  induction reqs as [|[inp req] rest IH]; intros app Hlo Hhi.
  - cbn. split; assumption.
  - rewrite detects_cons. cbn [snd].
    destruct (step_in_range cfg inp req app (conj Hlo Hhi)) as [H1 H2].
    apply IH; assumption.
Qed.

Lemma step_moves_forward cfg inp req (app : App Frame) :
  (0 <= cooldown cfg)%Z ->
  last_alert_time app <= last_alert_time (snd (detect_accident cfg inp req app))
  /\ (alerted (fst (detect_accident cfg inp req app)) = true ->
      inject_Z (cooldown cfg) <= clock inp - last_alert_time app
      /\ last_alert_time (snd (detect_accident cfg inp req app)) = clock inp).
Proof.
  intros Hcd. destruct (route_effects cfg inp req app) as (_ & Hquiet & Halert).
  assert (H0 : 0 <= inject_Z (cooldown cfg)) by (unfold Qle; cbn; lia).
  destruct (alerted (fst (detect_accident cfg inp req app))) eqn:Ea.
  - destruct (Halert eq_refl) as (r' & _ & _ & Hp & Hl & _).
    apply GateFacts.passes_iff in Hp. rewrite Hl.
    split; [lra|]. intros _. split; [exact Hp | reflexivity].
  - destruct (Hquiet eq_refl) as [_ Hl]. rewrite Hl.
    split; [apply Qle_refl | discriminate].
Qed.

Lemma alert_is_late cfg reqs :
  (0 <= cooldown cfg)%Z ->
  forall (app : App Frame) j inp req resp,
    nth_error reqs j = Some (inp, req) ->
    nth_error (fst (detects cfg reqs app)) j = Some resp ->
    alerted resp = true ->
    inject_Z (cooldown cfg) <= clock inp - last_alert_time app.
Proof.
  intros Hcd. induction reqs as [|[inp0 req0] rest IH]; intros app j inp req resp Hq Hr Ha.
  - destruct j; discriminate.
  - rewrite detects_cons in Hr. cbn [fst] in Hr.
    destruct (step_moves_forward cfg inp0 req0 app Hcd) as [Hmono Hstep].
    destruct j as [|j]; cbn [nth_error] in Hq, Hr.
    + inversion Hq; subst inp0 req0. inversion Hr; subst resp.
      apply Hstep. exact Ha.
    + specialize (IH _ j inp req resp Hq Hr Ha). lra.
Qed.

(** X14. The cooldown holds across whole sessions.  With a cooldown
    that is not negative, in any sequence of [/detect] requests (errors,
    quiet frames, suppressed accidents and threshold changes in between)
    two answers that carry [alert_sent = True] were given at clock
    readings at least a cooldown apart, and [last_alert_time] never goes
    back. *)
Theorem session_alerts_are_spaced
    (cfg : Config) (reqs : list (Inputs * Request Frame)) :
  (0 <= cooldown cfg)%Z ->
  forall app : App Frame,
    last_alert_time app <= last_alert_time (snd (detects cfg reqs app))
    /\ (forall i j inp_i req_i inp_j req_j resp_i resp_j,
          (i < j)%nat ->
          nth_error reqs i = Some (inp_i, req_i) ->
          nth_error reqs j = Some (inp_j, req_j) ->
          nth_error (fst (detects cfg reqs app)) i = Some resp_i ->
          nth_error (fst (detects cfg reqs app)) j = Some resp_j ->
          alerted resp_i = true ->
          alerted resp_j = true ->
          inject_Z (cooldown cfg) <= clock inp_j - clock inp_i).
Proof.
  intros Hcd. induction reqs as [|[inp0 req0] rest IH]; intros app.
  - cbn. split; [apply Qle_refl|]. intros i j ? ? ? ? ? ? _ H. destruct i; discriminate.
  - rewrite detects_cons. cbn [fst snd].
    destruct (step_moves_forward cfg inp0 req0 app Hcd) as [Hmono Hstep].
    destruct (IH (snd (detect_accident cfg inp0 req0 app))) as [IHmono IHpair].
    split; [lra|].
    intros i j inp_i req_i inp_j req_j resp_i resp_j Hij Hqi Hqj Hri Hrj Hai Haj.
    destruct j as [|j]; [lia|]. cbn [nth_error] in Hqj, Hrj.
    destruct i as [|i]; cbn [nth_error] in Hqi, Hri.
    + inversion Hqi; subst inp0 req0. inversion Hri; subst resp_i.
      destruct (Hstep Hai) as [_ Hl].
      pose proof (alert_is_late cfg rest Hcd _ j inp_j req_j resp_j Hqj Hrj Haj) as Hlate.
      rewrite Hl in Hlate. exact Hlate.
    + apply (IHpair i j inp_i req_i inp_j req_j resp_i resp_j); try assumption. lia.
Qed.

(** X15. One record per alert, and none otherwise.  With the in-memory
    list as primary store, after any sequence of [/detect] requests the
    list holds exactly as many records more as answers carried
    [alert_sent = True], and the records it held before are still there,
    in place. *)
Theorem one_record_per_alert
    (cfg : Config) (reqs : list (Inputs * Request Frame)) :
  Dispatch.accidents_collection (sinks cfg) = false ->
  forall app : App Frame,
    List.length (Dispatch.accidents_db (store (snd (detects cfg reqs app))))
    = (List.length (Dispatch.accidents_db (store app))
       + alerts (fst (detects cfg reqs app)))%nat
    /\ firstn (List.length (Dispatch.accidents_db (store app)))
              (Dispatch.accidents_db (store (snd (detects cfg reqs app))))
       = Dispatch.accidents_db (store app).
Proof.
  intros Hmem. induction reqs as [|[inp req] rest IH]; intros app.
  - cbn. split; [lia | apply firstn_all].
  - rewrite detects_cons. cbn [fst snd].
    destruct (IH (snd (detect_accident cfg inp req app))) as [IHlen IHpre].
    destruct (route_effects cfg inp req app) as (_ & Hquiet & _).
    pose proof (alert_appends cfg inp req app) as Halert.
    unfold alerts in *. cbn [filter].
    destruct (alerted (fst (detect_accident cfg inp req app))) eqn:Ea.
    + destruct (Halert eq_refl Hmem) as (r' & _ & Hdb).
      rewrite Hdb, length_app in IHlen, IHpre. cbn [List.length] in *.
      split; [lia|].
      replace (List.length (Dispatch.accidents_db (store app)) + 1)%nat
        with (List.length (Dispatch.accidents_db (store app) ++ [Dispatch.mkAccidentRecord
               (record_stamp inp) (location_info inp) (current_location app)
               (confidence r') (vehicles_detected r') "alert_sent"]))
        in IHpre by (rewrite length_app; reflexivity).
      apply (f_equal (firstn (List.length (Dispatch.accidents_db (store app))))) in IHpre.
      rewrite firstn_firstn in IHpre.
      rewrite Nat.min_l in IHpre by (rewrite length_app; lia).
      rewrite IHpre. rewrite firstn_app, Nat.sub_diag, firstn_all. cbn.
      apply app_nil_r.
    + destruct (Hquiet eq_refl) as [Hs _]. rewrite Hs in IHlen, IHpre.
      split; [exact IHlen | exact IHpre].
Qed.

End WithVision.

Lemma error_answers_witness :
  snd (@detect_route Q Detector.grey_vision demo_config
         (inputs_at 1700000000 accident_draws some_mock_draws Dispatch.calm_world)
         (Object (mkRequest ImageMissing (ThresholdNumber (Finite 50)))) initial_app)
  = mkApp (Detector.mkState 1.0 None false) 0 Dispatch.empty_store
          (Dispatch.mkCoordinates 28.6139 77.2090)
  /\ @detect_route Q Detector.grey_vision demo_config
       (inputs_at 1700000000 accident_draws some_mock_draws Dispatch.calm_world)
       NotAnObject initial_app
     = (ExceptionError, initial_app).
Proof.
  destruct (@error_answers Q Detector.grey_vision demo_config
              (inputs_at 1700000000 accident_draws some_mock_draws Dispatch.calm_world)
              (Object (mkRequest ImageMissing (ThresholdNumber (Finite 50)))) initial_app)
    as (Hno & _ & _ & Hstate).
  destruct (@error_answers Q Detector.grey_vision demo_config
              (inputs_at 1700000000 accident_draws some_mock_draws Dispatch.calm_world)
              NotAnObject initial_app)
    as (_ & Hex & Hkeep & _).
  split.
  - rewrite (Hstate _ eq_refl).
    + reflexivity.
    + left. apply Hno. eexists. split; reflexivity.
  - rewrite (surjective_pairing (@detect_route Q Detector.grey_vision _ _ _ _)).
    rewrite (Hkeep eq_refl). rewrite (proj2 Hex (or_introl eq_refl)). reflexivity.
Defined.

(** In demo mode, at three clock readings, the coin says accident each
    time: an alert, a suppressed one ten seconds later, an alert again
    twenty-one seconds after the first. *)
Example demo_session :
  map alerted
      (fst (@detects Q Detector.grey_vision demo_config
              [(inputs_at 1700000000 accident_draws some_mock_draws Dispatch.first_sms_fails,
                plain_request);
               (inputs_at 1700000010 accident_draws some_mock_draws Dispatch.calm_world,
                plain_request);
               (inputs_at 1700000021 accident_draws some_mock_draws Dispatch.mirror_down,
                plain_request)]
              initial_app))
  = [true; false; true].
Proof. vm_compute. reflexivity. Qed.

Lemma only_alerts_touch_the_stores_witness :
  exists r',
    fst (@detect_accident Q Detector.grey_vision demo_config
           (inputs_at 1700000000 accident_draws some_mock_draws Dispatch.mirror_down)
           plain_request initial_app) = Json r'
    /\ Dispatch.accidents_db
         (store (snd (@detect_accident Q Detector.grey_vision demo_config
                        (inputs_at 1700000000 accident_draws some_mock_draws
                                   Dispatch.mirror_down)
                        plain_request initial_app)))
       = [] ++ [Dispatch.mkAccidentRecord "2024-01-01T00:00:00" "Lat: 28.6139, Lng: 77.209"
                  (Dispatch.mkCoordinates 28.6139 77.2090)
                  (confidence r') (vehicles_detected r') "alert_sent"].
Proof.
  destruct (@only_alerts_touch_the_stores Q Detector.grey_vision demo_config
              (inputs_at 1700000000 accident_draws some_mock_draws Dispatch.mirror_down)
              plain_request initial_app)
    as (_ & _ & H).
  apply H; vm_compute; reflexivity.
Defined.

Lemma alert_shows_in_history_witness :
  exists r' l,
    fst (@detect_accident Q Detector.grey_vision demo_config
           (inputs_at 1700000000 accident_draws some_mock_draws Dispatch.calm_world)
           plain_request initial_app) = Json r'
    /\ @History.get_accidents History.sorting_store Dispatch.full_config
         (store (snd (@detect_accident Q Detector.grey_vision demo_config
                        (inputs_at 1700000000 accident_draws some_mock_draws
                                   Dispatch.calm_world)
                        plain_request initial_app)))
       = History.Accidents l
    /\ List.length l = 1%nat.
Proof.
  destruct (@alert_shows_in_history Q Detector.grey_vision History.sorting_store demo_config
              (inputs_at 1700000000 accident_draws some_mock_draws Dispatch.calm_world)
              plain_request initial_app)
    as (r' & l & E & Hget & _ & Hlen).
  - reflexivity.
  - vm_compute. reflexivity.
  - vm_compute. lia.
  - exists r', l. split; [exact E|]. split; [exact Hget | exact Hlen].
Defined.

Lemma threshold_stays_in_range_witness :
  0.1 <= Detector.accident_threshold
           (detector (snd (@detects Q Detector.grey_vision demo_config
                             [(inputs_at 1700000000 accident_draws some_mock_draws
                                         Dispatch.calm_world,
                               mkRequest ImageMissing (ThresholdNumber (Finite 50)));
                              (inputs_at 1700000001 accident_draws some_mock_draws
                                         Dispatch.calm_world,
                               mkRequest (ImageOf 0) (ThresholdNumber NaN))]
                             initial_app))).
Proof.
  apply (@threshold_stays_in_range Q Detector.grey_vision demo_config _ initial_app);
    vm_compute; discriminate.
Defined.

Lemma session_alerts_are_spaced_witness :
  inject_Z 20 <= 1700000021 - 1700000000.
Proof.
  destruct (@session_alerts_are_spaced Q Detector.grey_vision demo_config
              [(inputs_at 1700000000 accident_draws some_mock_draws Dispatch.first_sms_fails,
                plain_request);
               (inputs_at 1700000010 accident_draws some_mock_draws Dispatch.calm_world,
                plain_request);
               (inputs_at 1700000021 accident_draws some_mock_draws Dispatch.mirror_down,
                plain_request)]
              ltac:(discriminate) initial_app)
    as [_ H].
  refine (H 0%nat 2%nat
            (inputs_at 1700000000 accident_draws some_mock_draws Dispatch.first_sms_fails)
            plain_request
            (inputs_at 1700000021 accident_draws some_mock_draws Dispatch.mirror_down)
            plain_request _ _ _ eq_refl eq_refl _ _ _ _).
  - repeat constructor.
  - reflexivity.
  - reflexivity.
  - vm_compute. reflexivity.
  - vm_compute. reflexivity.
Defined.

Lemma one_record_per_alert_witness :
  List.length
    (Dispatch.accidents_db
       (store (snd (@detects Q Detector.grey_vision demo_config
                      [(inputs_at 1700000000 accident_draws some_mock_draws
                                  Dispatch.first_sms_fails, plain_request);
                       (inputs_at 1700000010 accident_draws some_mock_draws
                                  Dispatch.calm_world, plain_request);
                       (inputs_at 1700000021 accident_draws some_mock_draws
                                  Dispatch.mirror_down, plain_request)]
                      initial_app))))
  = 2%nat.
Proof.
  destruct (@one_record_per_alert Q Detector.grey_vision demo_config
              [(inputs_at 1700000000 accident_draws some_mock_draws
                          Dispatch.first_sms_fails, plain_request);
               (inputs_at 1700000010 accident_draws some_mock_draws
                          Dispatch.calm_world, plain_request);
               (inputs_at 1700000021 accident_draws some_mock_draws
                          Dispatch.mirror_down, plain_request)]
              eq_refl initial_app)
    as [Hlen _].
  rewrite Hlen. vm_compute. reflexivity.
Defined.

End SessionFacts.

(** ** Users *)

Module UsersFacts.
Import Users.

Lemma key_eqb_eq (a b : Key) : key_eqb a b = true <-> a = b.
Proof.
  destruct a as [x|], b as [y|]; cbn.
  - rewrite String.eqb_eq. split; congruence.
  - split; discriminate.
  - split; discriminate.
  - split; reflexivity.
Qed.

Lemma key_eqb_refl (a : Key) : key_eqb a a = true.
Proof. apply key_eqb_eq. reflexivity. Qed.

Lemma lookup_store_same k u db : lookup k (store k u db) = Some u.
Proof.
  induction db as [|[k' u'] rest IH]; cbn.
  - rewrite key_eqb_refl. reflexivity.
  - destruct (key_eqb k k') eqn:E; cbn.
    + rewrite key_eqb_refl. reflexivity.
    + rewrite E. exact IH.
Qed.

Lemma lookup_store_other k k' u db :
  k <> k' -> lookup k' (store k u db) = lookup k' db.
Proof.
  intros Hne. induction db as [|[k0 u0] rest IH]; cbn.
  - destruct (key_eqb k' k) eqn:E; [|reflexivity].
    apply key_eqb_eq in E. congruence.
  - destruct (key_eqb k k0) eqn:E; cbn.
    + apply key_eqb_eq in E. subst k0.
      destruct (key_eqb k' k) eqn:E'; [|reflexivity].
      apply key_eqb_eq in E'. congruence.
    + rewrite IH. reflexivity.
Qed.

Lemma mem_false_lookup k db : mem k db = false -> lookup k db = None.
Proof. unfold mem. destruct (lookup k db); [discriminate | reflexivity]. Qed.

Section WithCrypto.
Context {C : Crypto}.

(** What a sign-up of a new name with a usable password leaves in
    [users_db]. *)
Lemma signup_registers mongo inp b st p :
  mem (username b) (users_db st) = false ->
  password_field b = PasswordText p ->
  users_db (snd (signup mongo inp POST b st))
  = store (username b) (mkUser (hashpw p (salt inp)) (email_field b) "user" (stamp inp))
          (users_db st).
Proof.
  intros Hnew Hp. unfold signup. rewrite Hnew, Hp.
  destruct mongo; [destruct (insert_one_raises inp)|]; reflexivity.
Qed.

(** X16. Sign-up, then log-in.  For a new username and a password the
    libraries accept, and given that [bcrypt.checkpw] accepts that
    password against the hash made from it, signing up answers "User
    created successfully" (the MongoDB insert, if any, not raising),
    logging in with the same username and password then succeeds with
    the token made for that username and the role [user], and signing
    up again under that name is refused and changes nothing. *)
Theorem signup_then_login
    (mongo : bool) (inp inp' : Inputs) (b b' : Body) (st : State) (p : string) :
  checkpw p (hashpw p (salt inp)) = true ->
  mem (username b) (users_db st) = false ->
  password_field b = PasswordText p ->
  (mongo = true -> insert_one_raises inp = false) ->
  username b' = username b ->
  fst (signup mongo inp POST b st) = Dispatch.Ok UserCreated
  /\ login POST b (snd (signup mongo inp POST b st))
     = Dispatch.Ok (LoginOk (create_access_token (username b)) (username b) "user")
  /\ signup mongo inp' POST b' (snd (signup mongo inp POST b st))
     = (Dispatch.Ok UsernameExists, snd (signup mongo inp POST b st)).
Proof.
  intros Hcontract Hnew Hp Hok Hsame.
  pose proof (signup_registers mongo inp b st p Hnew Hp) as Hdb.
  split.
  - unfold signup. rewrite Hnew, Hp.
    destruct mongo; [rewrite (Hok eq_refl)|]; reflexivity.
  - split.
    + unfold login. rewrite Hdb, lookup_store_same, Hp. cbn [password role].
      rewrite Hcontract. reflexivity.
    + unfold signup at 1. rewrite Hsame. unfold mem. rewrite Hdb, lookup_store_same.
      reflexivity.
Qed.

(** X17. A sign-up that fails half-way.  For a new username and a
    password the libraries accept: when the insert into the MongoDB
    users collection raises, [/signup] ends in an unhandled exception
    although the account has already been written to [users_db].
    Nothing reaches the collection, yet the user can log in (given that
    [bcrypt.checkpw] accepts the password against its hash), and a
    second attempt to sign up is answered "Username already exists". *)
Theorem signup_fails_after_registering
    (inp inp' : Inputs) (b : Body) (st : State) (p : string) :
  checkpw p (hashpw p (salt inp)) = true ->
  mem (username b) (users_db st) = false ->
  password_field b = PasswordText p ->
  insert_one_raises inp = true ->
  fst (signup true inp POST b st) = Dispatch.Raised
  /\ users_documents (snd (signup true inp POST b st)) = users_documents st
  /\ login POST b (snd (signup true inp POST b st))
     = Dispatch.Ok (LoginOk (create_access_token (username b)) (username b) "user")
  /\ fst (signup true inp' POST b (snd (signup true inp POST b st)))
     = Dispatch.Ok UsernameExists.
Proof.
  intros Hcontract Hnew Hp Hraise.
  pose proof (signup_registers true inp b st p Hnew Hp) as Hdb.
  split; [unfold signup; rewrite Hnew, Hp, Hraise; reflexivity|].
  split; [unfold signup; rewrite Hnew, Hp, Hraise; reflexivity|].
  split.
  - unfold login. rewrite Hdb, lookup_store_same, Hp. cbn [password role].
    rewrite Hcontract. reflexivity.
  - unfold signup at 1. unfold mem. rewrite Hdb, lookup_store_same. reflexivity.
Qed.

(** One sign-up request keeps every account it finds, and gives the
    role [user] to the one it adds. *)
Lemma signup_step mongo inp b st k u :
  lookup k (users_db (snd (signup mongo inp POST b st))) = Some u ->
  lookup k (users_db st) = Some u
  \/ (lookup k (users_db st) = None /\ k = username b /\ role u = "user"%string).
Proof.
  unfold signup.
  destruct (mem (username b) (users_db st)) eqn:Hm; [auto|].
  destruct (password_field b) as [| |p]; [auto | auto |].
  assert (Hdb : forall s : unit,
             lookup k (store (username b)
                             (mkUser (hashpw p (salt inp)) (email_field b) "user" (stamp inp))
                             (users_db st)) = Some u ->
             lookup k (users_db st) = Some u
             \/ (lookup k (users_db st) = None /\ k = username b /\ role u = "user"%string)).
  { intros _ H.
    destruct (key_eqb (username b) k) eqn:E.
    - apply key_eqb_eq in E. subst k. rewrite lookup_store_same in H.
      inversion H; subst u. right. split; [apply mem_false_lookup; exact Hm|].
      split; reflexivity.
    - rewrite lookup_store_other in H; [left; exact H|].
      intros Heq. rewrite Heq, key_eqb_refl in E. discriminate. }
  destruct mongo; [destruct (insert_one_raises inp)|]; cbn [snd users_db]; apply (Hdb tt).
Qed.

Lemma signup_keeps mongo inp b st k u :
  lookup k (users_db st) = Some u ->
  lookup k (users_db (snd (signup mongo inp POST b st))) = Some u.
Proof.
  intros Hk. unfold signup.
  destruct (mem (username b) (users_db st)) eqn:Hm; [exact Hk|].
  destruct (password_field b) as [| |p]; [exact Hk | exact Hk |].
  assert (Hne : username b <> k).
  { intros Heq. subst k. apply mem_false_lookup in Hm. congruence. }
  destruct mongo; [destruct (insert_one_raises inp)|]; cbn [snd users_db];
    rewrite lookup_store_other by exact Hne; exact Hk.
Qed.

(** X18. Sign-up never touches an existing account and never grants a
    role.  Through any sequence of sign-up requests (whatever they send,
    whether or not the MongoDB insert raises) every account that was
    there before is still there with the same password hash, e-mail and
    role, and every account that was not there before has the role
    [user]. *)
Theorem signups_keep_accounts (mongo : bool) (reqs : list (Inputs * Body)) :
  forall (st : State) (k : Key),
    (forall u, lookup k (users_db st) = Some u ->
               lookup k (users_db (signups mongo reqs st)) = Some u)
    /\ (forall u, lookup k (users_db (signups mongo reqs st)) = Some u ->
                  lookup k (users_db st) = Some u \/ role u = "user"%string).
Proof.
  induction reqs as [|[inp b] rest IH]; intros st k; cbn [signups].
  - split; auto.
  - destruct (IH (snd (signup mongo inp POST b st)) k) as [IHkeep IHrole].
    split.
    + intros u Hu. apply IHkeep. apply signup_keeps. exact Hu.
    + intros u Hu. destruct (IHrole u Hu) as [H | H]; [|right; exact H].
      destruct (signup_step mongo inp b st k u H) as [H1 | (_ & _ & H1)]; auto.
Qed.


(** X20. The demo accounts.  Given that [bcrypt.checkpw] accepts the
    password a hash was made from, after [create_demo_users] (whatever
    [users_db] held before) admin/admin123 logs in with the role [admin]
    and user/user123 with the role [user], and neither name can be taken
    by a sign-up. *)
Theorem demo_users_log_in (inp inp' : Inputs) (st : State) (b : Body) (mongo : bool) :
  (forall pw s, checkpw pw (hashpw pw s) = true) ->
  login POST (mkBody (Some "admin"%string) (PasswordText "admin123") None)
        (create_demo_users inp st)
  = Dispatch.Ok (LoginOk (create_access_token (Some "admin"%string))
                         (Some "admin"%string) "admin")
  /\ login POST (mkBody (Some "user"%string) (PasswordText "user123") None)
           (create_demo_users inp st)
     = Dispatch.Ok (LoginOk (create_access_token (Some "user"%string))
                            (Some "user"%string) "user")
  /\ (username b = Some "admin"%string \/ username b = Some "user"%string ->
      signup mongo inp' POST b (create_demo_users inp st)
      = (Dispatch.Ok UsernameExists, create_demo_users inp st)).
Proof.
  intros Hcontract.
  assert (Hadmin : lookup (Some "admin"%string) (users_db (create_demo_users inp st))
                   = Some (mkUser (hashpw "admin123" (salt inp))
                                  (Some "admin@accidentdetection.com"%string)
                                  "admin" (stamp inp))).
  { unfold create_demo_users. cbn [users_db].
    rewrite lookup_store_other by discriminate. apply lookup_store_same. }
  assert (Huser : lookup (Some "user"%string) (users_db (create_demo_users inp st))
                  = Some (mkUser (hashpw "user123" (salt2 inp))
                                 (Some "user@accidentdetection.com"%string)
                                 "user" (stamp2 inp))).
  { unfold create_demo_users. cbn [users_db]. apply lookup_store_same. }
  split; [|split].
  - unfold login. cbn [username password_field]. rewrite Hadmin. cbn [password role].
    rewrite Hcontract. reflexivity.
  - unfold login. cbn [username password_field]. rewrite Huser. cbn [password role].
    rewrite Hcontract. reflexivity.
  - intros [H | H]; unfold signup, mem; rewrite H; [rewrite Hadmin | rewrite Huser];
      reflexivity.
Qed.

End WithCrypto.

Lemma toy_contract (pw s : string) : @checkpw toy_crypto pw (@hashpw toy_crypto pw s) = true.
Proof.
  cbn. induction pw as [|c pw IH]; cbn.
  - destruct s; reflexivity.
  - destruct (Ascii.ascii_dec c c) as [_|Hne]; [exact IH | contradiction Hne; reflexivity].
Qed.

Lemma signup_then_login_witness :
  @signup toy_crypto false some_inputs POST alice empty_state
  = (Dispatch.Ok UserCreated,
     mkState [(Some "alice"%string,
               mkUser "wonderlands1" None "user" "2024-01-01T00:00:00")] [])
  /\ @login toy_crypto POST alice (snd (@signup toy_crypto false some_inputs POST alice empty_state))
     = Dispatch.Ok (LoginOk "token:alice" (Some "alice"%string) "user").
Proof.
  split; [reflexivity|].
  refine (proj1 (proj2 (@signup_then_login toy_crypto false some_inputs some_inputs
                          alice alice empty_state "wonderland" (toy_contract _ _)
                          eq_refl eq_refl _ eq_refl))).
  intros H. discriminate H.
Defined.

Lemma signup_fails_after_registering_witness :
  fst (@signup toy_crypto true
         (mkInputs "s1" "s2" "2024-01-01T00:00:00" "2024-01-01T00:00:01" true)
         POST alice empty_state) = Dispatch.Raised
  /\ @login toy_crypto POST alice
       (snd (@signup toy_crypto true
               (mkInputs "s1" "s2" "2024-01-01T00:00:00" "2024-01-01T00:00:01" true)
               POST alice empty_state))
     = Dispatch.Ok (LoginOk "token:alice" (Some "alice"%string) "user").
Proof.
  pose proof (@signup_fails_after_registering toy_crypto
                (mkInputs "s1" "s2" "2024-01-01T00:00:00" "2024-01-01T00:00:01" true)
                some_inputs alice empty_state "wonderland" (toy_contract _ _)
                eq_refl eq_refl eq_refl) as H.
  split; [exact (proj1 H) | exact (proj1 (proj2 (proj2 H)))].
Defined.

Lemma signups_keep_accounts_witness :
  lookup (Some "admin"%string)
         (users_db (@signups toy_crypto true
                      [(some_inputs,
                        mkBody (Some "admin"%string) (PasswordText "mine") None);
                       (some_inputs, alice)]
                      (@create_demo_users toy_crypto some_inputs empty_state)))
  = Some (mkUser "admin123s1" (Some "admin@accidentdetection.com"%string) "admin"
                 "2024-01-01T00:00:00").
Proof.
  apply (proj1 (@signups_keep_accounts toy_crypto true
                  [(some_inputs,
                    mkBody (Some "admin"%string) (PasswordText "mine") None);
                   (some_inputs, alice)]
                  (@create_demo_users toy_crypto some_inputs empty_state)
                  (Some "admin"%string))).
  reflexivity.
Defined.


Lemma demo_users_log_in_witness :
  @login toy_crypto POST (mkBody (Some "admin"%string) (PasswordText "admin123") None)
         (@create_demo_users toy_crypto some_inputs empty_state)
  = Dispatch.Ok (LoginOk "token:admin" (Some "admin"%string) "admin").
Proof.
  exact (proj1 (@demo_users_log_in toy_crypto some_inputs some_inputs empty_state
                  alice false toy_contract)).
Defined.

End UsersFacts.

(** ** Seeding *)

Module SeedFacts.
Import Dispatch Seed.

(** The loop of [add] calls leaves a prefix of the samples in Firestore
    and touches nothing else. *)
Lemma add_samples_prefix (w : World) (rs : list AccidentRecord) :
  forall (i : nat) (s : Store),
    exists k,
      snd (add_samples w i rs s)
      = mkStore (accidents_db s) (mongo_accidents s)
                (firestore_accidents s ++ firstn k rs) (log s).
Proof.
  induction rs as [|r rest IH]; intros i s.
  - exists 0%nat. cbn. rewrite app_nil_r. destruct s; reflexivity.
  - cbn [add_samples]. unfold bind, firestore_add_sample.
    destruct (add_raises w i).
    + exists 0%nat. cbn. rewrite app_nil_r. destruct s; reflexivity.
    + destruct (IH (S i) (mkStore (accidents_db s) (mongo_accidents s)
                                  (firestore_accidents s ++ [r]) (log s))) as [k Hk].
      exists (S k). rewrite Hk. cbn. rewrite <- app_assoc. reflexivity.
Qed.

Lemma add_samples_quiet (w : World) (rs : list AccidentRecord) :
  (forall i, add_raises w i = false) ->
  forall (i : nat) (s : Store),
    add_samples w i rs s
    = (Ok tt, mkStore (accidents_db s) (mongo_accidents s)
                      (firestore_accidents s ++ rs) (log s)).
Proof.
  intros Hadd. induction rs as [|r rest IH]; intros i s.
  - cbn. rewrite app_nil_r. destruct s; reflexivity.
  - cbn [add_samples]. unfold bind, firestore_add_sample. rewrite Hadd, IH. cbn.
    rewrite <- app_assoc. reflexivity.
Qed.

Lemma outcome {A} (x : Exc A * Store) :
  (exists a, x = (Ok a, snd x)) \/ x = (Raised, snd x).
Proof. destruct x as [[a|] s]; [left; exists a|right]; reflexivity. Qed.

(** The Firestore block never raises, and leaves a prefix of the samples
    in Firestore, none if Firestore was not empty. *)
Lemma seed_firestore_spec (w : World) (samples : list AccidentRecord) (s : Store) :
  exists b k,
    seed_firestore w samples s
    = (Ok b, mkStore (accidents_db s) (mongo_accidents s)
                     (firestore_accidents s ++ firstn k samples) (log s))
    /\ (firestore_accidents s <> [] -> k = 0%nat).
Proof.
  unfold seed_firestore, try_except.
  destruct (stream_raises w).
  - exists false, 0%nat. cbn. rewrite app_nil_r. destruct s; split; reflexivity.
  - destruct (firestore_accidents s) as [|f fs] eqn:Efs.
    + destruct (add_samples_prefix w samples 0 s) as [k Hk].
      unfold bind.
      destruct (outcome (add_samples w 0 samples s)) as [[[] E] | E];
        rewrite E, Hk, Efs; [exists true, k | exists false, k];
        (split; [reflexivity | intros H; contradiction H; reflexivity]).
    + exists true, 0%nat. cbn. rewrite app_nil_r, <- Efs. destruct s; split; reflexivity.
Qed.

Lemma seed_mongo_spec (w : World) (samples : list AccidentRecord) (s : Store) :
  exists b k,
    seed_mongo w samples s
    = (Ok b, mkStore (accidents_db s) (mongo_accidents s ++ firstn k samples)
                     (firestore_accidents s) (log s))
    /\ (mongo_accidents s <> [] -> k = 0%nat).
Proof.
  unfold seed_mongo, try_except.
  destruct (count_raises w).
  - exists false, 0%nat. cbn. rewrite app_nil_r. destruct s; split; reflexivity.
  - destruct (mongo_accidents s) as [|m mg] eqn:Emg.
    + unfold bind, insert_many.
      destruct (insert_many_stops_after w) as [k|]; rewrite Emg.
      * exists false, k. split; [reflexivity | intros H; contradiction H; reflexivity].
      * exists true, (List.length samples). rewrite firstn_all.
        split; [reflexivity | intros H; contradiction H; reflexivity].
    + exists true, 0%nat. cbn. rewrite app_nil_r, <- Emg. destruct s; split; reflexivity.
Qed.

Lemma seed_firestore_quiet (w : World) (samples : list AccidentRecord) (s : Store) :
  stream_raises w = false ->
  (forall i, add_raises w i = false) ->
  seed_firestore w samples s
  = (Ok true, mkStore (accidents_db s) (mongo_accidents s)
                      (fill (firestore_accidents s) samples) (log s)).
Proof.
  intros Hst Hadd. unfold seed_firestore, try_except. rewrite Hst.
  destruct (firestore_accidents s) as [|f fs] eqn:Efs.
  - unfold bind. rewrite (add_samples_quiet w samples Hadd). rewrite Efs. reflexivity.
  - cbn. rewrite <- Efs. destruct s; reflexivity.
Qed.

Lemma seed_mongo_quiet (w : World) (samples : list AccidentRecord) (s : Store) :
  count_raises w = false ->
  insert_many_stops_after w = None ->
  seed_mongo w samples s
  = (Ok true, mkStore (accidents_db s) (fill (mongo_accidents s) samples)
                      (firestore_accidents s) (log s)).
Proof.
  intros Hct Him. unfold seed_mongo, try_except. rewrite Hct.
  destruct (mongo_accidents s) as [|m mg] eqn:Emg.
  - unfold bind, insert_many. rewrite Him, Emg. reflexivity.
  - cbn. rewrite <- Emg. destruct s; reflexivity.
Qed.

Lemma seed_memory_spec (samples : list AccidentRecord) (s : Store) :
  seed_memory samples s
  = (Ok tt, mkStore (fill (accidents_db s) samples) (mongo_accidents s)
                    (firestore_accidents s) (log s)).
Proof.
  unfold seed_memory. destruct (accidents_db s) eqn:E; cbn; [reflexivity|].
  rewrite <- E. destruct s; reflexivity.
Qed.

(** The function as its three blocks in turn. *)
Lemma seed_unfold (cfg : Config) (w : World) (t1 t2 : string) (s : Store) :
  seed_sample_data cfg w t1 t2 s
  = match (if db_firestore cfg then seed_firestore w (sample_accidents t1 t2) s
           else (Ok false, s)) with
    | (Ok true, s1) => (Ok tt, s1)
    | (Ok false, s1) =>
        match (if accidents_collection cfg
               then seed_mongo w (sample_accidents t1 t2) s1
               else (Ok false, s1)) with
        | (Ok true, s2) => (Ok tt, s2)
        | (Ok false, s2) => seed_memory (sample_accidents t1 t2) s2
        | (Raised, s2) => (Ok tt, s2)
        end
    | (Raised, s1) => (Ok tt, s1)
    end.
Proof.
  unfold seed_sample_data, try_except, bind, ret.
  destruct (db_firestore cfg).
  - destruct (seed_firestore_spec w (sample_accidents t1 t2) s) as (b & k & E & _).
    rewrite E. destruct b; [reflexivity|].
    destruct (accidents_collection cfg).
    + match goal with |- context [seed_mongo w ?l ?s1] =>
        destruct (seed_mongo_spec w l s1) as (b' & k' & E' & _) end.
      rewrite E'. destruct b'; [reflexivity|].
      rewrite seed_memory_spec. reflexivity.
    + rewrite seed_memory_spec. reflexivity.
  - destruct (accidents_collection cfg).
    + destruct (seed_mongo_spec w (sample_accidents t1 t2) s) as (b' & k' & E' & _).
      rewrite E'. destruct b'; [reflexivity|].
      rewrite seed_memory_spec. reflexivity.
    + rewrite seed_memory_spec. reflexivity.
Qed.

Lemma fill_cases (l samples : list AccidentRecord) :
  fill l samples = l \/ (l = [] /\ fill l samples = samples).
Proof. destruct l; [right; split; reflexivity | left; reflexivity]. Qed.

(** X21. Seeding is safe at start-up.  Whatever raises, [seed_sample_data]
    returns normally; the records already held are all kept, in place:
    the in-memory list is either untouched or was empty and now holds the
    two samples, and each remote collection gains at most a prefix of the
    samples, and nothing when it was not empty. *)
Theorem seed_never_raises (cfg : Config) (w : World) (t1 t2 : string) (s : Store) :
  fst (seed_sample_data cfg w t1 t2 s) = Ok tt
  /\ log (snd (seed_sample_data cfg w t1 t2 s)) = log s
  /\ (accidents_db (snd (seed_sample_data cfg w t1 t2 s)) = accidents_db s
      \/ (accidents_db s = []
          /\ accidents_db (snd (seed_sample_data cfg w t1 t2 s)) = sample_accidents t1 t2))
  /\ (exists k, mongo_accidents (snd (seed_sample_data cfg w t1 t2 s))
                = mongo_accidents s ++ firstn k (sample_accidents t1 t2))
  /\ (exists k, firestore_accidents (snd (seed_sample_data cfg w t1 t2 s))
                = firestore_accidents s ++ firstn k (sample_accidents t1 t2))
  /\ (mongo_accidents s <> [] ->
      mongo_accidents (snd (seed_sample_data cfg w t1 t2 s)) = mongo_accidents s)
  /\ (firestore_accidents s <> [] ->
      firestore_accidents (snd (seed_sample_data cfg w t1 t2 s)) = firestore_accidents s).
Proof.
  rewrite seed_unfold.
  set (samples := sample_accidents t1 t2).
  assert (Hfs : exists b k,
             (if db_firestore cfg then seed_firestore w samples s else (Ok false, s))
             = (Ok b, mkStore (accidents_db s) (mongo_accidents s)
                              (firestore_accidents s ++ firstn k samples) (log s))
             /\ (firestore_accidents s <> [] -> k = 0%nat)).
  { destruct (db_firestore cfg); [apply seed_firestore_spec|].
    exists false, 0%nat. cbn. rewrite app_nil_r. destruct s; split; reflexivity. }
  destruct Hfs as (b & k & E & Hk). rewrite E. clear E.
  set (s1 := mkStore (accidents_db s) (mongo_accidents s)
                     (firestore_accidents s ++ firstn k samples) (log s)).
  assert (Hmg : exists b' k',
             (if accidents_collection cfg then seed_mongo w samples s1 else (Ok false, s1))
             = (Ok b', mkStore (accidents_db s) (mongo_accidents s ++ firstn k' samples)
                               (firestore_accidents s ++ firstn k samples) (log s))
             /\ (mongo_accidents s <> [] -> k' = 0%nat)).
  { destruct (accidents_collection cfg); [apply (seed_mongo_spec w samples s1)|].
    exists false, 0%nat. cbn [firstn]. rewrite app_nil_r. split; reflexivity. }
  assert (Hkeep : forall (l : list AccidentRecord) (n : nat),
             (l <> [] -> n = 0%nat) -> l <> [] -> l ++ firstn n samples = l).
  { intros l n Hn Hl. rewrite (Hn Hl). cbn. apply app_nil_r. }
  destruct b.
  - cbn [fst snd accidents_db mongo_accidents firestore_accidents log s1].
    split; [reflexivity|]. split; [reflexivity|]. split; [left; reflexivity|].
    split; [exists 0%nat; cbn; rewrite app_nil_r; reflexivity|].
    split; [exists k; reflexivity|].
    split; [reflexivity | apply Hkeep; exact Hk].
  - destruct Hmg as (b' & k' & E' & Hk'). rewrite E'. clear E'.
    destruct b'.
    + cbn [fst snd accidents_db mongo_accidents firestore_accidents log].
      split; [reflexivity|]. split; [reflexivity|]. split; [left; reflexivity|].
      split; [exists k'; reflexivity|].
      split; [exists k; reflexivity|].
      split; [apply Hkeep; exact Hk' | apply Hkeep; exact Hk].
    + rewrite seed_memory_spec.
      cbn [fst snd accidents_db mongo_accidents firestore_accidents log].
      split; [reflexivity|]. split; [reflexivity|]. split; [apply fill_cases|].
      split; [exists k'; reflexivity|].
      split; [exists k; reflexivity|].
      split; [apply Hkeep; exact Hk' | apply Hkeep; exact Hk].
Qed.

Lemma seed_never_raises_witness :
  fst (seed_sample_data firestore_only second_add_fails "t1" "t2" empty_store) = Ok tt
  /\ mongo_accidents
       (snd (seed_sample_data firestore_only second_add_fails "t1" "t2"
               (mkStore [] [History.record_at "t0"] [] [])))
     = [History.record_at "t0"].
Proof.
  split.
  - exact (proj1 (seed_never_raises firestore_only second_add_fails "t1" "t2" empty_store)).
  - apply (proj1 (proj2 (proj2 (proj2 (proj2 (proj2
             (seed_never_raises firestore_only second_add_fails "t1" "t2"
                (mkStore [] [History.record_at "t0"] [] [])))))))).
    discriminate.
Defined.

(** What a run in which nothing raises leaves. *)
Lemma seed_quiet (cfg : Config) (w : World) (t1 t2 : string) (s : Store) :
  quiet w ->
  snd (seed_sample_data cfg w t1 t2 s)
  = if db_firestore cfg
    then mkStore (accidents_db s) (mongo_accidents s)
                 (fill (firestore_accidents s) (sample_accidents t1 t2)) (log s)
    else if accidents_collection cfg
    then mkStore (accidents_db s)
                 (fill (mongo_accidents s) (sample_accidents t1 t2))
                 (firestore_accidents s) (log s)
    else mkStore (fill (accidents_db s) (sample_accidents t1 t2))
                 (mongo_accidents s) (firestore_accidents s) (log s).
Proof.
  intros (Hst & Hadd & Hct & Him). rewrite seed_unfold.
  destruct (db_firestore cfg).
  - rewrite (seed_firestore_quiet w _ s Hst Hadd). reflexivity.
  - destruct (accidents_collection cfg).
    + rewrite (seed_mongo_quiet w _ s Hct Him). reflexivity.
    + rewrite seed_memory_spec. reflexivity.
Qed.

(** X22. Seeding happens once.  When no call raises, [seed_sample_data]
    looks at one store only, the first available of Firestore, MongoDB
    and the in-memory list, writes the two samples there if that store
    is empty, and leaves the other two as they are; a second run, at any
    later time, changes nothing. *)
Theorem seed_is_idempotent (cfg : Config) (w w' : World) (t1 t2 t3 t4 : string)
    (s : Store) :
  quiet w -> quiet w' ->
  snd (seed_sample_data cfg w' t3 t4 (snd (seed_sample_data cfg w t1 t2 s)))
  = snd (seed_sample_data cfg w t1 t2 s)
  /\ (db_firestore cfg = true ->
      accidents_db (snd (seed_sample_data cfg w t1 t2 s)) = accidents_db s
      /\ mongo_accidents (snd (seed_sample_data cfg w t1 t2 s)) = mongo_accidents s)
  /\ (db_firestore cfg = false ->
      firestore_accidents (snd (seed_sample_data cfg w t1 t2 s)) = firestore_accidents s)
  /\ (db_firestore cfg = false -> accidents_collection cfg = true ->
      accidents_db (snd (seed_sample_data cfg w t1 t2 s)) = accidents_db s)
  /\ (db_firestore cfg = false -> accidents_collection cfg = false ->
      mongo_accidents (snd (seed_sample_data cfg w t1 t2 s)) = mongo_accidents s).
Proof.
  intros Hw Hw'.
  rewrite (seed_quiet cfg w' t3 t4 _ Hw'), (seed_quiet cfg w t1 t2 s Hw).
  destruct s as [db mg fs lg]. cbn [accidents_db mongo_accidents firestore_accidents log].
  destruct (db_firestore cfg), (accidents_collection cfg);
    cbn [accidents_db mongo_accidents firestore_accidents log];
    (split; [destruct db, mg, fs; reflexivity|]);
    repeat split; intros; first [reflexivity | discriminate].
Qed.

Lemma calm_quiet : quiet calm.
Proof. repeat split. Qed.

Lemma seed_is_idempotent_witness :
  snd (seed_sample_data bare calm "t3" "t4"
         (snd (seed_sample_data bare calm "t1" "t2" empty_store)))
  = mkStore (sample_accidents "t1" "t2") [] [] [].
Proof.
  rewrite (proj1 (seed_is_idempotent bare calm calm "t1" "t2" "t3" "t4" empty_store
                    calm_quiet calm_quiet)).
  reflexivity.
Defined.

(** X23. Samples seeded to Firestore are not served.  When Firestore is
    available and its calls do not raise, seeding writes to Firestore
    only, so [/accidents], which reads MongoDB or the in-memory list,
    answers after the seeding what it answered before: the samples never
    show in the history. *)
Theorem firestore_seed_not_in_history
    `{History.Durable} (cfg : Config) (w : World) (t1 t2 : string) (s : Store) :
  db_firestore cfg = true ->
  stream_raises w = false ->
  (forall i, add_raises w i = false) ->
  firestore_accidents (snd (seed_sample_data cfg w t1 t2 s))
  = fill (firestore_accidents s) (sample_accidents t1 t2)
  /\ History.get_accidents cfg (snd (seed_sample_data cfg w t1 t2 s))
     = History.get_accidents cfg s.
Proof.
  intros Hfs Hst Hadd. rewrite seed_unfold, Hfs.
  rewrite (seed_firestore_quiet w _ s Hst Hadd).
  split; reflexivity.
Qed.

Lemma firestore_seed_not_in_history_witness :
  @History.get_accidents History.sorting_store firestore_only
     (snd (seed_sample_data firestore_only calm "t1" "t2" empty_store))
  = History.Accidents [].
Proof.
  rewrite (proj2 (@firestore_seed_not_in_history History.sorting_store
                    firestore_only calm "t1" "t2" empty_store
                    eq_refl eq_refl (fun _ => eq_refl))).
  reflexivity.
Defined.

(** X24. A seeding that fails half-way seeds twice.  When Firestore is
    available and empty and the second [add] raises, the first sample
    stays in Firestore and the function falls through: with no MongoDB
    and an empty in-memory list, both samples are written to the
    in-memory list as well.  Firestore is then no longer empty, so no
    later run in which nothing raises adds the missing sample. *)
Theorem seed_partial_then_falls_through
    (cfg : Config) (w w' : World) (t1 t2 t3 t4 : string) (s : Store) :
  db_firestore cfg = true ->
  accidents_collection cfg = false ->
  firestore_accidents s = [] ->
  accidents_db s = [] ->
  stream_raises w = false ->
  add_raises w 0 = false ->
  add_raises w 1 = true ->
  quiet w' ->
  snd (seed_sample_data cfg w t1 t2 s)
  = mkStore (sample_accidents t1 t2) (mongo_accidents s)
            (firstn 1 (sample_accidents t1 t2)) (log s)
  /\ snd (seed_sample_data cfg w' t3 t4 (snd (seed_sample_data cfg w t1 t2 s)))
     = snd (seed_sample_data cfg w t1 t2 s).
Proof.
  intros Hfs Hmg Hempty Hdb Hst H0 H1 Hw'.
  assert (E : snd (seed_sample_data cfg w t1 t2 s)
              = mkStore (sample_accidents t1 t2) (mongo_accidents s)
                        (firstn 1 (sample_accidents t1 t2)) (log s)).
  { rewrite seed_unfold, Hfs, Hmg.
    unfold seed_firestore, try_except. rewrite Hst, Hempty.
    unfold sample_accidents at 1. cbn [add_samples].
    unfold bind, firestore_add_sample, ret.
    rewrite H0. cbn [add_raises accidents_db mongo_accidents firestore_accidents log].
    rewrite H1. rewrite seed_memory_spec.
    cbn [fst snd accidents_db mongo_accidents firestore_accidents log].
    rewrite Hdb, Hempty. reflexivity. }
  split; [exact E|].
  rewrite E, (seed_quiet cfg w' t3 t4 _ Hw'), Hfs. reflexivity.
Qed.

Lemma seed_partial_then_falls_through_witness :
  snd (seed_sample_data firestore_only second_add_fails "t1" "t2" empty_store)
  = mkStore (sample_accidents "t1" "t2") [] (firstn 1 (sample_accidents "t1" "t2")) [].
Proof.
  exact (proj1 (seed_partial_then_falls_through firestore_only second_add_fails calm
                  "t1" "t2" "t3" "t4" empty_store
                  eq_refl eq_refl eq_refl eq_refl eq_refl eq_refl eq_refl calm_quiet)).
Defined.

End SeedFacts.

(** ** Location *)

Module LocationFacts.
Import Dispatch Location.

Lemma float_or_default_none (f : CoordField) (d : Q) :
  float_or_default f d = None <-> rejected f.
Proof.
  unfold rejected. destruct f; cbn; split;
    try discriminate; try (intros [H | H]; discriminate); auto.
Qed.

Section WithFrame.
Context {Frame : Type}.

Lemma update_location_ok (body : Body) (app : Route.App Frame) (loc : Coordinates) :
  fst (update_location body app) = Ok loc ->
  Route.store (snd (update_location body app)) = Route.store app
  /\ Route.current_location (snd (update_location body app)) = loc.
Proof.
  unfold update_location. destruct body as [|lat_field lng_field]; [discriminate|].
  destruct (float_or_default lat_field 28.6139), (float_or_default lng_field 77.2090);
    cbn; intros E; try discriminate E.
  inversion E. split; reflexivity.
Qed.

(** X25. [/update_location] is all or nothing, and a missing key falls
    back to Delhi.  The route changes nothing but [current_location].  It
    raises exactly when the body is not a JSON object or when [lat] or
    [lng] is null or something [float] rejects, and then the location is
    left as it was, also when the other coordinate was valid.  Otherwise
    both coordinates are replaced: a key that is missing is set to its
    default (28.6139 or 77.2090), not kept from the current location,
    and a value [float] converts is stored as [float] returns it,
    whatever its size. *)
Theorem update_location_all_or_nothing (body : Body) (app : Route.App Frame) :
  Route.detector (snd (update_location body app)) = Route.detector app
  /\ Route.last_alert_time (snd (update_location body app)) = Route.last_alert_time app
  /\ Route.store (snd (update_location body app)) = Route.store app
  /\ (fst (update_location body app) = Raised
      <-> body = NotAnObject
          \/ exists lat_field lng_field,
               body = Object lat_field lng_field
               /\ (rejected lat_field \/ rejected lng_field))
  /\ (fst (update_location body app) = Raised -> snd (update_location body app) = app)
  /\ (forall lat_field lng_field loc,
        body = Object lat_field lng_field ->
        fst (update_location body app) = Ok loc ->
        Route.current_location (snd (update_location body app)) = loc
        /\ (lat_field = CoordMissing -> lat loc = 28.6139)
        /\ (lng_field = CoordMissing -> lng loc = 77.2090)
        /\ (forall q, lat_field = CoordNumber q -> lat loc = q)
        /\ (forall q, lng_field = CoordNumber q -> lng loc = q)).
Proof.
  unfold update_location, rejected.
  destruct body as [|lat_field lng_field].
  - cbn. split; [reflexivity|]. split; [reflexivity|]. split; [reflexivity|].
    split; [split; [intros _; left; reflexivity | reflexivity]|].
    split; [reflexivity|]. intros x y loc H. discriminate H.
  - assert (Hrej : rejected lat_field \/ rejected lng_field
                   <-> (float_or_default lat_field 28.6139 = None
                        \/ float_or_default lng_field 77.2090 = None)).
    { rewrite !float_or_default_none. reflexivity. }
    assert (Hval : forall f d v,
               float_or_default f d = Some v ->
               (f = CoordMissing -> v = d) /\ (forall q, f = CoordNumber q -> v = q)).
    { intros f d v E. destruct f; cbn in E; inversion E; subst;
        split; intros; congruence. }
    unfold rejected in Hrej.
    destruct (float_or_default lat_field 28.6139) as [a|] eqn:Ea;
      [destruct (float_or_default lng_field 77.2090) as [b|] eqn:Eb|]; cbn.
    + split; [reflexivity|]. split; [reflexivity|]. split; [reflexivity|].
      split.
      { split; [discriminate|].
        intros [E | (x & y & E & H)]; [discriminate|].
        inversion E; subst x y. apply Hrej in H. destruct H; discriminate. }
      split; [discriminate|].
      intros x y loc E El. inversion E; subst x y. inversion El; subst loc. cbn.
      destruct (Hval _ _ _ Ea) as [Ha1 Ha2]. destruct (Hval _ _ _ Eb) as [Hb1 Hb2].
      split; [reflexivity|]. repeat split; assumption.
    + split; [reflexivity|]. split; [reflexivity|]. split; [reflexivity|].
      split.
      { split; [|reflexivity]. intros _. right. exists lat_field, lng_field.
        split; [reflexivity|]. apply Hrej. right. reflexivity. }
      split; [reflexivity|].
      intros x y loc E El. discriminate El.
    + split; [reflexivity|]. split; [reflexivity|]. split; [reflexivity|].
      split.
      { split; [|reflexivity]. intros _. right. exists lat_field, lng_field.
        split; [reflexivity|]. apply Hrej. left. reflexivity. }
      split; [reflexivity|].
      intros x y loc E El. discriminate El.
Qed.

End WithFrame.

Section WithVision.
Context {Frame : Type} `{Detector.Vision Frame}.

(** X26. An alert carries the coordinates last set.  After a successful
    [/update_location], a [/detect] request that sends an alert with the
    in-memory list as primary store appends one record, behind the
    records already there, whose coordinates are the ones just set,
    whatever the location was before. *)
Theorem alert_carries_new_coordinates
    (cfg : Route.Config) (inp : Route.Inputs) (req : Route.Request Frame)
    (body : Body) (app : Route.App Frame) (loc : Coordinates) :
  accidents_collection (Route.sinks cfg) = false ->
  fst (update_location body app) = Ok loc ->
  Session.alerted
    (fst (Route.detect_accident cfg inp req (snd (update_location body app)))) = true ->
  exists r,
    accidents_db
      (Route.store
         (snd (Route.detect_accident cfg inp req (snd (update_location body app)))))
    = accidents_db (Route.store app) ++ [r]
    /\ rec_coordinates r = loc
    /\ timestamp r = Route.record_stamp inp.
Proof.
  intros Hmem Hup Halert.
  destruct (update_location_ok body app loc Hup) as (Hstore & Hcur).
  set (app1 := snd (update_location body app)) in *.
  destruct (SessionFacts.route_effects cfg inp req app1) as (_ & _ & Hyes).
  destruct (Hyes Halert) as (r' & _ & _ & _ & _ & Est).
  rewrite Est.
  match goal with
  | |- context [send_alert ?c ?w ?st ?d ?s] =>
      destruct (DispatchCasesFacts.memory_primary_appends c w st d s Hmem) as [Edb _];
      exists (accident_record st d)
  end.
  rewrite Edb, Hstore. cbn. rewrite Hcur.
  split; [reflexivity|]. split; reflexivity.
Qed.

End WithVision.

Lemma update_location_all_or_nothing_witness :
  snd (@update_location Q (Object (CoordNumber 12.5) CoordNull) Route.initial_app)
  = Route.initial_app
  /\ Route.current_location
       (snd (@update_location Q (Object CoordMissing (CoordNumber 80))
               (Route.mkApp Detector.init 0 empty_store (mkCoordinates 12.5 77))))
     = mkCoordinates 28.6139 80
  /\ fst (@update_location Q NotAnObject Route.initial_app) = Raised.
Proof.
  split; [|split].
  - apply (proj1 (proj2 (proj2 (proj2 (proj2
             (@update_location_all_or_nothing Q (Object (CoordNumber 12.5) CoordNull)
                Route.initial_app)))))).
    reflexivity.
  - apply (proj2 (proj2 (proj2 (proj2 (proj2
             (@update_location_all_or_nothing Q (Object CoordMissing (CoordNumber 80))
                (Route.mkApp Detector.init 0 empty_store (mkCoordinates 12.5 77)))))))
             CoordMissing (CoordNumber 80) (mkCoordinates 28.6139 80) eq_refl).
    reflexivity.
  - apply (proj2 (proj1 (proj2 (proj2 (proj2
             (@update_location_all_or_nothing Q NotAnObject Route.initial_app)))))).
    left. reflexivity.
Defined.

Lemma alert_carries_new_coordinates_witness :
  exists r,
    accidents_db
      (Route.store
         (snd (@Route.detect_accident Q Detector.grey_vision Route.demo_config
                 (Route.inputs_at 1700000000 Route.accident_draws
                                  Route.some_mock_draws calm_world)
                 Route.plain_request
                 (snd (@update_location Q (Object (CoordNumber 12.5) (CoordNumber 80))
                         Route.initial_app)))))
    = [r]
    /\ rec_coordinates r = mkCoordinates 12.5 80.
Proof.
  destruct (@alert_carries_new_coordinates Q Detector.grey_vision
              Route.demo_config
              (Route.inputs_at 1700000000 Route.accident_draws
                               Route.some_mock_draws calm_world)
              Route.plain_request (Object (CoordNumber 12.5) (CoordNumber 80))
              Route.initial_app (mkCoordinates 12.5 80)
              eq_refl eq_refl eq_refl)
    as (r & Hdb & Hc & _).
  exists r. split; [exact Hdb | exact Hc].
Defined.

End LocationFacts.

(** ** Recipients *)

Module MailConfigFacts.
Import MailConfig.

#[local] Arguments is_space : simpl never.
#[local] Arguments is_comma : simpl never.

Lemma space_not_comma (c : N) : is_space c = true -> is_comma c = false.
Proof.
  unfold is_comma. destruct (c =? 44)%N eqn:E; [|reflexivity].
  apply N.eqb_eq in E. subst c. intros H. vm_compute in H. discriminate H.
Qed.

Lemma split_nonempty (s : Text) : split_comma s <> [].
Proof.
  destruct s as [|c rest]; cbn; [discriminate|].
  destruct (is_comma c); [discriminate|].
  destruct (split_comma rest); discriminate.
Qed.

(** No piece of [split(',')] holds a comma. *)
Lemma pieces_no_comma (s : Text) :
  forall p, In p (split_comma s) -> has_comma p = false.
Proof.
  induction s as [|c rest IH]; cbn [split_comma]; intros p Hin.
  - destruct Hin as [<- | []]. reflexivity.
  - destruct (is_comma c) eqn:Ec.
    + destruct Hin as [<- | Hin]; [reflexivity | apply IH; exact Hin].
    + destruct (split_comma rest) as [|h t].
      * destruct Hin as [<- | []]. cbn. rewrite Ec. reflexivity.
      * destruct Hin as [<- | Hin].
        -- cbn. rewrite Ec. cbn. apply IH. left. reflexivity.
        -- apply IH. right. exact Hin.
Qed.

Lemma has_comma_lstrip (s : Text) : has_comma s = false -> has_comma (lstrip s) = false.
Proof.
  induction s as [|c rest IH]; cbn; [auto|].
  intros H. apply orb_false_iff in H as [H1 H2].
  destruct (is_space c); [apply IH; exact H2|]. cbn. rewrite H1. exact H2.
Qed.

Lemma has_comma_rstrip (s : Text) : has_comma s = false -> has_comma (rstrip s) = false.
Proof.
  induction s as [|c rest IH]; cbn; [auto|].
  intros H. apply orb_false_iff in H as [H1 H2].
  specialize (IH H2). revert IH.
  destruct (rstrip rest) as [|d r']; intros IH.
  - destruct (is_space c); cbn; [reflexivity | rewrite H1; reflexivity].
  - unfold has_comma in *. cbn [existsb] in *. rewrite H1, IH. reflexivity.
Qed.

Lemma has_comma_app (a b : Text) : has_comma (a ++ b) = has_comma a || has_comma b.
Proof. apply existsb_app. Qed.

Lemma lstrip_length (s : Text) : (List.length (lstrip s) <= List.length s)%nat.
Proof.
  induction s as [|c rest IH]; cbn; [lia|].
  destruct (is_space c); cbn; lia.
Qed.

Lemma lstrip_idem (s : Text) : lstrip (lstrip s) = lstrip s.
Proof.
  induction s as [|c rest IH]; cbn; [reflexivity|].
  destruct (is_space c) eqn:E; [exact IH|]. cbn. rewrite E. reflexivity.
Qed.

(** A text with nothing to strip on the left starts with a character
    that is not whitespace. *)
Lemma lstrip_fixed (c : N) (rest : Text) :
  lstrip (c :: rest) = c :: rest -> is_space c = false.
Proof.
  cbn. destruct (is_space c); [|reflexivity].
  intros E. pose proof (lstrip_length rest) as L. rewrite E in L. cbn in L. lia.
Qed.

Lemma lstrip_rstrip (t : Text) : lstrip t = t -> lstrip (rstrip t) = rstrip t.
Proof.
  destruct t as [|c rest]; [reflexivity|].
  intros E. apply lstrip_fixed in E. cbn.
  destruct (rstrip rest) as [|d r'].
  - rewrite E. cbn. rewrite E. reflexivity.
  - cbn. rewrite E. reflexivity.
Qed.

Lemma rstrip_idem (s : Text) : rstrip (rstrip s) = rstrip s.
Proof.
  induction s as [|c rest IH]; cbn; [reflexivity|].
  revert IH. destruct (rstrip rest) as [|d r']; intros IH.
  - destruct (is_space c) eqn:E; cbn; [reflexivity | rewrite E; reflexivity].
  - change (rstrip (c :: d :: r'))
      with (match rstrip (d :: r') with
            | [] => if is_space c then [] else [c]
            | d' :: r'' => c :: d' :: r''
            end).
    rewrite IH. reflexivity.
Qed.

Lemma strip_idem (s : Text) : strip (strip s) = strip s.
Proof.
  unfold strip. rewrite (lstrip_rstrip (lstrip s)) by apply lstrip_idem.
  apply rstrip_idem.
Qed.

Lemma nonempty_true (s : Text) : nonempty s = true <-> s <> [].
Proof. destruct s; cbn; split; congruence. Qed.

(** What the parsing leaves is clean. *)
Lemma parsed_clean (value e : Text) :
  In e (ALERT_EMAILS value) ->
  clean e /\ exists piece, In piece (split_comma value) /\ e = strip piece.
Proof.
  unfold ALERT_EMAILS. intros Hin.
  apply in_map_iff in Hin as (p & <- & Hp).
  apply filter_In in Hp as (Hp & Hne).
  split; [|exists p; split; [exact Hp | reflexivity]].
  split; [apply nonempty_true; exact Hne|].
  split; [apply strip_idem|].
  unfold strip. apply has_comma_rstrip, has_comma_lstrip.
  apply (pieces_no_comma value). exact Hp.
Qed.

(** X27. Every recipient is a trimmed, non-empty piece.  Whatever the
    value of the environment variable, each address in [ALERT_EMAILS] is
    not empty, has no whitespace left at either end (none of the
    characters [str.strip()] removes, the Unicode ones included) and
    holds no comma; it is the trimmed form of one of the pieces between
    the commas. *)
Theorem recipients_are_clean (value e : Text) :
  In e (ALERT_EMAILS value) ->
  (e <> [] /\ lstrip e = e /\ rstrip e = e /\ has_comma e = false)
  /\ exists piece, In piece (split_comma value) /\ e = strip piece.
Proof.
  intros Hin. destruct (parsed_clean value e Hin) as ((Hne & Hs & Hc) & Hp).
  split; [|exact Hp].
  split; [exact Hne|].
  destruct Hp as (p & _ & ->).
  assert (Hl : lstrip (strip p) = strip p).
  { unfold strip. apply lstrip_rstrip, lstrip_idem. }
  split; [exact Hl|].
  split; [unfold strip; apply rstrip_idem | exact Hc].
Qed.

Lemma recipients_are_clean_witness :
  ALERT_EMAILS (text " ops@example.org , ,duty@example.org," ++ [8195; 44]%N
                ++ text "a@x.org" ++ [8195]%N)
  = [text "ops@example.org"; text "duty@example.org"; text "a@x.org"]
  /\ rstrip (text "a@x.org") = text "a@x.org".
Proof.
  split; [vm_compute; reflexivity|].
  apply (recipients_are_clean
           (text " ops@example.org , ,duty@example.org," ++ [8195; 44]%N
            ++ text "a@x.org" ++ [8195]%N)).
  vm_compute. right. right. left. reflexivity.
Defined.

Lemma all_space_lstrip (s : Text) : all_space (lstrip s) = all_space s.
Proof.
  induction s as [|c rest IH]; cbn; [reflexivity|].
  destruct (is_space c) eqn:E; cbn; [exact IH | rewrite E; reflexivity].
Qed.

Lemma rstrip_empty (s : Text) : nonempty (rstrip s) = negb (all_space s).
Proof.
  unfold all_space. induction s as [|c rest IH]; cbn; [reflexivity|].
  revert IH. destruct (rstrip rest) as [|d r']; cbn; intros IH.
  - destruct (forallb is_space rest); [|discriminate IH].
    destruct (is_space c); reflexivity.
  - destruct (forallb is_space rest); [discriminate IH|].
    rewrite andb_false_r. reflexivity.
Qed.

Lemma strip_empty (s : Text) : nonempty (strip s) = negb (all_space s).
Proof. unfold strip. rewrite rstrip_empty, all_space_lstrip. reflexivity. Qed.

Lemma pieces_blank (s : Text) : forallb all_space (split_comma s) = blank s.
Proof.
  unfold blank. induction s as [|c rest IH]; cbn [split_comma forallb]; [reflexivity|].
  destruct (is_comma c) eqn:Ec.
  - cbn [forallb all_space]. rewrite IH, orb_true_r. reflexivity.
  - rewrite orb_false_r, <- IH.
    pose proof (split_nonempty rest) as Hne.
    destruct (split_comma rest) as [|h t]; [contradiction Hne; reflexivity|].
    unfold all_space. cbn [forallb]. rewrite andb_assoc. reflexivity.
Qed.

Lemma filter_nil_forallb {A} (f : A -> bool) (l : list A) :
  filter f l = [] <-> forallb (fun x => negb (f x)) l = true.
Proof.
  induction l as [|x l IH]; cbn; [split; reflexivity|].
  destruct (f x); cbn; [split; discriminate | exact IH].
Qed.

Lemma forallb_same {A} (f g : A -> bool) (l : list A) :
  (forall x, f x = g x) -> forallb f l = forallb g l.
Proof.
  intros H. induction l as [|x l IH]; cbn; [reflexivity|]. rewrite H, IH. reflexivity.
Qed.

Lemma no_recipients (value : Text) : ALERT_EMAILS value = [] <-> blank value = true.
Proof.
  unfold ALERT_EMAILS. rewrite <- pieces_blank.
  split.
  - intros E. apply map_eq_nil in E. apply filter_nil_forallb in E.
    rewrite <- E. apply forallb_same. intros p. rewrite strip_empty, negb_involutive.
    reflexivity.
  - intros E.
    assert (F : filter (fun e => nonempty (strip e)) (split_comma value) = []).
    { apply filter_nil_forallb. rewrite <- E. apply forallb_same.
      intros p. rewrite strip_empty, negb_involutive. reflexivity. }
    rewrite F. reflexivity.
Qed.

(** X28. A blank recipient list switches e-mail off.  [ALERT_EMAILS] is
    empty exactly when the value of the variable holds nothing but
    commas and characters [str.strip()] removes (the default, the empty
    string, included); [send_email_alert] then answers [False] without
    contacting the server and without printing anything, whatever the
    other SMTP settings are. *)
Theorem blank_recipients_disable_email
    (accidents twilio firestore : bool) (host : string) (port : Z)
    (user password : string) (value : Text) (w : Dispatch.World) (s : Dispatch.Store) :
  (ALERT_EMAILS value = [] <-> blank value = true)
  /\ (blank value = true ->
      Dispatch.send_email_alert
        (config_of_env accidents twilio firestore host port user password value) w s
      = (Dispatch.Ok false, s)).
Proof.
  split; [apply no_recipients|].
  intros Hb. rewrite DispatchFacts.send_email_alert_spec.
  unfold Dispatch.email_events.
  rewrite DispatchCasesFacts.not_configured.
  - rewrite DispatchFacts.add_log_nil. reflexivity.
  - right. right. right. right. unfold config_of_env. cbn.
    rewrite (proj2 (no_recipients value) Hb). reflexivity.
Qed.

Lemma blank_recipients_disable_email_witness :
  Dispatch.send_email_alert
    (config_of_env false false false "smtp.example.org" 587 "alerts" "secret"
                   ([32; 44; 8195; 44; 12288]%N))
    Dispatch.calm_world Dispatch.empty_store
  = (Dispatch.Ok false, Dispatch.empty_store).
Proof.
  apply (proj2 (blank_recipients_disable_email false false false "smtp.example.org" 587
                  "alerts" "secret" ([32; 44; 8195; 44; 12288]%N)
                  Dispatch.calm_world Dispatch.empty_store)).
  reflexivity.
Defined.

Lemma split_app_no_comma (x s : Text) :
  has_comma x = false ->
  split_comma (x ++ s)
  = match split_comma s with
    | [] => [x]
    | h :: t => (x ++ h) :: t
    end.
Proof.
  induction x as [|c x IH]; cbn.
  - intros _. pose proof (split_nonempty s) as Hne.
    destruct (split_comma s); [contradiction Hne|]; reflexivity.
  - intros H. apply orb_false_iff in H as [H1 H2].
    rewrite H1, (IH H2).
    pose proof (split_nonempty s) as Hne.
    destruct (split_comma s); [contradiction Hne|]; reflexivity.
Qed.

Lemma all_space_no_comma (ws : Text) : all_space ws = true -> has_comma ws = false.
Proof.
  induction ws as [|c ws IH]; cbn; [reflexivity|].
  intros H. apply andb_true_iff in H as [H1 H2].
  rewrite (space_not_comma c H1). exact (IH H2).
Qed.

Lemma lstrip_spaces (ws x : Text) : all_space ws = true -> lstrip (ws ++ x) = lstrip x.
Proof.
  induction ws as [|c ws IH]; cbn; [reflexivity|].
  intros H. apply andb_true_iff in H as [H1 H2]. rewrite H1. apply IH. exact H2.
Qed.

Lemma strip_spaces (ws x : Text) : all_space ws = true -> strip (ws ++ x) = strip x.
Proof. intros H. unfold strip. rewrite (lstrip_spaces ws x H). reflexivity. Qed.

(** Parsing a joined list that follows some whitespace. *)
Lemma parse_join (l : list Text) :
  forall ws, all_space ws = true -> Forall clean l -> l <> [] ->
             ALERT_EMAILS (ws ++ join l) = l.
Proof.
  induction l as [|x rest IH]; intros ws Hws Hl Hne; [contradiction Hne; reflexivity|].
  inversion Hl as [|x' rest' (Hx1 & Hx2 & Hx3) Hrest]; subst.
  assert (Hwx : has_comma (ws ++ x) = false).
  { rewrite has_comma_app, (all_space_no_comma ws Hws), Hx3. reflexivity. }
  assert (Hsx : strip (ws ++ x) = x).
  { rewrite (strip_spaces ws x Hws). exact Hx2. }
  destruct rest as [|y rest].
  - cbn [join]. unfold ALERT_EMAILS.
    rewrite <- (app_nil_r (ws ++ x)), (split_app_no_comma (ws ++ x) [] Hwx).
    cbn [split_comma filter map]. rewrite app_nil_r, Hsx.
    destruct x; [contradiction Hx1; reflexivity|].
    cbn [nonempty map]. rewrite Hsx. reflexivity.
  - change (join (x :: y :: rest)) with (x ++ 44%N :: ([32%N] ++ join (y :: rest))).
    rewrite app_assoc. unfold ALERT_EMAILS.
    rewrite (split_app_no_comma (ws ++ x) _ Hwx).
    change (split_comma (44%N :: ([32%N] ++ join (y :: rest))))
      with ([] :: split_comma ([32%N] ++ join (y :: rest))).
    cbv beta iota. rewrite app_nil_r. cbn [filter]. rewrite Hsx.
    destruct x as [|c x]; [contradiction Hx1; reflexivity|].
    cbn [nonempty map]. rewrite Hsx. f_equal.
    apply (IH [32%N] eq_refl Hrest). discriminate.
Qed.

(** X29. The [To] header parses back to the recipients.  For a list of
    addresses that are not empty, trimmed and free of commas, joining
    them with [", "] as [send_email_alert] does for the [To] header and
    parsing the result as the variable is parsed gives the list back;
    in particular parsing what a first parse gave, of any value,
    changes nothing. *)
Theorem join_then_parse (l : list Text) (value : Text) :
  (Forall clean l -> ALERT_EMAILS (join l) = l)
  /\ ALERT_EMAILS (join (ALERT_EMAILS value)) = ALERT_EMAILS value.
Proof.
  assert (H : forall l', Forall clean l' -> ALERT_EMAILS (join l') = l').
  { intros l' Hl. destruct l' as [|x rest] eqn:E; [reflexivity|].
    rewrite <- E in *. apply (parse_join l' [] eq_refl Hl). rewrite E. discriminate. }
  split; [apply H|].
  apply H. apply Forall_forall. intros e He.
  exact (proj1 (parsed_clean value e He)).
Qed.

Lemma join_then_parse_witness :
  join [text "ops@example.org"; text "duty@example.org"]
  = text "ops@example.org, duty@example.org"
  /\ ALERT_EMAILS (text "ops@example.org, duty@example.org")
     = [text "ops@example.org"; text "duty@example.org"].
Proof.
  split; [vm_compute; reflexivity|].
  change (text "ops@example.org, duty@example.org")
    with (join [text "ops@example.org"; text "duty@example.org"]).
  apply (proj1 (join_then_parse [text "ops@example.org"; text "duty@example.org"] [])).
  repeat constructor; vm_compute; congruence.
Defined.

End MailConfigFacts.
